(** * core-transcribe: the live audio session engine of [LiveAgent.tsx]

    A shallow embedding of the streaming session component
    ([src/components/LiveAgent.tsx]) and of the capture set-up of the
    realtime transcriber ([startRealtimeRecording]), together with the
    properties the specification states about them.

    Conventions.
    - A JavaScript string is the list of its UTF-16 code units ([list N]).
    - A [Uint8Array] is a [list byte]; an [Int16Array] is a [list Z] whose
      elements a store has wrapped into the signed 16-bit range.
    - Audio samples and clock readings are rationals ([Q]).  Every sample the
      code manipulates is a 32-bit float scaled by a power of two or by
      [0x7FFF], which a double represents exactly, so no rounding is lost by
      the rational model of the codec.  The playback clock is different: the
      duration of a buffer and the cursor are a quotient and a sum of
      doubles, which the language rounds; they are computed with
      [Double.div] and [Double.add].
    - A handler that can throw returns a [Result].
    - An [async] function runs in one piece up to each [await].  [connect]
      is given twice: as one function with its two requests answered at
      once, and as the parts between its waits, which other handlers can
      interleave with ([Phase]). *)

From Stdlib Require Import ZArith NArith QArith Qminmax Qabs Qround Qpower Lia Lqa ZifyNat List Bool.
From Stdlib Require Import Strings.String Strings.Ascii Strings.Byte DecimalString.
From stdpp Require Import base list.

Import ListNotations.
#[local] Open Scope N_scope.

#[local] Ltac Zify.zify_post_hook ::= Z.to_euclidean_division_equations.

(** ** JavaScript strings *)

Abbreviation jsString := (list N).

(** The code units of an ASCII literal of the source. *)
Definition lit (s : string) : jsString :=
  map N_of_ascii (list_ascii_of_string s).

(** The character [\n] of a template literal. *)
Definition nl : jsString := [10].

(** The double-quote character, code unit 34. *)
Definition dquote : jsString := [34].

(** ECMAScript [LineTerminator]: LF, CR, LS, PS. *)
Definition isLineTerminator (c : N) : bool :=
  (c =? 10) || (c =? 13) || (c =? 8232) || (c =? 8233).

(** ECMAScript [WhiteSpace] together with [LineTerminator]: what
    [String.prototype.trim] removes and what [\s] matches. *)
Definition isWhiteSpace (c : N) : bool :=
  (c =? 9) || (c =? 11) || (c =? 12) || (c =? 32) || (c =? 160)
  || (c =? 5760) || ((8192 <=? c) && (c <=? 8202))
  || (c =? 8239) || (c =? 8287) || (c =? 12288) || (c =? 65279)
  || isLineTerminator c.

(** [s.trimStart()]. *)
Fixpoint trimStart (s : jsString) : jsString :=
  match s with
  | c :: r => if isWhiteSpace c then trimStart r else s
  | [] => []
  end.

(** [s.trim()]: white space removed at both ends. *)
Definition trim (s : jsString) : jsString :=
  rev (trimStart (rev (trimStart s))).

Arguments lit : simpl never.
Arguments trim : simpl never.

(** Truthiness of a string: [if (s)] holds for the non-empty ones. *)
Definition truthy (s : jsString) : bool :=
  match s with [] => false | _ :: _ => true end.

(** ** Exceptions and results *)

Inductive Exception : Type :=
  | InvalidCharacterError   (* btoa / atob on a string they reject *)
  | MalformedFrame          (* RangeError: new Int16Array(buffer) on an odd byte length *)
  | NotSupportedError       (* createBuffer with a length of zero *)
  | DeviceUnavailable.      (* getUserMedia rejected *)

Inductive Result (A : Type) : Type :=
  | Ok (a : A)
  | Throw (e : Exception).
Arguments Ok {A} a.
Arguments Throw {A} e.

Definition bind {A B} (r : Result A) (k : A -> Result B) : Result B :=
  match r with
  | Ok a => k a
  | Throw e => Throw e
  end.

Notation "'do' x <- r ; k" := (bind r (fun x => k))
  (at level 10, x name, r at level 100, k at level 200).

(** ** Transport encoding: [btoa], [atob] and the two framing helpers *)

Module Base64.

(** The character of a 6-bit group. *)
Definition alphabet (n : N) : N :=
  if n <? 26 then 65 + n
  else if n <? 52 then 97 + (n - 26)
  else if n <? 62 then 48 + (n - 52)
  else if n =? 62 then 43
  else 47.

(** The 6-bit group of a character, when it is in the alphabet. *)
Definition value (c : N) : option N :=
  if (65 <=? c) && (c <=? 90) then Some (c - 65)
  else if (97 <=? c) && (c <=? 122) then Some (c - 71)
  else if (48 <=? c) && (c <=? 57) then Some (c + 4)
  else if c =? 43 then Some 62
  else if c =? 47 then Some 63
  else None.

(** The 6-bit groups of a byte string: three bytes give four groups, a
    rest of two bytes gives three (two zero bits appended) and a rest of
    one byte gives two (four zero bits appended). *)
Fixpoint sextets (l : list N) : list N :=
  match l with
  | a :: b :: c :: r =>
      let n := (a * 256 + b) * 256 + c in
      n / 262144 :: (n / 4096) mod 64 :: (n / 64) mod 64 :: n mod 64
        :: sextets r
  | [a; b] =>
      let n := (a * 256 + b) * 4 in
      [n / 4096; (n / 64) mod 64; n mod 64]
  | [a] =>
      let n := a * 16 in
      [n / 64; n mod 64]
  | [] => []
  end.

(** [=] signs that complete the output to a multiple of four. *)
Definition padding (k : nat) : list N :=
  repeat 61 ((4 - k mod 4) mod 4)%nat.

(** [btoa(s)]: throws when a code unit exceeds 255. *)
Definition btoa (s : jsString) : Result jsString :=
  if forallb (fun c => c <=? 255) s then
    let g := sextets s in
    Ok (map alphabet g ++ padding (length g))
  else Throw InvalidCharacterError.

Definition isAsciiWhitespace (c : N) : bool :=
  (c =? 9) || (c =? 10) || (c =? 12) || (c =? 13) || (c =? 32).

(** When the length is a multiple of four, one or two [=] at the end are
    removed. *)
Definition stripPadding (l : list N) : list N :=
  if (length l mod 4 =? 0)%nat then
    match rev l with
    | a :: b :: r =>
        if (a =? 61) && (b =? 61) then rev r
        else if a =? 61 then rev (b :: r)
        else l
    | [a] => if a =? 61 then [] else l
    | [] => l
    end
  else l.

(** Bytes of a sequence of 6-bit groups; the bits of an incomplete last
    group are discarded. *)
Fixpoint unsextets (l : list N) : list N :=
  match l with
  | a :: b :: c :: d :: r =>
      let n := ((a * 64 + b) * 64 + c) * 64 + d in
      n / 65536 :: (n / 256) mod 256 :: n mod 256 :: unsextets r
  | [a; b; c] =>
      let n := ((a * 64 + b) * 64 + c) / 4 in
      [n / 256; n mod 256]
  | [a; b] => [(a * 64 + b) / 16]
  | _ => []
  end.

Fixpoint values (l : list N) : option (list N) :=
  match l with
  | [] => Some []
  | c :: r =>
      match value c, values r with
      | Some v, Some vs => Some (v :: vs)
      | _, _ => None
      end
  end.

(** [atob(s)], the forgiving-base64 decoder of the platform: ASCII white
    space is ignored, final padding is optional, a length of 1 modulo 4
    and any character outside the alphabet are rejected. *)
Definition atob (s : jsString) : Result jsString :=
  let d := stripPadding (List.filter (fun c => negb (isAsciiWhitespace c)) s) in
  if (length d mod 4 =? 1)%nat then Throw InvalidCharacterError
  else match values d with
       | Some g => Ok (unsextets g)
       | None => Throw InvalidCharacterError
       end.

End Base64.

(** A [Uint8Array] store: the value modulo 256. *)
Definition toUint8 (c : N) : byte :=
  match Byte.of_N (c mod 256) with
  | Some b => b
  | None => x00
  end.

(** Lines 320-327 of [onaudioprocess]: the bytes become a binary string,
    one [String.fromCharCode] per byte, which [btoa] encodes. *)
Definition frameToWire (uint8 : list byte) : Result jsString :=
  let binary := map Byte.to_N uint8 in
  Base64.btoa binary.

(** Modelled from the spec: [base64ToArrayBuffer] of [utils/audioUtils],
    a module that is absent from the sources.  The spec calls it
    [wireToFrame], the exact inverse of the transport encoding: the text is
    decoded by [atob] and each character code is stored in a byte array. *)
Definition base64ToArrayBuffer (base64 : jsString) : Result (list byte) :=
  do binaryString <- Base64.atob base64;
  Ok (map toUint8 binaryString).

Definition wireToFrame := base64ToArrayBuffer.


(** ** PCM codec *)

(** [Math.max(-1, Math.min(1, x))]. *)
Definition clamp (x : Q) : Q := Qmax (-1) (Qmin 1 x).

(** Conversion of a number to an integer drops the fractional part. *)
Definition truncate (q : Q) : Z := Z.quot (Qnum q) (Zpos (Qden q)).

(** Rounding to the nearest integer, halves upwards ([Math.round]). *)
Definition roundNearest (q : Q) : Z := Qfloor (q + (1 # 2)).

(** A store into an [Int16Array]: the integer modulo 2^16, read as signed. *)
Definition wrap16 (z : Z) : Z :=
  let u := (z mod 65536)%Z in
  if (u <? 32768)%Z then u else (u - 65536)%Z.

(** Modelled from the spec: [float32ToInt16] of [utils/audioUtils], a module
    that is absent from the sources.  Following section 4.1, each sample is
    clamped to [-1, 1], scaled to the signed 16-bit range (so that -1 becomes
    -32768 and 1 becomes 32767) and stored in an [Int16Array], which
    truncates. *)
Definition float32ToInt16Sample (x : Q) : Z :=
  let s := clamp x in
  wrap16 (truncate (if Qle_bool 0 s then s * 32767 else s * 32768)).

Definition float32ToInt16 (float32 : list Q) : list Z :=
  map float32ToInt16Sample float32.

(** The other readings of that sentence: the conversion to an integer may
    round to the nearest one instead of truncating, and the non-negative
    samples may be scaled by 32768 like the negative ones. *)
Definition float32ToInt16Reading (toInteger : Q -> Z) (positiveScale : Q)
    (float32 : list Q) : list Z :=
  map (fun x => let s := clamp x in
                wrap16 (toInteger (if Qle_bool 0 s then s * positiveScale
                                   else s * 32768)%Q))
      float32.

Definition byteOfZ (z : Z) : byte := toUint8 (Z.to_N (z mod 256)).

(** [new Uint8Array(pcm16.buffer)]: the two bytes of every sample, the low
    one first. *)
Fixpoint bytesOfInt16Array (pcm16 : list Z) : list byte :=
  match pcm16 with
  | [] => []
  | v :: r =>
      let u := (v mod 65536)%Z in
      byteOfZ u :: byteOfZ (u / 256) :: bytesOfInt16Array r
  end.

Fixpoint int16OfBytes (l : list byte) : list Z :=
  match l with
  | lo :: hi :: r =>
      wrap16 (Z.of_N (Byte.to_N lo) + 256 * Z.of_N (Byte.to_N hi)) :: int16OfBytes r
  | _ => []
  end.

(** [new Int16Array(bufferData)]: a [RangeError] unless the byte length is a
    multiple of 2. *)
Definition newInt16Array (bufferData : list byte) : Result (list Z) :=
  if Nat.even (length bufferData) then Ok (int16OfBytes bufferData)
  else Throw MalformedFrame.

(** Lines 319-320: samples to PCM bytes. *)
Definition encode (inputData : list Q) : list byte :=
  bytesOfInt16Array (float32ToInt16 inputData).

(** Lines 344-348: PCM bytes to samples, [int16Array[i] / 32768.0]. *)
Definition decode (bufferData : list byte) : Result (list Q) :=
  do int16Array <- newInt16Array bufferData;
  Ok (map (fun v => v # 32768) int16Array).

(** ** The two regular expressions of the turn assembler, as scanners *)

Fixpoint stripPrefix (p s : jsString) : option jsString :=
  match p, s with
  | [], _ => Some s
  | a :: p', b :: s' => if a =? b then stripPrefix p' s' else None
  | _ :: _, [] => None
  end.

(** [(.*?)\]]: the shortest run of characters other than line terminators
    that a closing bracket follows, and what comes after the bracket.  The
    lazy star stops at the first bracket; a line terminator before it leaves
    no way to match, since the dot does not cross it. *)
Fixpoint lazyUntilBracket (s : jsString) : option (jsString * jsString) :=
  match s with
  | [] => None
  | c :: r =>
      if c =? 93 then Some ([], r)
      else if isLineTerminator c then None
      else match lazyUntilBracket r with
           | Some (g, rest) => Some (c :: g, rest)
           | None => None
           end
  end.

(** [s.match(/^\[LANG:(.*?)\]/)]: the first group when the string matches. *)
Definition langMatch (s : jsString) : option jsString :=
  match stripPrefix (lit "[LANG:") s with
  | Some r =>
      match lazyUntilBracket r with
      | Some (g, _) => Some g
      | None => None
      end
  | None => None
  end.

(** [text.replace(/^\[LANG:.*?\]\s*/, '')]. *)
Definition stripLangTag (text : jsString) : jsString :=
  match stripPrefix (lit "[LANG:") text with
  | Some r =>
      match lazyUntilBracket r with
      | Some (_, rest) => trimStart rest
      | None => text
      end
  | None => text
  end.

(** ** The regular expressions as written

    A small backtracking matcher for the fragment the two patterns use:
    literal characters and a starred character class, lazy or greedy, whose
    text may be captured.  A pattern is matched at the start of the string
    (the patterns begin with [^]); the result is the captured text and what
    follows the match. *)

Module Regex.

Inductive Item : Type :=
  | Chr (c : N)
  | Star (greedy : bool) (class : N -> bool) (captured : bool).

Definition capture (captured : bool) (c : N) (res : jsString * jsString)
  : jsString * jsString :=
  if captured then (c :: fst res, snd res) else res.

Fixpoint exec (pattern : list Item) : jsString -> option (jsString * jsString) :=
  match pattern with
  | [] => fun s => Some ([], s)
  | Chr c :: rest =>
      fun s =>
        match s with
        | x :: r => if x =? c then exec rest r else None
        | [] => None
        end
  | Star greedy class captured :: rest =>
      fix star (s : jsString) : option (jsString * jsString) :=
        let more :=
          match s with
          | x :: r => if class x then option_map (capture captured x) (star r)
                      else None
          | [] => None
          end in
        if greedy then
          match more with
          | Some res => Some res
          | None => exec rest s
          end
        else
          match exec rest s with
          | Some res => Some res
          | None => more
          end
  end.

(** [.] without the [s] flag. *)
Definition dot (c : N) : bool := negb (isLineTerminator c).

(** [/^\[LANG:(.*?)\]/]. *)
Definition langPattern : list Item :=
  map Chr (lit "[LANG:") ++ [Star false dot true; Chr 93].

(** [/^\[LANG:.*?\]\s*/]. *)
Definition tagPattern : list Item :=
  map Chr (lit "[LANG:") ++ [Star false dot false; Chr 93; Star true isWhiteSpace false].

(** [s.match(pattern)]: the first group. *)
Definition matchGroup (pattern : list Item) (s : jsString) : option jsString :=
  option_map fst (exec pattern s).

(** [s.replace(pattern, '')]. *)
Definition removeMatch (pattern : list Item) (s : jsString) : jsString :=
  match exec pattern s with
  | Some (_, rest) => rest
  | None => s
  end.

End Regex.

(** [n.toString()] of a non-negative integer. *)
Definition toString (n : N) : jsString :=
  lit (NilZero.string_of_uint (N.to_uint n)).

Arguments langMatch : simpl never.
Arguments stripLangTag : simpl never.
Arguments toString : simpl never.

(** ** Messages ([types.ts]) *)

Inductive Role : Type := user | model | system.

Record Message : Type := mkMessage {
  msgId : jsString;
  msgRole : Role;
  msgText : jsString;
  msgTimestamp : N
}.

(** ** The platform objects the component holds *)

Inductive ContextState : Type := running | closed.

Inductive TrackKind : Type := audioTrack | videoTrack.

Record Track : Type := mkTrack {
  trackKind : TrackKind;
  trackStopped : bool
}.

(** A script processor: whether it is still connected, the streams mixed
    into it, and whether [onaudioprocess] has been installed. *)
Record Processor : Type := mkProcessor {
  procConnected : bool;
  procInputs : list nat;
  procHandler : bool
}.

(** A live session: the instruction it was opened with, the payloads sent
    to it and whether [close] has been called on it. *)
Record LiveSession : Type := mkLiveSession {
  systemInstructionOf : jsString;
  sentRealtimeInput : list jsString;
  sessionClosed : bool
}.

(** A buffer source given to [start]. *)
Record BufferSource : Type := mkBufferSource {
  startTime : Q;
  duration : Q;
  viaGain : bool;
  sourceStopped : bool
}.

(** Every object created so far, by kind; an object is named by its index. *)
Record World : Type := mkWorld {
  contexts : list ContextState;
  streams : list (list Track);
  processors : list Processor;
  sessions : list LiveSession;
  sources : list BufferSource
}.

Inductive LogEntry : Type :=
  | ConsoleLog (m : jsString)
  | ConsoleWarn (m : jsString)
  | ConsoleError (m : jsString)
  | Uncaught (e : Exception).   (* the runtime's report of an unhandled rejection *)


(** Field updates of [World]. *)

Definition set_contexts (v : list ContextState) (w : World) : World :=
  {| contexts := v; streams := streams w; processors := processors w;
     sessions := sessions w; sources := sources w |}.

Definition set_streams (v : list (list Track)) (w : World) : World :=
  {| contexts := contexts w; streams := v; processors := processors w;
     sessions := sessions w; sources := sources w |}.

Definition set_processors (v : list Processor) (w : World) : World :=
  {| contexts := contexts w; streams := streams w; processors := v; sessions
     := sessions w; sources := sources w |}.

Definition set_sessions (v : list LiveSession) (w : World) : World :=
  {| contexts := contexts w; streams := streams w; processors := processors
     w; sessions := v; sources := sources w |}.

Definition set_sources (v : list BufferSource) (w : World) : World :=
  {| contexts := contexts w; streams := streams w; processors := processors
     w; sessions := sessions w; sources := v |}.

(** ** The component: its state hooks, its refs, and what surrounds it

    The first group are the [useState] cells, the second the [useRef] cells
    of [LiveAgent].  [world] holds the platform objects the refs point to,
    [console] what was printed, and [savedTranscripts] the calls made to
    [saveTranscript].  The two cells that only concern rendering
    ([showOriginalOnly], [agentVolume]) are left out. *)
Record State : Type := mkState {
  isActive : bool;
  error : option jsString;
  transcripts : list Message;
  streamingInput : jsString;
  volume : Q;
  useSystemAudio : bool;
  diarizationEnabled : bool;
  translationEnabled : bool;
  audioContextRef : option nat;
  inputContextRef : option nat;
  mediaStreamsRef : list nat;
  processorRef : option nat;
  sessionRef : option nat;
  nextStartTimeRef : Q;
  sourcesRef : list nat;
  outputGainRef : option nat;
  turnLanguageDetectedRef : bool;
  currentInputTransRef : jsString;
  currentOutputTransRef : jsString;
  world : World;
  console : list LogEntry;
  savedTranscripts : list (jsString * Role * jsString)
}.

Definition set_isActive (v : bool) (s : State) : State :=
  {| isActive := v; error := error s; transcripts := transcripts s;
     streamingInput := streamingInput s; volume := volume s; useSystemAudio
     := useSystemAudio s; diarizationEnabled := diarizationEnabled s;
     translationEnabled := translationEnabled s; audioContextRef :=
     audioContextRef s; inputContextRef := inputContextRef s;
     mediaStreamsRef := mediaStreamsRef s; processorRef := processorRef s;
     sessionRef := sessionRef s; nextStartTimeRef := nextStartTimeRef s;
     sourcesRef := sourcesRef s; outputGainRef := outputGainRef s;
     turnLanguageDetectedRef := turnLanguageDetectedRef s;
     currentInputTransRef := currentInputTransRef s; currentOutputTransRef
     := currentOutputTransRef s; world := world s; console := console s;
     savedTranscripts := savedTranscripts s |}.

Definition set_error (v : option jsString) (s : State) : State :=
  {| isActive := isActive s; error := v; transcripts := transcripts s;
     streamingInput := streamingInput s; volume := volume s; useSystemAudio
     := useSystemAudio s; diarizationEnabled := diarizationEnabled s;
     translationEnabled := translationEnabled s; audioContextRef :=
     audioContextRef s; inputContextRef := inputContextRef s;
     mediaStreamsRef := mediaStreamsRef s; processorRef := processorRef s;
     sessionRef := sessionRef s; nextStartTimeRef := nextStartTimeRef s;
     sourcesRef := sourcesRef s; outputGainRef := outputGainRef s;
     turnLanguageDetectedRef := turnLanguageDetectedRef s;
     currentInputTransRef := currentInputTransRef s; currentOutputTransRef
     := currentOutputTransRef s; world := world s; console := console s;
     savedTranscripts := savedTranscripts s |}.

Definition set_transcripts (v : list Message) (s : State) : State :=
  {| isActive := isActive s; error := error s; transcripts := v;
     streamingInput := streamingInput s; volume := volume s; useSystemAudio
     := useSystemAudio s; diarizationEnabled := diarizationEnabled s;
     translationEnabled := translationEnabled s; audioContextRef :=
     audioContextRef s; inputContextRef := inputContextRef s;
     mediaStreamsRef := mediaStreamsRef s; processorRef := processorRef s;
     sessionRef := sessionRef s; nextStartTimeRef := nextStartTimeRef s;
     sourcesRef := sourcesRef s; outputGainRef := outputGainRef s;
     turnLanguageDetectedRef := turnLanguageDetectedRef s;
     currentInputTransRef := currentInputTransRef s; currentOutputTransRef
     := currentOutputTransRef s; world := world s; console := console s;
     savedTranscripts := savedTranscripts s |}.

Definition set_streamingInput (v : jsString) (s : State) : State :=
  {| isActive := isActive s; error := error s; transcripts := transcripts s;
     streamingInput := v; volume := volume s; useSystemAudio :=
     useSystemAudio s; diarizationEnabled := diarizationEnabled s;
     translationEnabled := translationEnabled s; audioContextRef :=
     audioContextRef s; inputContextRef := inputContextRef s;
     mediaStreamsRef := mediaStreamsRef s; processorRef := processorRef s;
     sessionRef := sessionRef s; nextStartTimeRef := nextStartTimeRef s;
     sourcesRef := sourcesRef s; outputGainRef := outputGainRef s;
     turnLanguageDetectedRef := turnLanguageDetectedRef s;
     currentInputTransRef := currentInputTransRef s; currentOutputTransRef
     := currentOutputTransRef s; world := world s; console := console s;
     savedTranscripts := savedTranscripts s |}.

Definition set_volume (v : Q) (s : State) : State :=
  {| isActive := isActive s; error := error s; transcripts := transcripts s;
     streamingInput := streamingInput s; volume := v; useSystemAudio :=
     useSystemAudio s; diarizationEnabled := diarizationEnabled s;
     translationEnabled := translationEnabled s; audioContextRef :=
     audioContextRef s; inputContextRef := inputContextRef s;
     mediaStreamsRef := mediaStreamsRef s; processorRef := processorRef s;
     sessionRef := sessionRef s; nextStartTimeRef := nextStartTimeRef s;
     sourcesRef := sourcesRef s; outputGainRef := outputGainRef s;
     turnLanguageDetectedRef := turnLanguageDetectedRef s;
     currentInputTransRef := currentInputTransRef s; currentOutputTransRef
     := currentOutputTransRef s; world := world s; console := console s;
     savedTranscripts := savedTranscripts s |}.

Definition set_useSystemAudio (v : bool) (s : State) : State :=
  {| isActive := isActive s; error := error s; transcripts := transcripts s;
     streamingInput := streamingInput s; volume := volume s; useSystemAudio
     := v; diarizationEnabled := diarizationEnabled s; translationEnabled :=
     translationEnabled s; audioContextRef := audioContextRef s;
     inputContextRef := inputContextRef s; mediaStreamsRef :=
     mediaStreamsRef s; processorRef := processorRef s; sessionRef :=
     sessionRef s; nextStartTimeRef := nextStartTimeRef s; sourcesRef :=
     sourcesRef s; outputGainRef := outputGainRef s; turnLanguageDetectedRef
     := turnLanguageDetectedRef s; currentInputTransRef :=
     currentInputTransRef s; currentOutputTransRef := currentOutputTransRef
     s; world := world s; console := console s; savedTranscripts :=
     savedTranscripts s |}.

Definition set_diarizationEnabled (v : bool) (s : State) : State :=
  {| isActive := isActive s; error := error s; transcripts := transcripts s;
     streamingInput := streamingInput s; volume := volume s; useSystemAudio
     := useSystemAudio s; diarizationEnabled := v; translationEnabled :=
     translationEnabled s; audioContextRef := audioContextRef s;
     inputContextRef := inputContextRef s; mediaStreamsRef :=
     mediaStreamsRef s; processorRef := processorRef s; sessionRef :=
     sessionRef s; nextStartTimeRef := nextStartTimeRef s; sourcesRef :=
     sourcesRef s; outputGainRef := outputGainRef s; turnLanguageDetectedRef
     := turnLanguageDetectedRef s; currentInputTransRef :=
     currentInputTransRef s; currentOutputTransRef := currentOutputTransRef
     s; world := world s; console := console s; savedTranscripts :=
     savedTranscripts s |}.

Definition set_translationEnabled (v : bool) (s : State) : State :=
  {| isActive := isActive s; error := error s; transcripts := transcripts s;
     streamingInput := streamingInput s; volume := volume s; useSystemAudio
     := useSystemAudio s; diarizationEnabled := diarizationEnabled s;
     translationEnabled := v; audioContextRef := audioContextRef s;
     inputContextRef := inputContextRef s; mediaStreamsRef :=
     mediaStreamsRef s; processorRef := processorRef s; sessionRef :=
     sessionRef s; nextStartTimeRef := nextStartTimeRef s; sourcesRef :=
     sourcesRef s; outputGainRef := outputGainRef s; turnLanguageDetectedRef
     := turnLanguageDetectedRef s; currentInputTransRef :=
     currentInputTransRef s; currentOutputTransRef := currentOutputTransRef
     s; world := world s; console := console s; savedTranscripts :=
     savedTranscripts s |}.

Definition set_audioContextRef (v : option nat) (s : State) : State :=
  {| isActive := isActive s; error := error s; transcripts := transcripts s;
     streamingInput := streamingInput s; volume := volume s; useSystemAudio
     := useSystemAudio s; diarizationEnabled := diarizationEnabled s;
     translationEnabled := translationEnabled s; audioContextRef := v;
     inputContextRef := inputContextRef s; mediaStreamsRef :=
     mediaStreamsRef s; processorRef := processorRef s; sessionRef :=
     sessionRef s; nextStartTimeRef := nextStartTimeRef s; sourcesRef :=
     sourcesRef s; outputGainRef := outputGainRef s; turnLanguageDetectedRef
     := turnLanguageDetectedRef s; currentInputTransRef :=
     currentInputTransRef s; currentOutputTransRef := currentOutputTransRef
     s; world := world s; console := console s; savedTranscripts :=
     savedTranscripts s |}.

Definition set_inputContextRef (v : option nat) (s : State) : State :=
  {| isActive := isActive s; error := error s; transcripts := transcripts s;
     streamingInput := streamingInput s; volume := volume s; useSystemAudio
     := useSystemAudio s; diarizationEnabled := diarizationEnabled s;
     translationEnabled := translationEnabled s; audioContextRef :=
     audioContextRef s; inputContextRef := v; mediaStreamsRef :=
     mediaStreamsRef s; processorRef := processorRef s; sessionRef :=
     sessionRef s; nextStartTimeRef := nextStartTimeRef s; sourcesRef :=
     sourcesRef s; outputGainRef := outputGainRef s; turnLanguageDetectedRef
     := turnLanguageDetectedRef s; currentInputTransRef :=
     currentInputTransRef s; currentOutputTransRef := currentOutputTransRef
     s; world := world s; console := console s; savedTranscripts :=
     savedTranscripts s |}.

Definition set_mediaStreamsRef (v : list nat) (s : State) : State :=
  {| isActive := isActive s; error := error s; transcripts := transcripts s;
     streamingInput := streamingInput s; volume := volume s; useSystemAudio
     := useSystemAudio s; diarizationEnabled := diarizationEnabled s;
     translationEnabled := translationEnabled s; audioContextRef :=
     audioContextRef s; inputContextRef := inputContextRef s;
     mediaStreamsRef := v; processorRef := processorRef s; sessionRef :=
     sessionRef s; nextStartTimeRef := nextStartTimeRef s; sourcesRef :=
     sourcesRef s; outputGainRef := outputGainRef s; turnLanguageDetectedRef
     := turnLanguageDetectedRef s; currentInputTransRef :=
     currentInputTransRef s; currentOutputTransRef := currentOutputTransRef
     s; world := world s; console := console s; savedTranscripts :=
     savedTranscripts s |}.

Definition set_processorRef (v : option nat) (s : State) : State :=
  {| isActive := isActive s; error := error s; transcripts := transcripts s;
     streamingInput := streamingInput s; volume := volume s; useSystemAudio
     := useSystemAudio s; diarizationEnabled := diarizationEnabled s;
     translationEnabled := translationEnabled s; audioContextRef :=
     audioContextRef s; inputContextRef := inputContextRef s;
     mediaStreamsRef := mediaStreamsRef s; processorRef := v; sessionRef :=
     sessionRef s; nextStartTimeRef := nextStartTimeRef s; sourcesRef :=
     sourcesRef s; outputGainRef := outputGainRef s; turnLanguageDetectedRef
     := turnLanguageDetectedRef s; currentInputTransRef :=
     currentInputTransRef s; currentOutputTransRef := currentOutputTransRef
     s; world := world s; console := console s; savedTranscripts :=
     savedTranscripts s |}.

Definition set_sessionRef (v : option nat) (s : State) : State :=
  {| isActive := isActive s; error := error s; transcripts := transcripts s;
     streamingInput := streamingInput s; volume := volume s; useSystemAudio
     := useSystemAudio s; diarizationEnabled := diarizationEnabled s;
     translationEnabled := translationEnabled s; audioContextRef :=
     audioContextRef s; inputContextRef := inputContextRef s;
     mediaStreamsRef := mediaStreamsRef s; processorRef := processorRef s;
     sessionRef := v; nextStartTimeRef := nextStartTimeRef s; sourcesRef :=
     sourcesRef s; outputGainRef := outputGainRef s; turnLanguageDetectedRef
     := turnLanguageDetectedRef s; currentInputTransRef :=
     currentInputTransRef s; currentOutputTransRef := currentOutputTransRef
     s; world := world s; console := console s; savedTranscripts :=
     savedTranscripts s |}.

Definition set_nextStartTimeRef (v : Q) (s : State) : State :=
  {| isActive := isActive s; error := error s; transcripts := transcripts s;
     streamingInput := streamingInput s; volume := volume s; useSystemAudio
     := useSystemAudio s; diarizationEnabled := diarizationEnabled s;
     translationEnabled := translationEnabled s; audioContextRef :=
     audioContextRef s; inputContextRef := inputContextRef s;
     mediaStreamsRef := mediaStreamsRef s; processorRef := processorRef s;
     sessionRef := sessionRef s; nextStartTimeRef := v; sourcesRef :=
     sourcesRef s; outputGainRef := outputGainRef s; turnLanguageDetectedRef
     := turnLanguageDetectedRef s; currentInputTransRef :=
     currentInputTransRef s; currentOutputTransRef := currentOutputTransRef
     s; world := world s; console := console s; savedTranscripts :=
     savedTranscripts s |}.

Definition set_sourcesRef (v : list nat) (s : State) : State :=
  {| isActive := isActive s; error := error s; transcripts := transcripts s;
     streamingInput := streamingInput s; volume := volume s; useSystemAudio
     := useSystemAudio s; diarizationEnabled := diarizationEnabled s;
     translationEnabled := translationEnabled s; audioContextRef :=
     audioContextRef s; inputContextRef := inputContextRef s;
     mediaStreamsRef := mediaStreamsRef s; processorRef := processorRef s;
     sessionRef := sessionRef s; nextStartTimeRef := nextStartTimeRef s;
     sourcesRef := v; outputGainRef := outputGainRef s;
     turnLanguageDetectedRef := turnLanguageDetectedRef s;
     currentInputTransRef := currentInputTransRef s; currentOutputTransRef
     := currentOutputTransRef s; world := world s; console := console s;
     savedTranscripts := savedTranscripts s |}.

Definition set_outputGainRef (v : option nat) (s : State) : State :=
  {| isActive := isActive s; error := error s; transcripts := transcripts s;
     streamingInput := streamingInput s; volume := volume s; useSystemAudio
     := useSystemAudio s; diarizationEnabled := diarizationEnabled s;
     translationEnabled := translationEnabled s; audioContextRef :=
     audioContextRef s; inputContextRef := inputContextRef s;
     mediaStreamsRef := mediaStreamsRef s; processorRef := processorRef s;
     sessionRef := sessionRef s; nextStartTimeRef := nextStartTimeRef s;
     sourcesRef := sourcesRef s; outputGainRef := v; turnLanguageDetectedRef
     := turnLanguageDetectedRef s; currentInputTransRef :=
     currentInputTransRef s; currentOutputTransRef := currentOutputTransRef
     s; world := world s; console := console s; savedTranscripts :=
     savedTranscripts s |}.

Definition set_turnLanguageDetectedRef (v : bool) (s : State) : State :=
  {| isActive := isActive s; error := error s; transcripts := transcripts s;
     streamingInput := streamingInput s; volume := volume s; useSystemAudio
     := useSystemAudio s; diarizationEnabled := diarizationEnabled s;
     translationEnabled := translationEnabled s; audioContextRef :=
     audioContextRef s; inputContextRef := inputContextRef s;
     mediaStreamsRef := mediaStreamsRef s; processorRef := processorRef s;
     sessionRef := sessionRef s; nextStartTimeRef := nextStartTimeRef s;
     sourcesRef := sourcesRef s; outputGainRef := outputGainRef s;
     turnLanguageDetectedRef := v; currentInputTransRef :=
     currentInputTransRef s; currentOutputTransRef := currentOutputTransRef
     s; world := world s; console := console s; savedTranscripts :=
     savedTranscripts s |}.

Definition set_currentInputTransRef (v : jsString) (s : State) : State :=
  {| isActive := isActive s; error := error s; transcripts := transcripts s;
     streamingInput := streamingInput s; volume := volume s; useSystemAudio
     := useSystemAudio s; diarizationEnabled := diarizationEnabled s;
     translationEnabled := translationEnabled s; audioContextRef :=
     audioContextRef s; inputContextRef := inputContextRef s;
     mediaStreamsRef := mediaStreamsRef s; processorRef := processorRef s;
     sessionRef := sessionRef s; nextStartTimeRef := nextStartTimeRef s;
     sourcesRef := sourcesRef s; outputGainRef := outputGainRef s;
     turnLanguageDetectedRef := turnLanguageDetectedRef s;
     currentInputTransRef := v; currentOutputTransRef :=
     currentOutputTransRef s; world := world s; console := console s;
     savedTranscripts := savedTranscripts s |}.

Definition set_currentOutputTransRef (v : jsString) (s : State) : State :=
  {| isActive := isActive s; error := error s; transcripts := transcripts s;
     streamingInput := streamingInput s; volume := volume s; useSystemAudio
     := useSystemAudio s; diarizationEnabled := diarizationEnabled s;
     translationEnabled := translationEnabled s; audioContextRef :=
     audioContextRef s; inputContextRef := inputContextRef s;
     mediaStreamsRef := mediaStreamsRef s; processorRef := processorRef s;
     sessionRef := sessionRef s; nextStartTimeRef := nextStartTimeRef s;
     sourcesRef := sourcesRef s; outputGainRef := outputGainRef s;
     turnLanguageDetectedRef := turnLanguageDetectedRef s;
     currentInputTransRef := currentInputTransRef s; currentOutputTransRef
     := v; world := world s; console := console s; savedTranscripts :=
     savedTranscripts s |}.

Definition set_world (v : World) (s : State) : State :=
  {| isActive := isActive s; error := error s; transcripts := transcripts s;
     streamingInput := streamingInput s; volume := volume s; useSystemAudio
     := useSystemAudio s; diarizationEnabled := diarizationEnabled s;
     translationEnabled := translationEnabled s; audioContextRef :=
     audioContextRef s; inputContextRef := inputContextRef s;
     mediaStreamsRef := mediaStreamsRef s; processorRef := processorRef s;
     sessionRef := sessionRef s; nextStartTimeRef := nextStartTimeRef s;
     sourcesRef := sourcesRef s; outputGainRef := outputGainRef s;
     turnLanguageDetectedRef := turnLanguageDetectedRef s;
     currentInputTransRef := currentInputTransRef s; currentOutputTransRef
     := currentOutputTransRef s; world := v; console := console s;
     savedTranscripts := savedTranscripts s |}.

Definition set_console (v : list LogEntry) (s : State) : State :=
  {| isActive := isActive s; error := error s; transcripts := transcripts s;
     streamingInput := streamingInput s; volume := volume s; useSystemAudio
     := useSystemAudio s; diarizationEnabled := diarizationEnabled s;
     translationEnabled := translationEnabled s; audioContextRef :=
     audioContextRef s; inputContextRef := inputContextRef s;
     mediaStreamsRef := mediaStreamsRef s; processorRef := processorRef s;
     sessionRef := sessionRef s; nextStartTimeRef := nextStartTimeRef s;
     sourcesRef := sourcesRef s; outputGainRef := outputGainRef s;
     turnLanguageDetectedRef := turnLanguageDetectedRef s;
     currentInputTransRef := currentInputTransRef s; currentOutputTransRef
     := currentOutputTransRef s; world := world s; console := v;
     savedTranscripts := savedTranscripts s |}.

Definition set_savedTranscripts (v : list (jsString * Role * jsString)) (s : State) : State :=
  {| isActive := isActive s; error := error s; transcripts := transcripts s;
     streamingInput := streamingInput s; volume := volume s; useSystemAudio
     := useSystemAudio s; diarizationEnabled := diarizationEnabled s;
     translationEnabled := translationEnabled s; audioContextRef :=
     audioContextRef s; inputContextRef := inputContextRef s;
     mediaStreamsRef := mediaStreamsRef s; processorRef := processorRef s;
     sessionRef := sessionRef s; nextStartTimeRef := nextStartTimeRef s;
     sourcesRef := sourcesRef s; outputGainRef := outputGainRef s;
     turnLanguageDetectedRef := turnLanguageDetectedRef s;
     currentInputTransRef := currentInputTransRef s; currentOutputTransRef
     := currentOutputTransRef s; world := world s; console := console s;
     savedTranscripts := v |}.

Definition with_world (f : World -> World) (s : State) : State :=
  set_world (f (world s)) s.

Definition log (e : LogEntry) (s : State) : State :=
  set_console (console s ++ [e]) s.

(** [setTranscripts(prev => [...prev, m])]. *)
Definition appendTranscript (m : Message) (s : State) : State :=
  set_transcripts (transcripts s ++ [m]) s.


(** ** Mount (lines 88-124) *)

Definition initialState (clock : N) : State :=
  {| isActive := false; error := None;
     transcripts :=
       [mkMessage (lit "init") system
          (lit "EBURON Live Core initialized. Configure audio and connect.")
          clock];
     streamingInput := []; volume := 0;
     useSystemAudio := false; diarizationEnabled := true;
     translationEnabled := false;
     audioContextRef := None; inputContextRef := None;
     mediaStreamsRef := []; processorRef := None; sessionRef := None;
     nextStartTimeRef := 0; sourcesRef := []; outputGainRef := None;
     turnLanguageDetectedRef := false;
     currentInputTransRef := []; currentOutputTransRef := [];
     world := mkWorld [] [] [] [] []; console := []; savedTranscripts := [] |}.

(** ** [cleanupAudio] (lines 132-175) *)

(** [track.stop()] on every track of a stream. *)
Definition stopTracks (tracks : list Track) : list Track :=
  map (fun t => mkTrack (trackKind t) true) tracks.

Definition stopStream (i : nat) (w : World) : World :=
  set_streams (alter stopTracks i (streams w)) w.

(** [processor.disconnect()]. *)
Definition disconnectProcessor (i : nat) (w : World) : World :=
  set_processors
    (alter (fun p => mkProcessor false (procInputs p) (procHandler p)) i
       (processors w)) w.

(** [if (ref.current?.state !== 'closed') ref.current?.close()]. *)
Definition closeUnlessClosed (ref : option nat) (w : World) : World :=
  match ref with
  | Some i =>
      match contexts w !! i with
      | Some closed => w
      | _ => set_contexts (alter (fun _ => closed) i (contexts w)) w
      end
  | None => w
  end.

(** [session.close()], which the code chains on the session promise; the
    call is taken at the moment it is requested. *)
Definition closeSession (i : nat) (w : World) : World :=
  set_sessions
    (alter (fun l => mkLiveSession (systemInstructionOf l) (sentRealtimeInput l) true)
       i (sessions w)) w.

(** [source.stop()]. *)
Definition stopSource (i : nat) (w : World) : World :=
  set_sources
    (alter (fun b => mkBufferSource (startTime b) (duration b) (viaGain b) true)
       i (sources w)) w.

Definition cleanupAudio (s : State) : State :=
  (* Stop all media streams *)
  let s := with_world (fun w => fold_left (fun w i => stopStream i w)
                                  (mediaStreamsRef s) w) s in
  let s := set_mediaStreamsRef [] s in
  (* Disconnect processor *)
  let s := match processorRef s with
           | Some p => set_processorRef None (with_world (disconnectProcessor p) s)
           | None => s
           end in
  (* Close Audio Contexts *)
  let s := with_world (closeUnlessClosed (inputContextRef s)) s in
  let s := with_world (closeUnlessClosed (audioContextRef s)) s in
  let s := set_inputContextRef None s in
  let s := set_audioContextRef None s in
  let s := set_outputGainRef None s in
  (* Close Session *)
  let s := match sessionRef s with
           | Some h => set_sessionRef None (with_world (closeSession h) s)
           | None => s
           end in
  (* Stop playing audio *)
  let s := with_world (fun w => fold_left (fun w i => stopSource i w)
                                  (sourcesRef s) w) s in
  let s := set_sourcesRef [] s in
  let s := set_isActive false s in
  let s := set_nextStartTimeRef 0 s in
  let s := set_volume 0 s in
  let s := set_streamingInput [] s in
  set_turnLanguageDetectedRef false s.

(** ** [connect] (lines 184-446) *)

Definition baseInstruction : jsString :=
  nl ++ lit "      You are EBURON." ++
  nl ++ lit "      " ++
  nl ++ lit "      CRITICAL LANGUAGE DETECTION PROTOCOL:" ++
  nl ++ lit "      1. Continuously analyze the language of the user's input audio." ++
  nl ++ lit "      2. If you detect a language, YOU MUST start your textual response with [LANG:LanguageName] (e.g. [LANG:English], [LANG:Spanish], [LANG:Tagalog])." ++
  nl ++ lit "      3. CRITICAL: DO NOT SPEAK this tag. It is for metadata only. The audio output must only contain your natural response." ++
  nl ++ lit "      ".

(** Lines 260-281. *)
Definition systemInstruction (translationEnabled diarizationEnabled : bool) : jsString :=
  if translationEnabled then
    baseInstruction ++
    nl ++ lit "          MODE: REAL-TIME TRANSLATOR." ++
    nl ++ lit "          1. Translate the input audio into English (or the most logical target language)." ++
    nl ++ lit "          2. Output ONLY the translation text after the [LANG:...] tag." ++
    nl ++ lit "          3. Do not converse." ++
    nl ++ lit "          "
  else if diarizationEnabled then
    baseInstruction ++
    nl ++ lit "          MODE: ADVANCED SPEAKER DIARIZATION." ++
    nl ++ lit "          1. Actively identify distinct voices ([Speaker 1], [Speaker 2])." ++
    nl ++ lit "          2. Prepend speaker labels to your text response (after the [LANG:...] tag)." ++
    nl ++ lit "          3. Example: " ++ dquote ++ lit "[LANG:English] [Speaker 1]: Hello." ++ dquote ++
    nl ++ lit "          "
  else
    baseInstruction ++
    nl ++ lit "          MODE: ASSISTANT." ++
    nl ++ lit "          1. Be helpful, concise, and speak naturally." ++
    nl ++ lit "          ".

(** Line 305: the text of the message shown when the link opens. *)
Definition sysStartText (translationEnabled diarizationEnabled : bool) : jsString :=
  if translationEnabled then lit "Translator Mode Active."
  else if diarizationEnabled then lit "Secure Link Established. Speaker ID Active."
  else lit "Secure Link Established.".

(** What the user and the platform answer to the two capture requests. *)
Inductive MicOutcome : Type :=
  | MicGranted
  | MicDenied (message : jsString).

Inductive DisplayOutcome : Type :=
  | DisplayGranted (withAudio : bool)
  | DisplayDeclined.

Record Env : Type := mkEnv {
  getUserMedia : MicOutcome;
  getDisplayMedia : DisplayOutcome
}.

(** What the callbacks given to [ai.live.connect] capture: the two mode
    flags as they were when [connect] ran, and the constants [outCtx],
    [processor] and [sessionPromise]. *)
Record Closure : Type := mkClosure {
  translationEnabledAt : bool;
  diarizationEnabledAt : bool;
  outCtx : nat;
  processor : nat;
  sessionPromise : nat
}.

(** Step 4 of [connect]: the optional system audio.  Returns the state and
    the streams connected to the mixer. *)
Definition acquireSystemAudio (env : Env) (mixer : list nat) (s : State)
  : State * list nat :=
  if useSystemAudio s then
    match getDisplayMedia env with
    | DisplayGranted withAudio =>
        let sysStream := length (streams (world s)) in
        let tracks := mkTrack videoTrack false
                      :: (if withAudio then [mkTrack audioTrack false] else []) in
        let s := with_world (fun w => set_streams (streams w ++ [tracks]) w) s in
        let s := set_mediaStreamsRef (mediaStreamsRef s ++ [sysStream]) s in
        if withAudio then (s, mixer ++ [sysStream])
        else (log (ConsoleWarn (lit "User did not share system audio.")) s, mixer)
    | DisplayDeclined =>
        (log (ConsoleWarn (lit "System audio selection cancelled or failed")) s, mixer)
    end
  else (s, mixer).

(** [connect], with the two awaited requests answered by [env] at once: no
    other handler runs during the two waits.  The [catch] block is reached
    when the microphone is refused.  The parts of the function between its
    waits follow below ([connectBegin], [onMicrophoneAnswer],
    [onDisplayAnswer]); run one after the other they are this function. *)
Definition connect (env : Env) (s : State) : State * option Closure :=
  let translationEnabled := translationEnabled s in
  let diarizationEnabled := diarizationEnabled s in
  let s := set_error None s in
  (* 1. Initialize Audio Contexts *)
  let inCtx := length (contexts (world s)) in
  let outCtx := S inCtx in
  let s := with_world (fun w => set_contexts (contexts w ++ [running; running]) w) s in
  let s := set_inputContextRef (Some inCtx) s in
  let s := set_audioContextRef (Some outCtx) s in
  let s := set_outputGainRef (Some outCtx) s in
  (* 3. Acquire Microphone (Mandatory) *)
  match getUserMedia env with
  | MicDenied message =>
      let s := log (ConsoleError message) s in
      let s := set_error
                 (Some (if truthy message then message
                        else lit "Failed to initialize audio subsystem.")) s in
      (cleanupAudio s, None)
  | MicGranted =>
      let micStream := length (streams (world s)) in
      let s := with_world
                 (fun w => set_streams (streams w ++ [[mkTrack audioTrack false]]) w) s in
      let s := set_mediaStreamsRef (mediaStreamsRef s ++ [micStream]) s in
      (* 4. Acquire System Audio (Optional) *)
      let '(s, mixer) := acquireSystemAudio env [micStream] s in
      (* 5. Connect Mixer to Processor *)
      let processor := length (processors (world s)) in
      let s := with_world
                 (fun w => set_processors
                             (processors w ++ [mkProcessor true mixer false]) w) s in
      let s := set_processorRef (Some processor) s in
      (* 6. Start Gemini Session *)
      let sessionPromise := length (sessions (world s)) in
      let s := with_world
                 (fun w => set_sessions
                             (sessions w ++
                              [mkLiveSession
                                 (systemInstruction translationEnabled diarizationEnabled)
                                 [] false]) w) s in
      let s := set_sessionRef (Some sessionPromise) s in
      (s, Some (mkClosure translationEnabled diarizationEnabled outCtx
                  processor sessionPromise))
  end.

(** The main button, line 584: [onClick={isActive ? cleanupAudio : connect}]. *)
Definition onClick (env : Env) (s : State) : State :=
  if isActive s then cleanupAudio s else fst (connect env s).

(** ** [connect] across its awaits

    [connect] is an [async] function.  A call runs to the request for the
    microphone (line 206) and returns; the rest runs when the request is
    answered, up to the request for the screen (line 218) when the system
    audio was asked for, and to the end otherwise.  Other handlers can run
    during the two waits.  What the function keeps across them are its
    constants: the two contexts it has created and the values of the render
    it closed over. *)
Record Pending : Type := mkPending {
  inCtxOf : nat;
  outCtxOf : nat;
  translationEnabledOf : bool;
  diarizationEnabledOf : bool;
  useSystemAudioOf : bool
}.

(** Lines 185-205: up to the request for the microphone. *)
Definition connectBegin (s : State) : State * Pending :=
  let p := mkPending (length (contexts (world s))) (S (length (contexts (world s))))
             (translationEnabled s) (diarizationEnabled s) (useSystemAudio s) in
  let s := set_error None s in
  (* 1. Initialize Audio Contexts *)
  let s := with_world (fun w => set_contexts (contexts w ++ [running; running]) w) s in
  let s := set_inputContextRef (Some (inCtxOf p)) s in
  let s := set_audioContextRef (Some (outCtxOf p)) s in
  let s := set_outputGainRef (Some (outCtxOf p)) s in
  (s, p).

(** Lines 441-445: the [catch] block; [message] is [e.message]. *)
Definition connectCatch (message : jsString) (s : State) : State :=
  let s := log (ConsoleError message) s in
  let s := set_error
             (Some (if truthy message then message
                    else lit "Failed to initialize audio subsystem.")) s in
  cleanupAudio s.

(** Lines 243-439, steps 5 and 6: the processor and the session.  Nothing
    is awaited here. *)
Definition connectFinish (p : Pending) (mixer : list nat) (s : State)
  : State * Closure :=
  (* 5. Connect Mixer to Processor *)
  let processor := length (processors (world s)) in
  let s := with_world
             (fun w => set_processors
                         (processors w ++ [mkProcessor true mixer false]) w) s in
  let s := set_processorRef (Some processor) s in
  (* 6. Start Gemini Session *)
  let sessionPromise := length (sessions (world s)) in
  let s := with_world
             (fun w => set_sessions
                         (sessions w ++
                          [mkLiveSession
                             (systemInstruction (translationEnabledOf p)
                                (diarizationEnabledOf p))
                             [] false]) w) s in
  let s := set_sessionRef (Some sessionPromise) s in
  (s, mkClosure (translationEnabledOf p) (diarizationEnabledOf p) (outCtxOf p)
        processor sessionPromise).

(** How far an answer to a request takes [connect]: into the [catch] block,
    to the request for the screen with the streams connected to the mixer
    so far, or to the end with the callbacks it has registered. *)
Inductive Resumed : Type :=
  | Failed
  | WaitsForDisplay (mixer : list nat)
  | Connected (cl : Closure).

(** Lines 206-217, when the request for the microphone is answered. *)
Definition onMicrophoneAnswer (p : Pending) (answer : MicOutcome) (s : State)
  : State * Resumed :=
  match answer with
  | MicDenied message => (connectCatch message s, Failed)
  | MicGranted =>
      let micStream := length (streams (world s)) in
      let s := with_world
                 (fun w => set_streams (streams w ++ [[mkTrack audioTrack false]]) w) s in
      let s := set_mediaStreamsRef (mediaStreamsRef s ++ [micStream]) s in
      (* 4. Acquire System Audio (Optional) *)
      if useSystemAudioOf p then (s, WaitsForDisplay [micStream])
      else let '(s, cl) := connectFinish p [micStream] s in (s, Connected cl)
  end.

(** Lines 218-241 and on, when the request for the screen is answered. *)
Definition onDisplayAnswer (p : Pending) (mixer : list nat)
    (answer : DisplayOutcome) (s : State) : State * Closure :=
  let '(s, mixer) :=
    match answer with
    | DisplayGranted withAudio =>
        let sysStream := length (streams (world s)) in
        let tracks := mkTrack videoTrack false
                      :: (if withAudio then [mkTrack audioTrack false] else []) in
        let s := with_world (fun w => set_streams (streams w ++ [tracks]) w) s in
        let s := set_mediaStreamsRef (mediaStreamsRef s ++ [sysStream]) s in
        if withAudio then (s, mixer ++ [sysStream])
        else (log (ConsoleWarn (lit "User did not share system audio.")) s, mixer)
    | DisplayDeclined =>
        (log (ConsoleWarn (lit "System audio selection cancelled or failed")) s, mixer)
    end in
  connectFinish p mixer s.

(** The three parts run one after the other, with nothing in between. *)
Definition connectAtOnce (env : Env) (s : State) : State * option Closure :=
  let '(s, p) := connectBegin s in
  match onMicrophoneAnswer p (getUserMedia env) s with
  | (s, Failed) => (s, None)
  | (s, Connected cl) => (s, Some cl)
  | (s, WaitsForDisplay mixer) =>
      let '(s, cl) := onDisplayAnswer p mixer (getDisplayMedia env) s in
      (s, Some cl)
  end.



(** ** The callbacks of the session (lines 298-437) *)

(** The part of a [LiveServerMessage] the handler reads:
    [serverContent.modelTurn.parts[0].inlineData.data], the texts of
    [outputTranscription] and [inputTranscription], and [turnComplete]. *)
Record LiveServerMessage : Type := mkLiveServerMessage {
  audioData : option jsString;
  outputTranscription : option jsString;
  inputTranscription : option jsString;
  turnComplete : bool
}.

(** [processor.onaudioprocess = ...]. *)
Definition installHandler (i : nat) (w : World) : World :=
  set_processors
    (alter (fun p => mkProcessor (procConnected p) (procInputs p) true) i
       (processors w)) w.

(** [session.sendRealtimeInput({ media: { mimeType, data } })]. *)
Definition sendRealtimeInput (i : nat) (data : jsString) (w : World) : World :=
  set_sessions
    (alter (fun l => mkLiveSession (systemInstructionOf l)
                       (sentRealtimeInput l ++ [data]) (sessionClosed l))
       i (sessions w)) w.

(** [onopen]; [clock] is the reading of [new Date()]. *)
Definition onopen (cl : Closure) (clock : N) (s : State) : State :=
  let s := log (ConsoleLog (lit "EBURON Link Established")) s in
  let s := set_isActive true s in
  let s := appendTranscript
             (mkMessage (lit "sys-start") system
                (sysStartText (translationEnabledAt cl) (diarizationEnabledAt cl))
                clock) s in
  with_world (installHandler (processor cl)) s.

(** [processor.onaudioprocess], lines 309-337.  [rms] is the value of
    [Math.sqrt(sum / inputData.length)], which the platform computes. *)
Definition onaudioprocess (cl : Closure) (inputData : list Q) (rms : Q)
    (s : State) : Result State :=
  (* Volume Meter *)
  let s := set_volume rms s in
  (* PCM Conversion *)
  let pcm16 := float32ToInt16 inputData in
  let uint8 := bytesOfInt16Array pcm16 in
  do base64 <- frameToWire uint8;
  Ok (with_world (sendRealtimeInput (sessionPromise cl) base64) s).

(** ** Double-precision arithmetic

    The clock of an audio context, the duration of a buffer and the playback
    cursor are numbers of the language: binary64 values.  A finite double is
    a rational, so the cells that hold them stay rationals; what the code
    computes with [/] and [+] is the exact result rounded to the nearest
    double, ties to even.  The exponent is not bounded above here: [round]
    gives the double the hardware gives as long as the result is below
    [2^1024]. *)

Module Double.

(** The integer nearest to [q], the even one of the two when [q] is half
    way. *)
Definition roundHalfEven (q : Q) : Z :=
  let fl := Qfloor q in
  match (q - inject_Z fl ?= 1 # 2)%Q with
  | Lt => fl
  | Gt => (fl + 1)%Z
  | Eq => if Z.even fl then fl else (fl + 1)%Z
  end.

(** [floor (log2 |q|)] for [q] other than 0. *)
Definition ilog2 (q : Q) : Z :=
  let k := (Z.log2 (Z.abs (Qnum q)) - Z.log2 (Zpos (Qden q)))%Z in
  if Qle_bool (2 ^ k) (Qabs q) then k else (k - 1)%Z.

(** The exponent of the unit in the last place of the doubles near [q]:
    53 significant bits, and [2^-1074] for the subnormal ones. *)
Definition exponent (q : Q) : Z := Z.max (ilog2 q - 52) (-1074).

(** The double nearest to [q]. *)
Definition round (q : Q) : Q :=
  let e := exponent q in
  (inject_Z (roundHalfEven (q * 2 ^ (- e))) * 2 ^ e)%Q.

(** [x / y] and [x + y] of the language. *)
Definition div (x y : Q) : Q := round (x / y).
Definition add (x y : Q) : Q := round (x + y).

(** [x] is a double: rounding leaves it as it is. *)
Definition isDouble (x : Q) : Prop := (round x == x)%Q.

(** [m * 2^e] with [|m| <= 2^53] and [e >= -1074]. *)
Definition representable (x : Q) : Prop :=
  exists m e : Z,
    (x == inject_Z m * 2 ^ e)%Q /\ (Z.abs m <= 2 ^ 53)%Z /\ (-1074 <= e)%Z.

(** [m] is a nearest integer of [q], and the even one on a tie. *)
Definition nearest (q : Q) (m : Z) : Prop :=
  (Qabs (inject_Z m - q) < 1 # 2)%Q
  \/ ((Qabs (inject_Z m - q) == 1 # 2)%Q /\ Z.even m = true).

End Double.

#[global] Arguments Double.round : simpl never.
#[global] Arguments Double.div : simpl never.
#[global] Arguments Double.add : simpl never.

(** Lines 341-370: one audio delta.  [now] is [outCtx.currentTime].  Nothing
    is assigned before the last statement that can throw.  The duration of
    the buffer is [length / sampleRate] as a double, and line 366 adds two
    doubles. *)
Definition playAudio (cl : Closure) (now : Q) (audioData : jsString)
    (s : State) : Result State :=
  do bufferData <- base64ToArrayBuffer audioData;
  do float32Data <- decode bufferData;
  (* outCtx.createBuffer(1, float32Data.length, 24000) *)
  if (length float32Data =? 0)%nat then Throw NotSupportedError
  else
    let audioBufferDuration :=
      Double.div (inject_Z (Z.of_nat (length float32Data))) 24000 in
    let viaGain := match outputGainRef s with Some _ => true | None => false end in
    let startTime := Qmax now (nextStartTimeRef s) in
    let source := length (sources (world s)) in
    let s := with_world
               (fun w => set_sources
                           (sources w ++
                            [mkBufferSource startTime audioBufferDuration viaGain false])
                           w) s in
    let s := set_nextStartTimeRef (Double.add startTime audioBufferDuration) s in
    Ok (set_sourcesRef (sourcesRef s ++ [source]) s).

(** [source.onended]: the handler removes the source from the set. *)
Definition onended (source : nat) (s : State) : State :=
  set_sourcesRef (List.filter (fun i => negb (Nat.eqb i source)) (sourcesRef s)) s.

(** Lines 373-389: an output transcription. *)
Definition onOutputTranscription (clock : N) (text : jsString) (s : State) : State :=
  let s := set_currentOutputTransRef (currentOutputTransRef s ++ text) s in
  (* Parse Language Tag *)
  match langMatch (currentOutputTransRef s) with
  | Some detectedLang =>
      if negb (turnLanguageDetectedRef s) then
        let s := appendTranscript
                   (mkMessage (toString clock ++ lit "sys-lang") system
                      (lit "Language Detected: " ++ detectedLang) clock) s in
        set_turnLanguageDetectedRef true s
      else s
  | None => s
  end.

(** Lines 391-395: an input transcription. *)
Definition onInputTranscription (text : jsString) (s : State) : State :=
  let s := set_currentInputTransRef (currentInputTransRef s ++ text) s in
  set_streamingInput (currentInputTransRef s) s.

(** [saveTranscript(text, role, 'live')]. *)
Definition saveTranscript (text : jsString) (r : Role) (kind : jsString)
    (s : State) : State :=
  set_savedTranscripts (savedTranscripts s ++ [(text, r, kind)]) s.

(** Lines 397-426: the end of a turn. *)
Definition onTurnComplete (clock : N) (s : State) : State :=
  let s :=
    if truthy (trim (currentInputTransRef s)) then
      let text := currentInputTransRef s in
      let s := appendTranscript
                 (mkMessage (toString clock ++ lit "u") user text clock) s in
      let s := saveTranscript text user (lit "live") s in
      let s := set_currentInputTransRef [] s in
      set_streamingInput [] s
    else s in
  if truthy (trim (currentOutputTransRef s)) then
    let text := currentOutputTransRef s in
    (* Strip language tag from final output *)
    let text := stripLangTag text in
    let s := appendTranscript
               (mkMessage (toString clock ++ lit "m") model text clock) s in
    let s := saveTranscript text model (lit "live") s in
    let s := set_currentOutputTransRef [] s in
    set_turnLanguageDetectedRef false s
  else s.

(** [onmessage], lines 339-427.  [clock] stands for the readings of
    [Date.now()] and [new Date()] taken while the handler runs. *)
Definition onmessage (cl : Closure) (now : Q) (clock : N)
    (msg : LiveServerMessage) (s : State) : Result State :=
  (* Handle Audio Output *)
  do s <- match audioData msg with
          | Some data => if truthy data then playAudio cl now data s else Ok s
          | None => Ok s
          end;
  (* Handle Transcription *)
  let s := match outputTranscription msg with
           | Some text => onOutputTranscription clock text s
           | None => s
           end in
  let s := match inputTranscription msg with
           | Some text => onInputTranscription text s
           | None => s
           end in
  let s := if turnComplete msg then onTurnComplete clock s else s in
  Ok s.

(** [onclose]. *)
Definition onclose (cl : Closure) (s : State) : State :=
  let s := log (ConsoleLog (lit "EBURON Link Closed")) s in
  cleanupAudio s.

(** [onerror]; [message] is [err.message]. *)
Definition onerror (cl : Closure) (message : jsString) (s : State) : State :=
  let s := log (ConsoleError (lit "EBURON Link Error")) s in
  let s := set_error
             (Some (lit "Connection interrupted. " ++
                    (if truthy message then message else lit "Unknown error"))) s in
  cleanupAudio s.

(** One message as the session delivers it. *)
Record Delivery : Type := mkDelivery {
  atTime : Q;
  atClock : N;
  message : LiveServerMessage
}.

(** The handler is an [async] function that nothing awaits: when it throws,
    the assignments made so far stay (here none, see [playAudio]), the rest
    of the handler is skipped and the runtime reports the rejection. *)
Definition deliver (cl : Closure) (d : Delivery) (s : State) : State :=
  match onmessage cl (atTime d) (atClock d) (message d) s with
  | Ok s' => s'
  | Throw e => log (Uncaught e) s
  end.

(** A sequence of messages of one session, in arrival order. *)
Definition deliverAll (cl : Closure) (ds : list Delivery) (s : State) : State :=
  fold_left (fun s d => deliver cl d s) ds s.

(** What can happen to a session between [connect] and its teardown: the
    link opens, a message arrives, the processor hands over a block of
    samples, a scheduled source plays to its end. *)
Inductive SessionEvent : Type :=
  | Opened (clock : N)
  | Received (d : Delivery)
  | AudioProcess (inputData : list Q) (rms : Q)
  | Ended (source : nat).

Definition sessionStep (cl : Closure) (s : State) (e : SessionEvent) : State :=
  match e with
  | Opened clock => onopen cl clock s
  | Received d => deliver cl d s
  | AudioProcess inputData rms =>
      match onaudioprocess cl inputData rms s with
      | Ok s' => s'
      | Throw e => log (Uncaught e) s
      end
  | Ended source =>
      (* the platform has finished playing the source, then calls the handler *)
      onended source (with_world (stopSource source) s)
  end.

Definition sessionRun (cl : Closure) (es : list SessionEvent) (s : State) : State :=
  fold_left (sessionStep cl) es s.


(** ** The realtime transcriber: [startRealtimeRecording] and its teardown

    The capture set-up of the second component, which acquires the same two
    sources.  The recorded blob and its chunks are left out. *)

Module BatchTranscriber.

Inductive RecorderState : Type := inactive | recording.

Record State : Type := mkState {
  transcription : jsString;
  isRecording : bool;
  useSystemAudio : bool;
  streamError : option jsString;
  audioContextRef : option nat;
  mediaRecorderRef : option RecorderState;
  processorRef : option nat;
  sessionRef : option nat;
  mediaStreamsRef : list nat;
  currentTranscriptRef : jsString;
  world : World;
  console : list LogEntry
}.

Definition set_transcription (v : jsString) (s : State) : State :=
  {| transcription := v; isRecording := isRecording s; useSystemAudio :=
     useSystemAudio s; streamError := streamError s; audioContextRef :=
     audioContextRef s; mediaRecorderRef := mediaRecorderRef s;
     processorRef := processorRef s; sessionRef := sessionRef s;
     mediaStreamsRef := mediaStreamsRef s; currentTranscriptRef :=
     currentTranscriptRef s; world := world s; console := console s |}.

Definition set_isRecording (v : bool) (s : State) : State :=
  {| transcription := transcription s; isRecording := v; useSystemAudio :=
     useSystemAudio s; streamError := streamError s; audioContextRef :=
     audioContextRef s; mediaRecorderRef := mediaRecorderRef s;
     processorRef := processorRef s; sessionRef := sessionRef s;
     mediaStreamsRef := mediaStreamsRef s; currentTranscriptRef :=
     currentTranscriptRef s; world := world s; console := console s |}.

Definition set_useSystemAudio (v : bool) (s : State) : State :=
  {| transcription := transcription s; isRecording := isRecording s;
     useSystemAudio := v; streamError := streamError s; audioContextRef :=
     audioContextRef s; mediaRecorderRef := mediaRecorderRef s;
     processorRef := processorRef s; sessionRef := sessionRef s;
     mediaStreamsRef := mediaStreamsRef s; currentTranscriptRef :=
     currentTranscriptRef s; world := world s; console := console s |}.

Definition set_streamError (v : option jsString) (s : State) : State :=
  {| transcription := transcription s; isRecording := isRecording s;
     useSystemAudio := useSystemAudio s; streamError := v; audioContextRef
     := audioContextRef s; mediaRecorderRef := mediaRecorderRef s;
     processorRef := processorRef s; sessionRef := sessionRef s;
     mediaStreamsRef := mediaStreamsRef s; currentTranscriptRef :=
     currentTranscriptRef s; world := world s; console := console s |}.

Definition set_audioContextRef (v : option nat) (s : State) : State :=
  {| transcription := transcription s; isRecording := isRecording s;
     useSystemAudio := useSystemAudio s; streamError := streamError s;
     audioContextRef := v; mediaRecorderRef := mediaRecorderRef s;
     processorRef := processorRef s; sessionRef := sessionRef s;
     mediaStreamsRef := mediaStreamsRef s; currentTranscriptRef :=
     currentTranscriptRef s; world := world s; console := console s |}.

Definition set_mediaRecorderRef (v : option RecorderState) (s : State) : State :=
  {| transcription := transcription s; isRecording := isRecording s;
     useSystemAudio := useSystemAudio s; streamError := streamError s;
     audioContextRef := audioContextRef s; mediaRecorderRef := v;
     processorRef := processorRef s; sessionRef := sessionRef s;
     mediaStreamsRef := mediaStreamsRef s; currentTranscriptRef :=
     currentTranscriptRef s; world := world s; console := console s |}.

Definition set_processorRef (v : option nat) (s : State) : State :=
  {| transcription := transcription s; isRecording := isRecording s;
     useSystemAudio := useSystemAudio s; streamError := streamError s;
     audioContextRef := audioContextRef s; mediaRecorderRef :=
     mediaRecorderRef s; processorRef := v; sessionRef := sessionRef s;
     mediaStreamsRef := mediaStreamsRef s; currentTranscriptRef :=
     currentTranscriptRef s; world := world s; console := console s |}.

Definition set_sessionRef (v : option nat) (s : State) : State :=
  {| transcription := transcription s; isRecording := isRecording s;
     useSystemAudio := useSystemAudio s; streamError := streamError s;
     audioContextRef := audioContextRef s; mediaRecorderRef :=
     mediaRecorderRef s; processorRef := processorRef s; sessionRef := v;
     mediaStreamsRef := mediaStreamsRef s; currentTranscriptRef :=
     currentTranscriptRef s; world := world s; console := console s |}.

Definition set_mediaStreamsRef (v : list nat) (s : State) : State :=
  {| transcription := transcription s; isRecording := isRecording s;
     useSystemAudio := useSystemAudio s; streamError := streamError s;
     audioContextRef := audioContextRef s; mediaRecorderRef :=
     mediaRecorderRef s; processorRef := processorRef s; sessionRef :=
     sessionRef s; mediaStreamsRef := v; currentTranscriptRef :=
     currentTranscriptRef s; world := world s; console := console s |}.

Definition set_currentTranscriptRef (v : jsString) (s : State) : State :=
  {| transcription := transcription s; isRecording := isRecording s;
     useSystemAudio := useSystemAudio s; streamError := streamError s;
     audioContextRef := audioContextRef s; mediaRecorderRef :=
     mediaRecorderRef s; processorRef := processorRef s; sessionRef :=
     sessionRef s; mediaStreamsRef := mediaStreamsRef s;
     currentTranscriptRef := v; world := world s; console := console s |}.

Definition set_world (v : World) (s : State) : State :=
  {| transcription := transcription s; isRecording := isRecording s;
     useSystemAudio := useSystemAudio s; streamError := streamError s;
     audioContextRef := audioContextRef s; mediaRecorderRef :=
     mediaRecorderRef s; processorRef := processorRef s; sessionRef :=
     sessionRef s; mediaStreamsRef := mediaStreamsRef s;
     currentTranscriptRef := currentTranscriptRef s; world := v; console
     := console s |}.

Definition set_console (v : list LogEntry) (s : State) : State :=
  {| transcription := transcription s; isRecording := isRecording s;
     useSystemAudio := useSystemAudio s; streamError := streamError s;
     audioContextRef := audioContextRef s; mediaRecorderRef :=
     mediaRecorderRef s; processorRef := processorRef s; sessionRef :=
     sessionRef s; mediaStreamsRef := mediaStreamsRef s;
     currentTranscriptRef := currentTranscriptRef s; world := world s;
     console := v |}.

Definition with_world (f : World -> World) (s : State) : State :=
  set_world (f (world s)) s.

Definition log (e : LogEntry) (s : State) : State :=
  set_console (console s ++ [e]) s.

(** Lines 40-73. *)
Definition cleanupAudio (s : State) : State :=
  (* Stop Recorder *)
  let s := match mediaRecorderRef s with
           | Some recording => set_mediaRecorderRef (Some inactive) s
           | _ => s
           end in
  (* Stop Streams *)
  let s := with_world (fun w => fold_left (fun w i => stopStream i w)
                                  (mediaStreamsRef s) w) s in
  let s := set_mediaStreamsRef [] s in
  (* Disconnect Nodes *)
  let s := match processorRef s with
           | Some p => set_processorRef None (with_world (disconnectProcessor p) s)
           | None => s
           end in
  (* Close Context *)
  let s := match audioContextRef s with
           | Some c =>
               set_audioContextRef None
                 (with_world (fun w => set_contexts
                                         (alter (fun _ => closed) c (contexts w)) w) s)
           | None => s
           end in
  (* Close Gemini Session *)
  let s := match sessionRef s with
           | Some h => set_sessionRef None (with_world (closeSession h) s)
           | None => s
           end in
  set_isRecording false s.

(** Step 2 of [startRealtimeRecording], lines 98-118. *)
Definition acquireSystemAudio (env : Env) (mixer : list nat) (s : State)
  : State * list nat :=
  if useSystemAudio s then
    match getDisplayMedia env with
    | DisplayGranted withAudio =>
        let sysStream := length (streams (world s)) in
        let tracks := mkTrack videoTrack false
                      :: (if withAudio then [mkTrack audioTrack false] else []) in
        let s := with_world (fun w => set_streams (streams w ++ [tracks]) w) s in
        let s := set_mediaStreamsRef (mediaStreamsRef s ++ [sysStream]) s in
        (* Check if user shared audio *)
        if withAudio then (s, mixer ++ [sysStream])
        else (set_streamError
                (Some (lit "System audio not shared. Recording microphone only."))
                s, mixer)
    | DisplayDeclined =>
        let s := log (ConsoleWarn (lit "System audio cancelled")) s in
        (set_useSystemAudio false s, mixer)
    end
  else (s, mixer).

Definition transcriberInstruction : jsString :=
  lit "You are a passive professional transcriber. Listen carefully and transcribe the audio stream accurately. Do not reply with audio or commentary. Just listen.".

(** Lines 76-216, with the two awaited requests (lines 91 and 101) answered
    by [env] at once: no other handler runs during the two waits. *)
Definition startRealtimeRecording (env : Env) (s : State) : State :=
  let s := set_streamError None s in
  let s := set_transcription [] s in
  let s := set_currentTranscriptRef [] s in
  let ctx := length (contexts (world s)) in
  let s := with_world (fun w => set_contexts (contexts w ++ [running]) w) s in
  let s := set_audioContextRef (Some ctx) s in
  (* 1. Get Microphone *)
  match getUserMedia env with
  | MicDenied message =>
      let s := log (ConsoleError (lit "Recording setup failed")) s in
      let s := set_streamError
                 (Some (if truthy message then message
                        else lit "Could not start recording.")) s in
      cleanupAudio s
  | MicGranted =>
      let micStream := length (streams (world s)) in
      let s := with_world
                 (fun w => set_streams (streams w ++ [[mkTrack audioTrack false]]) w) s in
      let s := set_mediaStreamsRef (mediaStreamsRef s ++ [micStream]) s in
      (* 2. Get System Audio (Optional) *)
      let '(s, mixer) := acquireSystemAudio env [micStream] s in
      (* 3. Setup Recorder Pipeline *)
      let s := set_mediaRecorderRef (Some recording) s in
      (* 4. Setup Live API Pipeline *)
      let processor := length (processors (world s)) in
      let s := with_world
                 (fun w => set_processors
                             (processors w ++ [mkProcessor true mixer false]) w) s in
      let s := set_processorRef (Some processor) s in
      let sessionPromise := length (sessions (world s)) in
      let s := with_world
                 (fun w => set_sessions
                             (sessions w ++
                              [mkLiveSession transcriberInstruction [] false]) w) s in
      let s := set_sessionRef (Some sessionPromise) s in
      set_isRecording true s
  end.

End BatchTranscriber.

(** ** Vocabulary of the statements *)

(** The statements of [onmessage] that follow the audio block. *)
Definition afterAudio (clock : N) (msg : LiveServerMessage) (s : State) : State :=
  let s := match outputTranscription msg with
           | Some text => onOutputTranscription clock text s
           | None => s
           end in
  let s := match inputTranscription msg with
           | Some text => onInputTranscription text s
           | None => s
           end in
  if turnComplete msg then onTurnComplete clock s else s.


(** The second segment does not start before the first one has ended. *)
Definition follows (a b : BufferSource) : Prop :=
  (startTime a + duration a <= startTime b)%Q.

(** The second segment does not start before the value the cursor took
    after the first: the end of the first as line 366 computes it. *)
Definition followsCursor (a b : BufferSource) : Prop :=
  (Double.add (startTime a) (duration a) <= startTime b)%Q.

(** The second segment starts before the end of the first by no more than
    one part in [2^53] of the time at which the first ends. *)
Definition overlapsWithinRounding (a b : BufferSource) : Prop :=
  (startTime a + duration a - startTime b
   <= (startTime a + duration a) / 2 ^ 53)%Q.

(** Every segment of the list stands in [R] to the next one. *)
Fixpoint chained (R : BufferSource -> BufferSource -> Prop)
    (l : list BufferSource) : Prop :=
  match l with
  | a :: r => match r with
              | b :: _ => R a b
              | [] => True
              end /\ chained R r
  | [] => True
  end.

(** Every segment of the list is followed by the next one. *)
Definition contiguous (l : list BufferSource) : Prop := chained follows l.

(** A reading of the clock of an audio context, and a value of the cursor:
    a double that is not negative. *)
Definition clockReading (t : Q) : Prop :=
  (0 <= t)%Q /\ Double.isDouble t.

(** What one delivery did to the playback queue: nothing, or one segment of
    some samples at 24000 Hz scheduled at the later of the clock and the
    cursor, the cursor moving to the sum of that start and that duration as
    the language computes it. *)
Definition scheduledBy (d : Delivery) (s s' : State) : Prop :=
  (sources (world s') = sources (world s)
   /\ nextStartTimeRef s' = nextStartTimeRef s)
  \/ exists b samples,
       sources (world s') = sources (world s) ++ [b]
       /\ startTime b = Qmax (atTime d) (nextStartTimeRef s)
       /\ (0 < samples)%nat
       /\ duration b = Double.div (inject_Z (Z.of_nat samples)) 24000
       /\ nextStartTimeRef s' = Double.add (startTime b) (duration b).


(** Whether an object of the world has been released. An index that names
    no object has nothing to release. *)
Definition streamStopped (w : World) (i : nat) : bool :=
  match streams w !! i with
  | Some tracks => forallb trackStopped tracks
  | None => true
  end.

Definition processorDisconnected (w : World) (i : nat) : bool :=
  match processors w !! i with
  | Some p => negb (procConnected p)
  | None => true
  end.

Definition isClosed (c : ContextState) : bool :=
  match c with closed => true | running => false end.

Definition contextClosed (w : World) (i : nat) : bool :=
  match contexts w !! i with
  | Some c => isClosed c
  | None => true
  end.

Definition sessionIsClosed (w : World) (i : nat) : bool :=
  match sessions w !! i with
  | Some l => sessionClosed l
  | None => true
  end.

Definition sourceIsStopped (w : World) (i : nat) : bool :=
  match sources w !! i with
  | Some b => sourceStopped b
  | None => true
  end.

Definition whenSome (f : nat -> bool) (ref : option nat) : bool :=
  match ref with
  | Some i => f i
  | None => true
  end.

(** Everything the refs of [s] hold is released in the world [w]: the
    tracks of every stream, the processor, the two contexts, the session and
    every registered source. *)
Definition released (s : State) (w : World) : bool :=
  forallb (streamStopped w) (mediaStreamsRef s)
  && whenSome (processorDisconnected w) (processorRef s)
  && whenSome (contextClosed w) (inputContextRef s)
  && whenSome (contextClosed w) (audioContextRef s)
  && whenSome (sessionIsClosed w) (sessionRef s)
  && forallb (sourceIsStopped w) (sourcesRef s).

(** Nothing in the world is left running. *)
Definition quiescent (w : World) : bool :=
  forallb (forallb trackStopped) (streams w)
  && forallb (fun p => negb (procConnected p)) (processors w)
  && forallb isClosed (contexts w)
  && forallb sessionClosed (sessions w)
  && forallb sourceStopped (sources w).

(** Every object of the world that is still running is held by a ref. *)
Definition tracked (s : State) : Prop :=
  forall i,
    (streamStopped (world s) i = false -> i ∈ mediaStreamsRef s)
    /\ (processorDisconnected (world s) i = false -> processorRef s = Some i)
    /\ (contextClosed (world s) i = false ->
        inputContextRef s = Some i \/ audioContextRef s = Some i)
    /\ (sessionIsClosed (world s) i = false -> sessionRef s = Some i)
    /\ (sourceIsStopped (world s) i = false -> i ∈ sourcesRef s).

(** The number of handles the refs hold. *)
Definition held (ref : option nat) : nat :=
  match ref with Some _ => 1 | None => 0 end.

Definition outstanding (s : State) : nat :=
  length (mediaStreamsRef s) + held (processorRef s)
  + held (inputContextRef s) + held (audioContextRef s)
  + held (outputGainRef s) + held (sessionRef s)
  + length (sourcesRef s).


(** The ways a running session ends: the user stops it (the main button
    while [isActive]), the link closes, the link reports an error. *)
Inductive Exit : Type :=
  | ExplicitStop
  | RemoteClose
  | RemoteError (message : jsString).

Definition exitBy (cl : Closure) (x : Exit) (s : State) : State :=
  match x with
  | ExplicitStop => cleanupAudio s
  | RemoteClose => onclose cl s
  | RemoteError message => onerror cl message s
  end.

(** One session from a click on the idle button to its end: [connect]
    either fails, which tears down, or gives the callbacks that the events
    [es] then drive until the exit [x]. *)
Definition sessionLife (env : Env) (es : list SessionEvent) (x : Exit)
    (s : State) : State :=
  match connect env s with
  | (s1, Some cl) => exitBy cl x (sessionRun cl es s1)
  | (s1, None) => s1
  end.


(** [if (text.trim())]. *)
Definition nonBlank (text : jsString) : bool := truthy (trim text).

(** The three messages the turn assembler appends. *)
Definition userMessage (clock : N) (text : jsString) : Message :=
  mkMessage (toString clock ++ lit "u") user text clock.

Definition modelMessage (clock : N) (text : jsString) : Message :=
  mkMessage (toString clock ++ lit "m") model text clock.

Definition languageMessage (clock : N) (lang : jsString) : Message :=
  mkMessage (toString clock ++ lit "sys-lang") system
    (lit "Language Detected: " ++ lang) clock.

(** Messages that carry one field only. *)
Definition inputDelta (clock : N) (text : string) : Delivery :=
  mkDelivery 0 clock (mkLiveServerMessage None None (Some (lit text)) false).

Definition outputDelta (clock : N) (text : string) : Delivery :=
  mkDelivery 0 clock (mkLiveServerMessage None (Some (lit text)) None false).

Definition turnCompleted (clock : N) : Delivery :=
  mkDelivery 0 clock (mkLiveServerMessage None None None true).


(** Callbacks of some session, for the worked examples. *)
Definition someClosure : Closure := mkClosure false true 1 0 0.


(** A session is under way: it is active, or [connect] has stored its
    promise and the link has not opened yet. *)
Definition sessionLive (s : State) : bool :=
  isActive s || match sessionRef s with Some _ => true | None => false end.

(** What the interface shows of the component: the connection state, the
    error banner, the transcript log, the live preview and the toggles. *)
Definition userVisible (s : State)
  : bool * option jsString * list Message * jsString * bool * bool * bool :=
  (isActive s, error s, transcripts s, streamingInput s,
   useSystemAudio s, diarizationEnabled s, translationEnabled s).

(** The optional source was asked for and did not bring audio. *)
Definition systemAudioMissing (env : Env) : bool :=
  match getDisplayMedia env with
  | DisplayGranted withAudio => negb withAudio
  | DisplayDeclined => true
  end.

(** The warning [connect] prints when the optional source brings no audio. *)
Definition degradedWarning (env : Env) : LogEntry :=
  match getDisplayMedia env with
  | DisplayGranted _ => ConsoleWarn (lit "User did not share system audio.")
  | DisplayDeclined => ConsoleWarn (lit "System audio selection cancelled or failed")
  end.


(** A click on the idle button followed, when [connect] succeeded, by the
    opening of the link. *)
Definition startAndOpen (env : Env) (clock : N) (s : State) : State :=
  match connect env s with
  | (s1, Some cl) => onopen cl clock s1
  | (s1, None) => s1
  end.



(** Within [step] of the clamped sample. *)
Definition within (step : Q) (s y : Q) : Prop := (Qabs (s - y) <= step)%Q.

(** The same for another reading of the encoder. *)
Definition roundTripReading (toInteger : Q -> Z) (positiveScale : Q)
    (P : Q -> Q -> Prop) (x : list Q) : Prop :=
  exists y,
    decode (bytesOfInt16Array (float32ToInt16Reading toInteger positiveScale x))
    = Ok y
    /\ Forall2 (fun xi yi => P (clamp xi) yi) x y.

(** The three modes of the instruction payload, as the specification names
    them, and the rule it states: exactly one applies, translation before
    diarization. *)
Inductive Mode : Type := Translator | Diarization | Assistant.

Definition selectedMode (translation diarization : bool) : Mode :=
  if translation then Translator
  else if diarization then Diarization
  else Assistant.

(** The line of the instruction that names a mode. *)
Definition modeLine (m : Mode) : jsString :=
  match m with
  | Translator => lit "MODE: REAL-TIME TRANSLATOR."
  | Diarization => lit "MODE: ADVANCED SPEAKER DIARIZATION."
  | Assistant => lit "MODE: ASSISTANT."
  end.

(** The text of the message shown for a mode when the link opens. *)
Definition connectedText (m : Mode) : jsString :=
  match m with
  | Translator => lit "Translator Mode Active."
  | Diarization => lit "Secure Link Established. Speaker ID Active."
  | Assistant => lit "Secure Link Established."
  end.

Fixpoint startsWith (p s : jsString) : bool :=
  match p, s with
  | [], _ => true
  | a :: p', b :: s' => (a =? b) && startsWith p' s'
  | _ :: _, [] => false
  end.

(** [hay.includes(needle)]. *)
Fixpoint includes (needle hay : jsString) : bool :=
  startsWith needle hay
  || match hay with
     | [] => false
     | _ :: r => includes needle r
     end.

Definition modeEqb (a b : Mode) : bool :=
  match a, b with
  | Translator, Translator | Diarization, Diarization | Assistant, Assistant => true
  | _, _ => false
  end.


(** The world and the refs that hold its objects. *)
Definition handles (s : State)
  : World * list nat * option nat * option nat * option nat * option nat * list nat :=
  (world s, mediaStreamsRef s, processorRef s, inputContextRef s,
   audioContextRef s, sessionRef s, sourcesRef s).


(** ** The component under any interleaving of its handlers

    What can happen to a mounted [LiveAgent]: a click on the main button, an
    event of a session (through the callbacks that session was given), the
    end of a session.  Nothing orders them: a callback of an earlier session
    may still fire after a teardown or after a later [connect]. *)
Inductive Operation : Type :=
  | Click (env : Env)
  | Session (cl : Closure) (e : SessionEvent)
  | Leave (cl : Closure) (x : Exit).

Definition perform (s : State) (o : Operation) : State :=
  match o with
  | Click env => onClick env s
  | Session cl e => sessionStep cl s e
  | Leave cl x => exitBy cl x s
  end.

Definition performAll (os : list Operation) (s : State) : State :=
  fold_left perform os s.

(** The operation is a message that ends a turn. *)
Definition endsTurn (o : Operation) : bool :=
  match o with
  | Session _ (Received d) => turnComplete (message d)
  | _ => false
  end.

Definition isSystem (r : Role) : bool :=
  match r with system => true | _ => false end.

(** What [saveTranscript] should have received for a log: its user and
    model messages, in order. *)
Definition toSave (kind : jsString) (log : list Message)
  : list (jsString * Role * jsString) :=
  map (fun m => (msgText m, msgRole m, kind))
    (List.filter (fun m => negb (isSystem (msgRole m))) log).

(** The registry of playing sources holds, once each, exactly the sources
    of the world that are still playing. *)
Definition registryExact (s : State) : Prop :=
  NoDup (sourcesRef s)
  /\ forall i, i ∈ sourcesRef s <-> sourceIsStopped (world s) i = false.

(** The live preview is empty or shows the whole accumulated input. *)
Definition previewShowsInput (s : State) : Prop :=
  streamingInput s = [] \/ streamingInput s = currentInputTransRef s.


(** What the component has written down: the transcript log, the calls of
    [saveTranscript], the two accumulators, the live preview and the flag
    of the turn. *)
Definition journal (s : State)
  : list Message * list (jsString * Role * jsString) * jsString * jsString
    * jsString * bool :=
  (transcripts s, savedTranscripts s, currentInputTransRef s,
   currentOutputTransRef s, streamingInput s, turnLanguageDetectedRef s).


(** ** [MessageBubble] and [parseSpeakerText] (lines 11-85)

    The pattern [/^(\[?(?:Speaker|Voice)\s?\d+[\]:]?|[A-Za-z]+:)/i] is
    written with one combinator per construct.  A matcher takes the text
    that is left and gives the text it and its continuation have matched
    together with the rest, trying what the backtracking matcher tries and
    in the same order. *)

Module Pattern.

Definition Matcher : Type := jsString -> option (jsString * jsString).

(** The end of the pattern. *)
Definition done : Matcher := fun s => Some ([], s).

Definition consume (c : N) (res : option (jsString * jsString))
  : option (jsString * jsString) :=
  match res with
  | Some (m, rest) => Some (c :: m, rest)
  | None => None
  end.

(** One character of a class. *)
Definition one (class : N -> bool) (k : Matcher) : Matcher :=
  fun s =>
    match s with
    | c :: r => if class c then consume c (k r) else None
    | [] => None
    end.

(** [x?]: with the character first, then without it. *)
Definition opt (class : N -> bool) (k : Matcher) : Matcher :=
  fun s =>
    match one class k s with
    | Some res => Some res
    | None => k s
    end.

(** [x*], greedy: the longest run first, then shorter ones. *)
Fixpoint star (class : N -> bool) (k : Matcher) (s : jsString)
  : option (jsString * jsString) :=
  match s with
  | c :: r =>
      if class c then
        match consume c (star class k r) with
        | Some res => Some res
        | None => k s
        end
      else k s
  | [] => k s
  end.

(** [x+]. *)
Definition plus (class : N -> bool) (k : Matcher) : Matcher :=
  one class (star class k).

(** [a|b]: the left alternative first. *)
Definition alt (a b : Matcher) : Matcher :=
  fun s =>
    match a s with
    | Some res => Some res
    | None => b s
    end.

(** The upper-case form of an ASCII letter.  Under the [i] flag (without
    [u]) two characters match when their upper-case forms are equal, and a
    character outside ASCII never matches an ASCII one. *)
Definition canonicalize (c : N) : N :=
  if (97 <=? c) && (c <=? 122) then c - 32 else c.

Definition sameLetter (a c : N) : bool := canonicalize a =? canonicalize c.

(** A literal under the [i] flag. *)
Fixpoint word (w : jsString) (k : Matcher) : Matcher :=
  match w with
  | [] => k
  | a :: w' => one (sameLetter a) (word w' k)
  end.

Definition exactly (a : N) (c : N) : bool := c =? a.

Definition isDigit (c : N) : bool := (48 <=? c) && (c <=? 57).

(** [[A-Za-z]] under the [i] flag: the ASCII letters. *)
Definition isLetter (c : N) : bool :=
  ((65 <=? c) && (c <=? 90)) || ((97 <=? c) && (c <=? 122)).

Definition closing (c : N) : bool := (c =? 93) || (c =? 58).

End Pattern.

(** [line.match(speakerRegex)]: the matched text, which is also the first
    group, and the rest of the line. *)
Definition speakerRegex : Pattern.Matcher :=
  let number := Pattern.opt isWhiteSpace
                  (Pattern.plus Pattern.isDigit
                     (Pattern.opt Pattern.closing Pattern.done)) in
  Pattern.alt
    (Pattern.opt (Pattern.exactly 91)
       (Pattern.alt (Pattern.word (lit "Speaker") number)
                    (Pattern.word (lit "Voice") number)))
    (Pattern.plus Pattern.isLetter (Pattern.one (Pattern.exactly 58) Pattern.done)).

(** [text.split('\n')]. *)
Fixpoint splitLines (text : jsString) : list jsString :=
  match text with
  | [] => [[]]
  | c :: r =>
      if c =? 10 then [] :: splitLines r
      else match splitLines r with
           | line :: lines => (c :: line) :: lines
           | [] => [[c]]
           end
  end.

(** [s.replace(pattern, '')] for a string pattern: the first occurrence is
    removed. *)
Fixpoint removeFirst (pattern s : jsString) : jsString :=
  match stripPrefix pattern s with
  | Some rest => rest
  | None =>
      match s with
      | c :: r => c :: removeFirst pattern r
      | [] => []
      end
  end.

(** [match[1].replace(/[:\[\]]/g, '')]. *)
Definition removePunctuation (s : jsString) : jsString :=
  List.filter (fun c => negb ((c =? 58) || (c =? 91) || (c =? 93))) s.

(** What a line is rendered as: a speaker label over its content, or the
    line as it is. *)
Inductive Block : Type :=
  | Labelled (speakerName content : jsString)
  | Plain (line : jsString).

Definition parseLine (line : jsString) : Block :=
  match speakerRegex line with
  | Some (match0, _) =>
      let speakerName := trim (removePunctuation match0) in
      let content := trim (removeFirst match0 line) in
      Labelled speakerName content
  | None => Plain line
  end.

Definition parseSpeakerText (text : jsString) : list Block :=
  map parseLine (splitLines text).

(** What a message is rendered as: a system message as a pill with its
    text, the others as a bubble on the side of their role. *)
Inductive Bubble : Type :=
  | SystemPill (text : jsString)
  | Speech (isUser : bool) (blocks : list Block).

Definition MessageBubble (msg : Message) : Bubble :=
  match msgRole msg with
  | system => SystemPill (msgText msg)
  | user => Speech true (parseSpeakerText (msgText msg))
  | model => Speech false (parseSpeakerText (msgText msg))
  end.

(** [lines.join('\n')]. *)
Fixpoint joinLines (lines : list jsString) : jsString :=
  match lines with
  | [] => []
  | [line] => line
  | line :: rest => line ++ 10 :: joinLines rest
  end.

(** The text a block shows. *)
Definition blockText (b : Block) : jsString :=
  match b with
  | Labelled _ content => content
  | Plain line => line
  end.

(** What a matcher gives is a split of its input. *)
Definition splits (k : Pattern.Matcher) : Prop :=
  forall s m rest, k s = Some (m, rest) -> s = m ++ rest.

(** Every text a matcher matches satisfies [P]. *)
Definition yields (P : jsString -> Prop) (k : Pattern.Matcher) : Prop :=
  forall s m rest, k s = Some (m, rest) -> P m.

Definition hasLetter (m : jsString) : Prop :=
  exists c, In c m /\ Pattern.isLetter c = true.

(** A text that begins with an opening bracket or a letter. *)
Definition startsLabel (m : jsString) : Prop :=
  match m with
  | c :: _ => c = 91 \/ Pattern.isLetter c = true
  | [] => False
  end.


(** ** The realtime transcriber: the callbacks of its session and the
    controls (lines 121-220, 299 and 371-376 of the second component) *)

Module Transcriber.

Import BatchTranscriber.

(** What the callbacks capture: the constants [processor] and
    [sessionPromise] of [startRealtimeRecording]. *)
Record Callbacks : Type := mkCallbacks {
  processor : nat;
  sessionPromise : nat
}.

(** [onopen]. *)
Definition onopen (cb : Callbacks) (s : State) : State :=
  let s := log (ConsoleLog (lit "Transcriber Connected")) s in
  with_world (installHandler (processor cb)) s.

(** [processor.onaudioprocess]. *)
Definition onaudioprocess (cb : Callbacks) (inputData : list Q) (s : State)
  : Result State :=
  let pcm16 := float32ToInt16 inputData in
  let bytes := bytesOfInt16Array pcm16 in
  do base64 <- frameToWire bytes;
  Ok (with_world (sendRealtimeInput (sessionPromise cb) base64) s).

(** [onmessage]: only the input transcription is read. *)
Definition onmessage (msg : LiveServerMessage) (s : State) : State :=
  match inputTranscription msg with
  | Some text =>
      if truthy text then
        let s := set_currentTranscriptRef (currentTranscriptRef s ++ text) s in
        set_transcription (transcription s ++ text) s
      else s
  | None => s
  end.

(** [onclose]. *)
Definition onclose (s : State) : State :=
  log (ConsoleLog (lit "Transcriber Closed")) s.

(** [onerror]. *)
Definition onerror (s : State) : State :=
  let s := log (ConsoleError (lit "Transcriber Error")) s in
  set_streamError (Some (lit "Connection lost.")) s.

Definition stopRealtimeRecording (s : State) : State := cleanupAudio s.

(** [recorder.onstop], lines 132-139: the calls of [saveTranscript] it
    makes. *)
Definition onstop (s : State) : list (jsString * Role * jsString) :=
  if truthy (trim (currentTranscriptRef s))
  then [(currentTranscriptRef s, model, lit "batch")]
  else [].

(** The main button:
    [onClick={isRecording ? stopRealtimeRecording : startRealtimeRecording}]. *)
Definition onClick (env : Env) (s : State) : State :=
  if isRecording s then stopRealtimeRecording s else startRealtimeRecording env s.

(** The badge [SAVED] is shown under [!isRecording && transcription]. *)
Definition savedBadge (s : State) : bool :=
  negb (isRecording s) && truthy (transcription s).

(** What the link and the processor can do between the start and the stop. *)
Inductive Event : Type :=
  | Opened
  | Received (msg : LiveServerMessage)
  | AudioProcess (inputData : list Q)
  | Closed
  | Errored.

Definition step (cb : Callbacks) (s : State) (e : Event) : State :=
  match e with
  | Opened => onopen cb s
  | Received msg => onmessage msg s
  | AudioProcess inputData =>
      match onaudioprocess cb inputData s with
      | Ok s' => s'
      | Throw e => log (Uncaught e) s
      end
  | Closed => onclose s
  | Errored => onerror s
  end.

Definition run (cb : Callbacks) (es : list Event) (s : State) : State :=
  fold_left (step cb) es s.

(** The texts of the input transcriptions among the events, put together. *)
Definition heard (es : list Event) : jsString :=
  flat_map (fun e => match e with
                     | Received msg =>
                         match inputTranscription msg with
                         | Some text => text
                         | None => []
                         end
                     | _ => []
                     end) es.

(** Every object of the world that is still running is held by a ref. *)
Definition tracked (s : State) : Prop :=
  forall i,
    (streamStopped (world s) i = false -> i ∈ mediaStreamsRef s)
    /\ (processorDisconnected (world s) i = false -> processorRef s = Some i)
    /\ (contextClosed (world s) i = false -> audioContextRef s = Some i)
    /\ (sessionIsClosed (world s) i = false -> sessionRef s = Some i)
    /\ sourceIsStopped (world s) i = true.

(** What the component holds and what it has acquired. *)
Definition holds (s : State)
  : list nat * option nat * option nat * option nat * option RecorderState * bool :=
  (mediaStreamsRef s, processorRef s, audioContextRef s, sessionRef s,
   mediaRecorderRef s, isRecording s).

End Transcriber.

(** ** [FastChat]: [sendMessage] (lines 10-69 of [FastChat.tsx])

    [sendMessage] runs up to its [await] when the user sends, and goes on
    when the request has settled; other events may come in between.  Every
    event is handled after the render that follows the one before, so that
    the handler reads the state of the moment. *)

Module FastChat.

Record State : Type := mkState {
  messages : list Message;
  input : jsString;
  isThinking : bool;
  savedTranscripts : list (jsString * Role * jsString);
  console : list LogEntry
}.

Definition initialState (clock : N) : State :=
  {| messages :=
       [mkMessage (lit "1") system
          (lit "EBURON Fast Response Unit online. Using Gemini Flash Lite.") clock];
     input := []; isThinking := false; savedTranscripts := []; console := [] |}.

(** What is handed to the model: the history the chat is created with and
    the message sent. *)
Record Request : Type := mkRequest {
  history : list (Role * jsString);
  message : jsString
}.

(** [messages.filter(m => m.role !== 'system').map(...)]. *)
Definition historyOf (messages : list Message) : list (Role * jsString) :=
  map (fun m => (msgRole m, msgText m))
    (List.filter (fun m => negb (isSystem (msgRole m))) messages).

(** [onChange]: [setInput(e.target.value)]. *)
Definition setInput (value : jsString) (s : State) : State :=
  {| messages := messages s; input := value; isThinking := isThinking s;
     savedTranscripts := savedTranscripts s; console := console s |}.

(** [sendMessage] up to the [await]: the state it leaves and the request
    it makes, if any.  [clock] is the reading of [Date.now()]. *)
Definition sendMessage (clock : N) (s : State) : State * option Request :=
  if negb (truthy (trim (input s))) then (s, None)
  else
    let userText := input s in
    let userMsg := mkMessage (toString clock) user userText clock in
    let s' := {| messages := messages s ++ [userMsg]; input := [];
                 isThinking := true;
                 (* Save User Msg *)
                 savedTranscripts := savedTranscripts s ++ [(userText, user, lit "chat")];
                 console := console s |} in
    (s', Some (mkRequest (historyOf (messages s)) userText)).

(** How the request settles: with a result whose text may be missing, or
    with an exception. *)
Inductive Outcome : Type :=
  | Replied (text : option jsString)
  | Failed (error : jsString).

(** [sendMessage] after the [await]. *)
Definition settle (outcome : Outcome) (clock : N) (s : State) : State :=
  match outcome with
  | Replied text =>
      (* result.text || "No response received." *)
      let modelText := match text with
                       | Some t => if truthy t then t else lit "No response received."
                       | None => lit "No response received."
                       end in
      {| messages := messages s
                     ++ [mkMessage (toString (clock + 1)) model modelText clock];
         input := input s; isThinking := false;
         (* Save Model Msg *)
         savedTranscripts := savedTranscripts s ++ [(modelText, model, lit "chat")];
         console := console s |}
  | Failed error =>
      {| messages := messages s
                     ++ [mkMessage (lit "err") system (lit "Communication failure.") clock];
         input := input s; isThinking := false;
         savedTranscripts := savedTranscripts s;
         console := console s ++ [ConsoleError error] |}
  end.

(** What can happen to the mounted component. *)
Inductive Operation : Type :=
  | Type_ (value : jsString)
  | Send (clock : N)
  | Settle (outcome : Outcome) (clock : N).

Definition perform (s : State) (o : Operation) : State * option Request :=
  match o with
  | Type_ value => (setInput value s, None)
  | Send clock => sendMessage clock s
  | Settle outcome clock => (settle outcome clock s, None)
  end.

(** The state after a sequence of operations and the requests made on the
    way, in order. *)
Fixpoint performAll (os : list Operation) (s : State) : State * list Request :=
  match os with
  | [] => (s, [])
  | o :: os' =>
      let '(s1, r) := perform s o in
      let '(s2, rs) := performAll os' s1 in
      (s2, match r with Some q => q :: rs | None => rs end)
  end.

(** No user message of the log is blank and no model message is empty. *)
Definition wellFormed (log : list Message) : Prop :=
  Forall (fun m => match msgRole m with
                   | user => nonBlank (msgText m) = true
                   | model => msgText m <> []
                   | system => True
                   end) log.

End FastChat.


(** ** The upload path of the second component: [handleFileUpload],
    [transcribeUploadedFile] and its button (lines 223-258 and 330-356)

    The part of the state this path reads and writes. *)

Module Upload.

Record Blob : Type := mkBlob {
  blobType : jsString;
  blobSize : N
}.

Record State : Type := mkState {
  audioBlob : option Blob;
  transcription : jsString;
  isProcessing : bool;
  isRecording : bool;
  savedTranscripts : list (jsString * Role * jsString)
}.

(** [handleFileUpload]; [file] is [e.target.files?.[0]]. *)
Definition handleFileUpload (file : option Blob) (s : State) : State :=
  match file with
  | Some f =>
      {| audioBlob := Some f; transcription := [];
         isProcessing := isProcessing s; isRecording := isRecording s;
         savedTranscripts := savedTranscripts s |}
  | None => s
  end.

(** Whether creating the reader and starting to read throws. *)
Inductive ReaderStart : Type := ReaderStarted | ReaderThrew.

(** [transcribeUploadedFile] up to the end of its [try] block, which only
    installs [reader.onloadend]; the [catch] is reached from there alone. *)
Definition transcribeUploadedFile (start : ReaderStart) (s : State) : State :=
  match audioBlob s with
  | None => s
  | Some _ =>
      match start with
      | ReaderStarted =>
          {| audioBlob := audioBlob s; transcription := transcription s;
             isProcessing := true; isRecording := isRecording s;
             savedTranscripts := savedTranscripts s |}
      | ReaderThrew =>
          {| audioBlob := audioBlob s;
             transcription := lit "Error processing file.";
             isProcessing := false; isRecording := isRecording s;
             savedTranscripts := savedTranscripts s |}
      end
  end.

(** How the request made in [reader.onloadend] settles. *)
Inductive Outcome : Type :=
  | Generated (text : option jsString)
  | Rejected.

(** [reader.onloadend], an [async] function that nothing awaits: when the
    request is rejected the rest of the function is skipped. *)
Definition onloadend (outcome : Outcome) (s : State) : State :=
  match outcome with
  | Generated text =>
      (* response.text || "No transcription generated." *)
      let text := match text with
                  | Some t => if truthy t then t else lit "No transcription generated."
                  | None => lit "No transcription generated."
                  end in
      {| audioBlob := audioBlob s; transcription := text;
         isProcessing := false; isRecording := isRecording s;
         savedTranscripts := savedTranscripts s ++ [(text, model, lit "batch")] |}
  | Rejected => s
  end.

(** The button [PROCESS UPLOAD]: shown under
    [audioBlob && !isRecording] and [!transcription], with
    [disabled={isProcessing}].  [Some b]: shown, enabled when [b]. *)
Definition processButton (s : State) : option bool :=
  match audioBlob s with
  | Some _ =>
      if negb (isRecording s) && negb (truthy (transcription s))
      then Some (negb (isProcessing s))
      else None
  | None => None
  end.

Definition onClick (start : ReaderStart) (s : State) : State :=
  match processButton s with
  | Some true => transcribeUploadedFile start s
  | _ => s
  end.

Inductive Operation : Type :=
  | Upload (file : option Blob)
  | Click (start : ReaderStart)
  | Loaded (outcome : Outcome).

Definition perform (s : State) (o : Operation) : State :=
  match o with
  | Upload file => handleFileUpload file s
  | Click start => onClick start s
  | Loaded outcome => onloadend outcome s
  end.

Definition performAll (os : list Operation) (s : State) : State :=
  fold_left perform os s.

(** The operation is something the user does. *)
Definition byUser (o : Operation) : bool :=
  match o with
  | Loaded _ => false
  | _ => true
  end.

End Upload.


(** ** The handlers of the component, the parts of [connect] included *)

(** What runs in one piece: a click on the main button, which tears down
    when the session is active and otherwise runs [connect] to its first
    wait; an answer to one of the two requests of a [connect] under way; an
    event of a session; an exit. *)
Inductive Phase : Type :=
  | Clicks
  | MicrophoneAnswers (p : Pending) (answer : MicOutcome)
  | DisplayAnswers (p : Pending) (mixer : list nat) (answer : DisplayOutcome)
  | Happens (cl : Closure) (e : SessionEvent)
  | Ends (cl : Closure) (x : Exit).

Definition phase (s : State) (ph : Phase) : State :=
  match ph with
  | Clicks => if isActive s then cleanupAudio s else fst (connectBegin s)
  | MicrophoneAnswers p answer => fst (onMicrophoneAnswer p answer s)
  | DisplayAnswers p mixer answer => fst (onDisplayAnswer p mixer answer s)
  | Happens cl e => sessionStep cl s e
  | Ends cl x => exitBy cl x s
  end.

Definition phases (phs : list Phase) (s : State) : State :=
  fold_left phase phs s.

(** The two context refs hold no context that is running. *)
Definition noContextHeld (s : State) : bool :=
  whenSome (contextClosed (world s)) (inputContextRef s)
  && whenSome (contextClosed (world s)) (audioContextRef s).

(** The processor and session refs hold nothing that is running. *)
Definition noLinkHeld (s : State) : bool :=
  whenSome (processorDisconnected (world s)) (processorRef s)
  && whenSome (sessionIsClosed (world s)) (sessionRef s).

(** The part of [connect] that the phase runs assigns a ref that holds a
    running object.  [connect] assigns the two context refs at its start and
    the processor and session refs at its end, and releases nothing. *)
Definition overwrites (s : State) (ph : Phase) : bool :=
  match ph with
  | Clicks => negb (isActive s) && negb (noContextHeld s)
  | MicrophoneAnswers p MicGranted =>
      negb (useSystemAudioOf p) && negb (noLinkHeld s)
  | DisplayAnswers _ _ _ => negb (noLinkHeld s)
  | _ => false
  end.

Fixpoint neverOverwrites (s : State) (phs : list Phase) : bool :=
  match phs with
  | [] => true
  | ph :: r => negb (overwrites s ph) && neverOverwrites (phase s ph) r
  end.


(** The clock reading a phase carries, if it carries one, is a reading of
    the clock of an audio context. *)
Definition carriesReading (ph : Phase) : Prop :=
  match ph with
  | Happens _ (Received d) => clockReading (atTime d)
  | _ => True
  end.

(** When the flag of the turn is set, the output accumulator carries a
    language tag. *)
Definition flagImpliesTag (s : State) : Prop :=
  turnLanguageDetectedRef s = true ->
  exists lang, langMatch (currentOutputTransRef s) = Some lang.

(** Sessions that follow one another, each from its click on the idle
    button to its exit. *)
Definition sessionsInTurn (lives : list (Env * list SessionEvent * Exit))
    (s : State) : State :=
  fold_left (fun s '(env, es, x) => sessionLife env es x s) lives s.


(** * Properties *)

(** ** Rounding to a double *)

Module DoubleFacts.
Import Double.
#[local] Open Scope Z_scope.

Lemma floor_frac q :
  (0 <= q - inject_Z (Qfloor q))%Q /\ (q - inject_Z (Qfloor q) < 1)%Q.
Proof.
  pose proof (Qfloor_le q) as H1. pose proof (Qlt_floor q) as H2.
  rewrite inject_Z_plus in H2. change (inject_Z 1) with 1%Q in H2.
  split; lra.
Qed.

Lemma roundHalfEven_nearest q : nearest q (roundHalfEven q).
Proof.
  unfold roundHalfEven, nearest.
  destruct (floor_frac q) as [H0 H1].
  set (fl := Qfloor q) in *.
  destruct (q - inject_Z fl ?= 1 # 2)%Q eqn:E.
  - apply Qeq_alt in E.
    destruct (Z.even fl) eqn:Ev.
    + right. split; [|exact Ev]. apply Qabs_case; intros; lra.
    + right. split.
      * rewrite inject_Z_plus. change (inject_Z 1) with 1%Q.
        apply Qabs_case; intros; lra.
      * rewrite Z.even_add, Ev. reflexivity.
  - apply Qlt_alt in E. left. apply Qabs_case; intros; lra.
  - apply Qgt_alt in E. left. rewrite inject_Z_plus. change (inject_Z 1) with 1%Q.
    apply Qabs_case; intros; lra.
Qed.

Lemma nearest_mono q1 q2 m1 m2 :
  (q1 <= q2)%Q -> nearest q1 m1 -> nearest q2 m2 -> (m1 <= m2)%Z.
Proof.
  intros Hq H1 H2.
  destruct (Z_le_gt_dec m1 m2) as [|Hgt]; [assumption|exfalso].
  assert (Hm : (inject_Z m2 + 1 <= inject_Z m1)%Q).
  { change 1%Q with (inject_Z 1). rewrite <- inject_Z_plus, <- Zle_Qle. lia. }
  assert (A1 : (inject_Z m1 - q1 <= Qabs (inject_Z m1 - q1))%Q) by apply Qle_Qabs.
  assert (A2 : (q2 - inject_Z m2 <= Qabs (inject_Z m2 - q2))%Q).
  { rewrite <- Qabs_opp. setoid_replace (- (inject_Z m2 - q2))%Q
      with (q2 - inject_Z m2)%Q using relation Qeq by ring. apply Qle_Qabs. }
  destruct H1 as [H1|[H1 E1]]; destruct H2 as [H2|[H2 E2]]; try lra.
  assert (Heq : (inject_Z m1 == inject_Z m2 + 1)%Q) by lra.
  change 1%Q with (inject_Z 1) in Heq. rewrite <- inject_Z_plus in Heq.
  apply (proj1 (inject_Z_injective _ _)) in Heq. subst m1.
  rewrite Z.even_add, E2 in E1. discriminate.
Qed.

Lemma roundHalfEven_mono q1 q2 :
  (q1 <= q2)%Q -> (roundHalfEven q1 <= roundHalfEven q2)%Z.
Proof.
  intros H. eapply nearest_mono; [exact H| |]; apply roundHalfEven_nearest.
Qed.

Lemma roundHalfEven_comp q1 q2 :
  (q1 == q2)%Q -> roundHalfEven q1 = roundHalfEven q2.
Proof.
  intros H. apply Z.le_antisymm; apply roundHalfEven_mono; lra.
Qed.

Lemma roundHalfEven_Z q z : (q == inject_Z z)%Q -> roundHalfEven q = z.
Proof.
  intros H.
  assert (Hn : nearest q z).
  { left. rewrite H. setoid_replace (inject_Z z - inject_Z z)%Q with 0%Q using relation Qeq by ring.
    reflexivity. }
  apply Z.le_antisymm.
  - eapply nearest_mono; [apply Qle_refl|apply roundHalfEven_nearest|exact Hn].
  - eapply nearest_mono; [apply Qle_refl|exact Hn|apply roundHalfEven_nearest].
Qed.

Lemma roundHalfEven_error q :
  (Qabs (inject_Z (roundHalfEven q) - q) <= 1 # 2)%Q.
Proof.
  destruct (roundHalfEven_nearest q) as [H|[H _]]; lra.
Qed.

Lemma two_neq0 : ~ (2 == 0)%Q.
Proof. discriminate. Qed.

Lemma pow2_pos e : (0 < 2 ^ e)%Q.
Proof. now apply Qpower_0_lt. Qed.

Lemma pow2_plus a b : (2 ^ (a + b) == 2 ^ a * 2 ^ b)%Q.
Proof. apply Qpower_plus, two_neq0. Qed.

Lemma pow2_succ a : (2 ^ (a + 1) == 2 * 2 ^ a)%Q.
Proof. rewrite pow2_plus. change (2 ^ 1)%Q with 2%Q. ring. Qed.

Lemma pow2_cancel a : (2 ^ a * 2 ^ (- a) == 1)%Q.
Proof. rewrite <- pow2_plus, Z.add_opp_diag_r. reflexivity. Qed.

Lemma pow2_le a b : (a <= b)%Z -> (2 ^ a <= 2 ^ b)%Q.
Proof. intros H. apply Qpower_le_compat_l; [exact H|discriminate]. Qed.

Lemma pow2_lt_inv a b : (2 ^ a < 2 ^ b)%Q -> (a < b)%Z.
Proof. intros H. eapply Qpower_lt_compat_l_inv; [exact H|reflexivity]. Qed.

Lemma pow2_Z n : (0 <= n)%Z -> (inject_Z (2 ^ n) == 2 ^ n)%Q.
Proof. intros H. now rewrite Zpower_Qpower. Qed.

(** [ilog2] is the integer part of the logarithm. *)
Lemma ilog2_spec q :
  (0 < q)%Q -> (2 ^ ilog2 q <= q)%Q /\ (q < 2 ^ (ilog2 q + 1))%Q.
Proof.
  intros Hq. unfold ilog2.
  rewrite (Qabs_pos q) by lra.
  destruct q as [n d]. unfold Qlt in Hq. simpl in Hq. rewrite Z.mul_1_r in Hq.
  cbn [Qnum Qden]. rewrite Z.abs_eq by lia.
  set (ln := Z.log2 n). set (ld := Z.log2 (Z.pos d)).
  assert (Hn : (2 ^ ln <= n < 2 ^ Z.succ ln)%Z) by (apply Z.log2_spec; lia).
  assert (Hd : (2 ^ ld <= Z.pos d < 2 ^ Z.succ ld)%Z) by (apply Z.log2_spec; lia).
  assert (Hln : (0 <= ln)%Z) by apply Z.log2_nonneg.
  assert (Hld : (0 <= ld)%Z) by apply Z.log2_nonneg.
  destruct Hn as [Hn1 Hn2]. destruct Hd as [Hd1 Hd2].
  rewrite Zle_Qle, pow2_Z in Hn1, Hd1 by lia.
  rewrite Zlt_Qlt, pow2_Z in Hn2, Hd2 by lia.
  unfold Z.succ in Hn2, Hd2. rewrite pow2_succ in Hn2, Hd2.
  assert (Hx : ((n # d) * inject_Z (Z.pos d) == inject_Z n)%Q).
  { unfold Qeq, Qmult, inject_Z. cbn [Qnum Qden]. rewrite Pos2Z.inj_mul. ring. }
  assert (HA : (2 ^ ln == 2 ^ (ln - ld) * 2 ^ ld)%Q).
  { rewrite <- pow2_plus. now replace (ln - ld + ld)%Z with ln by lia. }
  pose proof (pow2_pos (ln - ld)) as HApos.
  pose proof (pow2_pos ld) as HBpos.
  assert (Hx0 : (0 < n # d)%Q) by (unfold Qlt; simpl; lia).
  set (x := (n # d)%Q) in *. set (D := inject_Z (Z.pos d)) in *.
  set (N := inject_Z n) in *.
  set (A := (2 ^ (ln - ld))%Q) in *. set (B := (2 ^ ld)%Q) in *.
  set (C := (2 ^ ln)%Q) in *.
  assert (Hup : (x < 2 * A)%Q).
  { destruct (Qlt_le_dec x (2 * A)) as [|Hc]; [assumption|exfalso].
    assert ((2 * A) * B <= x * D)%Q.
    { apply Qmult_le_compat_nonneg; split; lra. }
    lra. }
  assert (Hlo : (A < 2 * x)%Q).
  { destruct (Qlt_le_dec A (2 * x)) as [|Hc]; [assumption|exfalso].
    assert (H1 : ((2 * x) * D <= A * D)%Q) by (apply Qmult_le_compat_r; lra).
    assert (H2 : (A * D < A * (2 * B))%Q) by (apply Qmult_lt_l; lra).
    lra. }
  destruct (Qle_bool A x) eqn:E.
  - apply Qle_bool_iff in E. split; [exact E|]. now rewrite pow2_succ.
  - assert (Hlt : (x < A)%Q).
    { destruct (Qlt_le_dec x A) as [|Hc]; [assumption|].
      apply Qle_bool_iff in Hc. congruence. }
    replace (ln - ld - 1 + 1)%Z with (ln - ld)%Z by lia. split; [|exact Hlt].
    assert (H2 : (2 * 2 ^ (ln - ld - 1) == A)%Q).
    { rewrite <- pow2_succ. subst A. now replace (ln - ld - 1 + 1)%Z with (ln - ld)%Z by lia. }
    lra.
Qed.

Lemma ilog2_unique q k :
  (2 ^ k <= q)%Q -> (q < 2 ^ (k + 1))%Q -> ilog2 q = k.
Proof.
  intros H1 H2.
  assert (Hq : (0 < q)%Q) by (pose proof (pow2_pos k); lra).
  destruct (ilog2_spec q Hq) as [H3 H4].
  assert (ilog2 q < k + 1)%Z by (apply pow2_lt_inv; lra).
  assert (k < ilog2 q + 1)%Z by (apply pow2_lt_inv; lra).
  lia.
Qed.

Lemma ilog2_mono q1 q2 : (0 < q1)%Q -> (q1 <= q2)%Q -> (ilog2 q1 <= ilog2 q2)%Z.
Proof.
  intros H0 H.
  destruct (ilog2_spec q1 H0) as [H1 _].
  destruct (ilog2_spec q2) as [_ H2]; [lra|].
  assert (ilog2 q1 < ilog2 q2 + 1)%Z by (apply pow2_lt_inv; lra). lia.
Qed.

Lemma exponent_min q : (-1074 <= exponent q)%Z.
Proof. unfold exponent. lia. Qed.

Lemma exponent_mono q1 q2 :
  (0 < q1)%Q -> (q1 <= q2)%Q -> (exponent q1 <= exponent q2)%Z.
Proof.
  intros H0 H. pose proof (ilog2_mono q1 q2 H0 H). unfold exponent. lia.
Qed.

(** The significand: [q] in units of the last place. *)
Lemma scaled_lt q : (0 < q)%Q -> (q * 2 ^ (- exponent q) < 2 ^ 53)%Q.
Proof.
  intros Hq. destruct (ilog2_spec q Hq) as [_ H].
  pose proof (pow2_pos (- exponent q)) as Hp.
  assert (Hle : (2 ^ (ilog2 q + 1) <= 2 ^ (exponent q + 53))%Q)
    by (apply pow2_le; unfold exponent; lia).
  assert (Hs : (2 ^ (exponent q + 53) * 2 ^ (- exponent q) == 2 ^ 53)%Q).
  { rewrite <- pow2_plus. now replace (exponent q + 53 + - exponent q)%Z with 53%Z by lia. }
  rewrite <- Hs. apply Qmult_lt_compat_r; [exact Hp|lra].
Qed.

Lemma scaled_ge q :
  (0 < q)%Q -> (-1074 < exponent q)%Z -> (2 ^ 52 <= q * 2 ^ (- exponent q))%Q.
Proof.
  intros Hq He. destruct (ilog2_spec q Hq) as [H _].
  assert (Hex : exponent q = (ilog2 q - 52)%Z) by (unfold exponent in *; lia).
  pose proof (pow2_pos (- exponent q)) as Hp.
  assert (Hs : (2 ^ ilog2 q * 2 ^ (- exponent q) == 2 ^ 52)%Q).
  { rewrite <- pow2_plus, Hex. now replace (ilog2 q + - (ilog2 q - 52))%Z with 52%Z by lia. }
  rewrite <- Hs. apply Qmult_le_compat_r; lra.
Qed.

Lemma significand_le q :
  (0 < q)%Q -> (roundHalfEven (q * 2 ^ (- exponent q)) <= 2 ^ 53)%Z.
Proof.
  intros Hq. pose proof (scaled_lt q Hq) as H.
  rewrite <- (roundHalfEven_Z (inject_Z (2 ^ 53)) (2 ^ 53)) by reflexivity.
  apply roundHalfEven_mono. rewrite pow2_Z by lia. lra.
Qed.

Lemma significand_ge q :
  (0 < q)%Q -> (-1074 < exponent q)%Z ->
  (2 ^ 52 <= roundHalfEven (q * 2 ^ (- exponent q)))%Z.
Proof.
  intros Hq He. pose proof (scaled_ge q Hq He) as H.
  rewrite <- (roundHalfEven_Z (inject_Z (2 ^ 52)) (2 ^ 52)) at 1 by reflexivity.
  apply roundHalfEven_mono. rewrite pow2_Z by lia. lra.
Qed.

Lemma significand_nonneg q :
  (0 <= q)%Q -> (0 <= roundHalfEven (q * 2 ^ (- exponent q)))%Z.
Proof.
  intros Hq. pose proof (pow2_pos (- exponent q)) as Hp.
  rewrite <- (roundHalfEven_Z 0 0) at 1 by reflexivity.
  apply roundHalfEven_mono. apply Qmult_le_0_compat; lra.
Qed.

Lemma round_nonneg q : (0 <= q)%Q -> (0 <= round q)%Q.
Proof.
  intros Hq. unfold round. apply Qmult_le_0_compat.
  - change 0%Q with (inject_Z 0). rewrite <- Zle_Qle. now apply significand_nonneg.
  - pose proof (pow2_pos (exponent q)). lra.
Qed.

Lemma round_zero q : (q == 0)%Q -> (round q == 0)%Q.
Proof.
  intros Hq. unfold round.
  rewrite (roundHalfEven_Z _ 0); [ring|].
  generalize (2 ^ (- exponent q))%Q. intros p. rewrite Hq. ring.
Qed.

(** Rounding keeps the order. *)
Lemma round_mono q1 q2 : (0 <= q1)%Q -> (q1 <= q2)%Q -> (round q1 <= round q2)%Q.
Proof.
  intros H0 H.
  destruct (Qlt_le_dec 0 q1) as [Hpos|Hz].
  2:{ rewrite (round_zero q1) by lra. apply round_nonneg. lra. }
  pose proof (exponent_mono q1 q2 Hpos H) as He.
  pose proof (pow2_pos (exponent q1)) as Hp1.
  pose proof (pow2_pos (exponent q2)) as Hp2.
  unfold round.
  destruct (Z.eq_dec (exponent q1) (exponent q2)) as [Heq|Hne].
  - rewrite Heq. apply Qmult_le_compat_r; [|lra].
    rewrite <- Zle_Qle. apply roundHalfEven_mono.
    pose proof (pow2_pos (- exponent q2)). apply Qmult_le_compat_r; lra.
  - assert (Hlt : (exponent q1 < exponent q2)%Z) by lia.
    assert (H1 : (inject_Z (roundHalfEven (q1 * 2 ^ (- exponent q1)))
                  * 2 ^ exponent q1 <= 2 ^ 53 * 2 ^ exponent q1)%Q).
    { apply Qmult_le_compat_r; [|lra]. rewrite <- (pow2_Z 53) by lia.
      rewrite <- Zle_Qle. now apply significand_le. }
    assert (H2 : (2 ^ 52 * 2 ^ exponent q2
                  <= inject_Z (roundHalfEven (q2 * 2 ^ (- exponent q2)))
                     * 2 ^ exponent q2)%Q).
    { apply Qmult_le_compat_r; [|lra]. rewrite <- (pow2_Z 52) by lia.
      rewrite <- Zle_Qle. apply significand_ge; [lra|].
      pose proof (exponent_min q1). lia. }
    assert (H3 : (2 ^ 53 * 2 ^ exponent q1 <= 2 ^ 52 * 2 ^ exponent q2)%Q).
    { rewrite <- !pow2_plus. apply pow2_le. lia. }
    lra.
Qed.

Lemma round_comp q1 q2 : (0 <= q1)%Q -> (q1 == q2)%Q -> (round q1 == round q2)%Q.
Proof.
  intros H0 H. apply Qle_antisym; apply round_mono; lra.
Qed.

Lemma round_representable q : (0 <= q)%Q -> representable (round q).
Proof.
  intros Hq. exists (roundHalfEven (q * 2 ^ (- exponent q))), (exponent q).
  split; [reflexivity|]. split; [|apply exponent_min].
  pose proof (significand_nonneg q Hq). rewrite Z.abs_eq by assumption.
  destruct (Qlt_le_dec 0 q) as [Hpos|Hz]; [now apply significand_le|].
  rewrite (roundHalfEven_Z _ 0); [lia|].
  assert (Hq0 : (q == 0)%Q) by lra.
  generalize (2 ^ (- exponent q))%Q. intros p. rewrite Hq0. ring.
Qed.

(** A double is left as it is. *)
Lemma round_id x : (0 <= x)%Q -> representable x -> (round x == x)%Q.
Proof.
  intros Hx (m & e0 & Hm & Hb & He0).
  destruct (Qlt_le_dec 0 x) as [Hpos|Hz]; [|rewrite round_zero; lra].
  pose proof (pow2_pos e0) as Hp0.
  assert (Hmpos : (0 < m)%Z).
  { destruct (Z_lt_le_dec 0 m) as [|Hle]; [assumption|exfalso].
    rewrite Zle_Qle in Hle. change (inject_Z 0) with 0%Q in Hle.
    assert (inject_Z m * 2 ^ e0 <= 0)%Q.
    { setoid_replace 0%Q with (0 * 2 ^ e0)%Q using relation Qeq by ring.
      apply Qmult_le_compat_r; lra. }
    lra. }
  rewrite Z.abs_eq in Hb by lia.
  (* a significand below 2^53 *)
  assert (Hwlog : exists m' e',
             (x == inject_Z m' * 2 ^ e')%Q /\ (0 < m' < 2 ^ 53)%Z /\ (-1074 <= e')%Z).
  { destruct (Z.eq_dec m (2 ^ 53)) as [->|Hne].
    - exists (2 ^ 52)%Z, (e0 + 1)%Z. split; [|split; [split; reflexivity || lia|lia]].
      rewrite Hm, pow2_succ, !pow2_Z by lia.
      setoid_replace (2 ^ 53)%Q with (2 * 2 ^ 52)%Q using relation Qeq; [ring|].
      rewrite <- pow2_succ. reflexivity.
    - exists m, e0. split; [exact Hm|]. split; [lia|exact He0]. }
  clear m e0 Hm Hb He0 Hp0 Hmpos.
  destruct Hwlog as (m & e0 & Hm & [Hm0 Hm1] & He0).
  pose proof (pow2_pos e0) as Hp0.
  assert (Hlt : (x < 2 ^ (e0 + 53))%Q).
  { rewrite Hm, pow2_plus, (Qmult_comm (2 ^ e0)).
    apply Qmult_lt_compat_r; [exact Hp0|].
    rewrite <- (pow2_Z 53) by lia. rewrite <- Zlt_Qlt. exact Hm1. }
  destruct (ilog2_spec x Hpos) as [Hi _].
  assert (Hil : (ilog2 x < e0 + 53)%Z) by (apply pow2_lt_inv; lra).
  assert (He : (exponent x <= e0)%Z) by (unfold exponent; lia).
  set (e := exponent x) in *.
  assert (Hs : (x * 2 ^ (- e) == inject_Z (m * 2 ^ (e0 - e)))%Q).
  { rewrite inject_Z_mult, pow2_Z by lia. rewrite Hm.
    replace (e0 - e)%Z with (e0 + - e)%Z by lia. rewrite pow2_plus. ring. }
  unfold round. fold e. rewrite (roundHalfEven_Z _ _ Hs).
  rewrite inject_Z_mult, pow2_Z by lia. rewrite Hm.
  replace (e0 - e)%Z with (e0 + - e)%Z by lia. rewrite pow2_plus.
  rewrite <- !Qmult_assoc, (Qmult_comm (2 ^ (- e))), pow2_cancel. ring.
Qed.

(** The rounding error is at most half a unit in the last place, one part
    in [2^53] of a normal number. *)
Lemma round_error q :
  (2 ^ (-1022) <= q)%Q -> (Qabs (round q - q) <= q / 2 ^ 53)%Q.
Proof.
  intros Hq. pose proof (pow2_pos (-1022)) as Hmin.
  assert (Hpos : (0 < q)%Q) by lra.
  destruct (ilog2_spec q Hpos) as [Hi1 Hi2].
  assert (Hil : (-1022 <= ilog2 q)%Z).
  { assert (-1022 < ilog2 q + 1)%Z by (apply pow2_lt_inv; lra). lia. }
  assert (Hex : exponent q = (ilog2 q - 52)%Z) by (unfold exponent; lia).
  set (e := exponent q) in *.
  pose proof (pow2_pos e) as Hpe. pose proof (pow2_pos (- e)) as Hpne.
  pose proof (roundHalfEven_error (q * 2 ^ (- e))) as Herr.
  assert (Hdiff : (round q - q
                   == (inject_Z (roundHalfEven (q * 2 ^ (- e))) - q * 2 ^ (- e))
                      * 2 ^ e)%Q).
  { unfold round. fold e.
    setoid_replace ((inject_Z (roundHalfEven (q * 2 ^ (- e))) - q * 2 ^ (- e)) * 2 ^ e)%Q
      with (inject_Z (roundHalfEven (q * 2 ^ (- e))) * 2 ^ e
            - q * (2 ^ e * 2 ^ (- e)))%Q using relation Qeq by ring.
    rewrite pow2_cancel. ring. }
  rewrite Hdiff, Qabs_Qmult, (Qabs_pos (2 ^ e)) by lra.
  assert (Hulp : (2 ^ e * 2 ^ 52 <= q)%Q).
  { rewrite <- pow2_plus, Hex. now replace (ilog2 q - 52 + 52)%Z with (ilog2 q) by lia. }
  assert (H53 : (2 ^ 53 == 2 * 2 ^ 52)%Q) by (rewrite <- pow2_succ; reflexivity).
  pose proof (pow2_pos 52) as Hp52. pose proof (pow2_pos 53) as Hp53.
  apply Qle_shift_div_l; [exact Hp53|].
  assert (Hb : (Qabs (inject_Z (roundHalfEven (q * 2 ^ (- e))) - q * 2 ^ (- e))
                * 2 ^ e <= (1 # 2) * 2 ^ e)%Q).
  { apply Qmult_le_compat_r; lra. }
  assert (Hc : (Qabs (inject_Z (roundHalfEven (q * 2 ^ (- e))) - q * 2 ^ (- e))
                * 2 ^ e * 2 ^ 53 <= (1 # 2) * 2 ^ e * 2 ^ 53)%Q).
  { apply Qmult_le_compat_r; lra. }
  rewrite H53 in Hc |- *.
  eapply Qle_trans; [exact Hc|]. 
  setoid_replace ((1 # 2) * 2 ^ e * (2 * 2 ^ 52))%Q with (2 ^ e * 2 ^ 52)%Q using relation Qeq by ring.
  exact Hulp.
Qed.

Lemma round_isDouble q : (0 <= q)%Q -> isDouble (round q).
Proof.
  intros Hq. apply round_id; [now apply round_nonneg|now apply round_representable].
Qed.

End DoubleFacts.

Section ListInduction3.

Variable A : Type.
Variable P : list A -> Prop.
Hypothesis P0 : P [].
Hypothesis P1 : forall a, P [a].
Hypothesis P2 : forall a b, P [a; b].
Hypothesis P3 : forall a b c r, P r -> P (a :: b :: c :: r).

(** Induction by groups of three elements, the way the encoder reads its
    input. *)
Lemma list_ind3 (l : list A) : P l.
Proof.
  revert l. fix IH 1. intros [|a [|b [|c r]]].
  - exact P0.
  - apply P1.
  - apply P2.
  - apply P3, IH.
Qed.

End ListInduction3.

Lemma value_alphabet n : n < 64 -> Base64.value (Base64.alphabet n) = Some n.
Proof.
  intros Hn. unfold Base64.alphabet, Base64.value.
  repeat match goal with
         | |- context [N.ltb ?a ?b] => destruct (N.ltb_spec a b)
         | |- context [N.leb ?a ?b] => destruct (N.leb_spec a b)
         | |- context [N.eqb ?a ?b] => destruct (N.eqb_spec a b)
         | _ => progress simpl
         end; try lia; f_equal; lia.
Qed.

Lemma alphabet_plain n :
  Base64.alphabet n <> 61 /\ Base64.isAsciiWhitespace (Base64.alphabet n) = false.
Proof.
  unfold Base64.alphabet, Base64.isAsciiWhitespace.
  repeat match goal with
         | |- context [N.ltb ?a ?b] => destruct (N.ltb_spec a b)
         | |- context [N.eqb ?a ?b] => destruct (N.eqb_spec a b)
         | _ => progress simpl
         end; split; try reflexivity; lia.
Qed.

Lemma sextets_bound l :
  Forall (fun c => c < 256) l -> Forall (fun g => g < 64) (Base64.sextets l).
Proof.
  induction l as [|a|a b|a b c r IH] using list_ind3; intros H; simpl.
  - constructor.
  - inversion_clear H. repeat constructor; lia.
  - inversion_clear H as [|? ? Ha H']. inversion_clear H' as [|? ? Hb _].
    repeat constructor; lia.
  - inversion_clear H as [|? ? Ha H']. inversion_clear H' as [|? ? Hb H''].
    inversion_clear H'' as [|? ? Hc Hr].
    repeat constructor; try lia. now apply IH.
Qed.

Lemma unsextets_sextets l :
  Forall (fun c => c < 256) l -> Base64.unsextets (Base64.sextets l) = l.
Proof.
  induction l as [|a|a b|a b c r IH] using list_ind3; intros H; simpl.
  - reflexivity.
  - inversion_clear H. f_equal. lia.
  - inversion_clear H as [|? ? Ha H']. inversion_clear H' as [|? ? Hb _].
    f_equal; [|f_equal]; lia.
  - inversion_clear H as [|? ? Ha H']. inversion_clear H' as [|? ? Hb H''].
    inversion_clear H'' as [|? ? Hc Hr].
    rewrite (IH Hr). f_equal; [|f_equal; [|f_equal]]; lia.
Qed.

Lemma sextets_length l : (length (Base64.sextets l) mod 4 <> 1)%nat.
Proof.
  induction l as [|a|a b|a b c r IH] using list_ind3;
    cbn [Base64.sextets length]; lia.
Qed.

Lemma values_alphabet g :
  Forall (fun n => n < 64) g -> Base64.values (map Base64.alphabet g) = Some g.
Proof.
  induction 1 as [|n g Hn _ IH]; simpl; [reflexivity|].
  now rewrite value_alphabet, IH.
Qed.

Lemma filter_alphabet g p :
  List.filter (fun c => negb (Base64.isAsciiWhitespace c))
    (map Base64.alphabet g ++ repeat 61%N p)
  = map Base64.alphabet g ++ repeat 61%N p.
Proof.
  induction g as [|n g IH]; simpl.
  - induction p as [|p IH]; simpl; [reflexivity|now rewrite IH].
  - destruct (alphabet_plain n) as [_ ->]. simpl. now rewrite IH.
Qed.

Lemma stripPadding_alphabet g p :
  (p <= 2)%nat ->
  Base64.stripPadding (map Base64.alphabet g ++ repeat 61%N p)
  = if (length (map Base64.alphabet g ++ repeat 61%N p) mod 4 =? 0)%nat
    then map Base64.alphabet g
    else map Base64.alphabet g ++ repeat 61%N p.
Proof.
  intros Hp. unfold Base64.stripPadding.
  destruct (_ =? 0)%nat; [|reflexivity].
  rewrite rev_app_distr.
  assert (Hhd : match rev (map Base64.alphabet g) with
                | x :: _ => x <> 61
                | [] => True
                end).
  { destruct g as [|n g] using rev_ind; [exact I|].
    rewrite map_app, rev_app_distr. simpl. apply alphabet_plain. }
  assert (Hrev : rev (rev (map Base64.alphabet g)) = map Base64.alphabet g)
    by apply rev_involutive.
  destruct p as [|[|[|p]]]; simpl; try lia.
  - rewrite app_nil_r.
    destruct (rev (map Base64.alphabet g)) as [|x [|y r]] eqn:E; try reflexivity.
    + apply N.eqb_neq in Hhd. now rewrite Hhd.
    + apply N.eqb_neq in Hhd. now rewrite Hhd.
  - destruct (rev (map Base64.alphabet g)) as [|x r] eqn:E.
    + simpl in Hrev. now rewrite <- Hrev.
    + apply N.eqb_neq in Hhd. rewrite Hhd. simpl. exact Hrev.
  - exact Hrev.
Qed.

Lemma btoa_binary l :
  Forall (fun c => c < 256) l ->
  Base64.btoa l
  = Ok (map Base64.alphabet (Base64.sextets l)
        ++ Base64.padding (length (Base64.sextets l))).
Proof.
  intros H. unfold Base64.btoa.
  replace (forallb _ l) with true; [reflexivity|].
  symmetry. apply forallb_forall. intros c Hc.
  rewrite Forall_forall in H. apply list_elem_of_In, H in Hc.
  apply N.leb_le. lia.
Qed.

Lemma atob_btoa l :
  Forall (fun c => c < 256) l ->
  Base64.atob (map Base64.alphabet (Base64.sextets l)
               ++ Base64.padding (length (Base64.sextets l)))
  = Ok l.
Proof.
  intros H. unfold Base64.atob, Base64.padding.
  pose proof (sextets_length l) as Hlen.
  set (g := Base64.sextets l) in *.
  set (p := ((4 - length g mod 4) mod 4)%nat).
  rewrite filter_alphabet, stripPadding_alphabet by (subst p; lia).
  rewrite length_app, length_map, repeat_length.
  replace ((length g + p) mod 4 =? 0)%nat with true
    by (symmetry; apply Nat.eqb_eq; subst p; lia).
  rewrite length_map.
  replace (length g mod 4 =? 1)%nat with false
    by (symmetry; apply Nat.eqb_neq; exact Hlen).
  rewrite values_alphabet by (apply sextets_bound, H).
  subst g. now rewrite unsextets_sextets.
Qed.

Lemma toUint8_to_N b : toUint8 (Byte.to_N b) = b.
Proof.
  unfold toUint8. pose proof (Byte.to_N_bounded b).
  rewrite N.mod_small by lia. now rewrite Byte.of_to_N.
Qed.

Lemma binary_bound (b : list byte) : Forall (fun c => c < 256) (map Byte.to_N b).
Proof.
  apply Forall_map, Forall_forall. intros x _.
  pose proof (Byte.to_N_bounded x). simpl. lia.
Qed.

(** The transport encoding loses nothing: every byte sequence is encoded,
    and decoding the text gives the bytes back. *)
Lemma wireToFrame_frameToWire (b : list byte) :
  exists w, frameToWire b = Ok w /\ wireToFrame w = Ok b.
Proof.
  unfold frameToWire, wireToFrame, base64ToArrayBuffer.
  rewrite btoa_binary by apply binary_bound.
  eexists. split; [reflexivity|].
  rewrite atob_btoa by apply binary_bound. simpl.
  f_equal. rewrite map_map. rewrite <- (map_id b) at 2.
  apply map_ext. intros x. apply toUint8_to_N.
Qed.

Example btoa_Hello : Base64.btoa (lit "Hello") = Ok (lit "SGVsbG8=").
Proof. reflexivity. Qed.

Example atob_forgiving :
  Base64.atob (lit "SGVsbG8=") = Ok (lit "Hello")
  /\ Base64.atob (lit "SGVsbG8") = Ok (lit "Hello")
  /\ Base64.atob (lit " SGVs bG8= ") = Ok (lit "Hello")
  /\ Base64.atob (lit "SGVsb") = Throw InvalidCharacterError
  /\ Base64.atob (lit "SG=sbG8=") = Throw InvalidCharacterError.
Proof. repeat split; reflexivity. Qed.

(** ** The PCM codec *)


Lemma wrap16_range z : (-32768 <= wrap16 z <= 32767)%Z.
Proof. unfold wrap16. destruct (Z.ltb_spec (z mod 65536) 32768); lia. Qed.



Lemma length_bytesOfInt16Array v :
  length (bytesOfInt16Array v) = (2 * length v)%nat.
Proof. induction v as [|z v IH]; simpl; lia. Qed.


Lemma decode_odd bufferData :
  Nat.even (length bufferData) = false -> decode bufferData = Throw MalformedFrame.
Proof. intros H. unfold decode, newInt16Array. now rewrite H. Qed.




(** ** Playback scheduling *)

(** Unfolds the handlers that only touch the transcript cells. *)
Ltac unfold_turn :=
  unfold onTurnComplete, onOutputTranscription, onInputTranscription,
    saveTranscript, appendTranscript.

Lemma onOutputTranscription_playback clock text s :
  world (onOutputTranscription clock text s) = world s
  /\ nextStartTimeRef (onOutputTranscription clock text s) = nextStartTimeRef s.
Proof. unfold_turn. repeat case_match; split; reflexivity. Qed.

Lemma onInputTranscription_playback text s :
  world (onInputTranscription text s) = world s
  /\ nextStartTimeRef (onInputTranscription text s) = nextStartTimeRef s.
Proof. unfold_turn. split; reflexivity. Qed.

Lemma onTurnComplete_playback clock s :
  world (onTurnComplete clock s) = world s
  /\ nextStartTimeRef (onTurnComplete clock s) = nextStartTimeRef s.
Proof. unfold_turn. repeat case_match; split; reflexivity. Qed.

Lemma afterAudio_playback clock msg s :
  world (afterAudio clock msg s) = world s
  /\ nextStartTimeRef (afterAudio clock msg s) = nextStartTimeRef s.
Proof.
  unfold afterAudio.
  destruct (outputTranscription msg) as [t|], (inputTranscription msg) as [t'|],
    (turnComplete msg);
    repeat match goal with
      | |- context [onTurnComplete ?c ?x] =>
          destruct (onTurnComplete_playback c x) as [-> ->]
      | |- context [onInputTranscription ?t ?x] =>
          destruct (onInputTranscription_playback t x) as [-> ->]
      | |- context [onOutputTranscription ?c ?t ?x] =>
          destruct (onOutputTranscription_playback c t x) as [-> ->]
      end; split; reflexivity.
Qed.

Lemma onmessage_afterAudio cl now clock msg s :
  onmessage cl now clock msg s
  = do s1 <- match audioData msg with
             | Some data => if truthy data then playAudio cl now data s else Ok s
             | None => Ok s
             end;
    Ok (afterAudio clock msg s1).
Proof. reflexivity. Qed.

(** What a successful [playAudio] does. *)
Lemma playAudio_ok cl now data s s1 :
  playAudio cl now data s = Ok s1 ->
  exists b samples,
    sources (world s1) = sources (world s) ++ [b]
    /\ startTime b = Qmax now (nextStartTimeRef s)
    /\ (0 < samples)%nat
    /\ duration b = Double.div (inject_Z (Z.of_nat samples)) 24000
    /\ nextStartTimeRef s1 = Double.add (startTime b) (duration b).
Proof.
  unfold playAudio.
  destruct (base64ToArrayBuffer data) as [bufferData|e]; [simpl|discriminate].
  destruct (decode bufferData) as [float32Data|e]; [simpl|discriminate].
  destruct (Nat.eqb_spec (length float32Data) 0) as [|Hlen]; [discriminate|].
  intros [= <-]. eexists _, (length float32Data). simpl. repeat split. lia.
Qed.

Lemma deliver_scheduledBy cl d s : scheduledBy d s (deliver cl d s).
Proof.
  unfold deliver, scheduledBy. rewrite onmessage_afterAudio.
  destruct (audioData (message d)) as [data|]; [destruct (truthy data)|]; simpl.
  - destruct (playAudio cl (atTime d) data s) as [s1|e] eqn:E; simpl.
    + destruct (afterAudio_playback (atClock d) (message d) s1) as [-> ->].
      right. eapply playAudio_ok, E.
    + left. split; reflexivity.
  - destruct (afterAudio_playback (atClock d) (message d) s) as [-> ->].
    left. split; reflexivity.
  - destruct (afterAudio_playback (atClock d) (message d) s) as [-> ->].
    left. split; reflexivity.
Qed.

Lemma Qmax_cases x y : Qmax x y = x \/ Qmax x y = y.
Proof. unfold Qmax, GenericMinMax.gmax. destruct (x ?= y)%Q; auto. Qed.

Lemma clockReading_max x y :
  clockReading x -> clockReading y -> clockReading (Qmax x y).
Proof. intros Hx Hy. destruct (Qmax_cases x y) as [-> | ->]; assumption. Qed.

(** The duration of a buffer that holds a sample is a normal double. *)
Lemma duration_normal n :
  (0 < n)%nat -> (2 ^ (-1022) <= Double.div (inject_Z (Z.of_nat n)) 24000)%Q.
Proof.
  intros Hn. unfold Double.div.
  apply Qle_trans with (Double.round (1 # 24000)).
  - apply Qle_bool_iff. vm_compute. reflexivity.
  - apply DoubleFacts.round_mono; [discriminate|].
    apply Qle_shift_div_l; [reflexivity|].
    setoid_replace ((1 # 24000) * 24000)%Q with (inject_Z 1) using relation Qeq by reflexivity.
    rewrite <- Zle_Qle. lia.
Qed.

(** The end of a segment as the language computes it is no earlier than
    its start, and is again a reading. *)
Lemma rounded_end start samples :
  clockReading start -> (0 < samples)%nat ->
  let dur := Double.div (inject_Z (Z.of_nat samples)) 24000 in
  (start <= Double.add start dur)%Q
  /\ clockReading (Double.add start dur)
  /\ (2 ^ (-1022) <= start + dur)%Q.
Proof.
  intros [H0 Hd] Hn dur.
  pose proof (duration_normal samples Hn) as Hdur. fold dur in Hdur.
  pose proof (DoubleFacts.pow2_pos (-1022)) as Hp.
  unfold Double.add. repeat split.
  - unfold Double.isDouble in Hd. rewrite <- Hd at 1.
    apply DoubleFacts.round_mono; lra.
  - apply DoubleFacts.round_nonneg. lra.
  - apply DoubleFacts.round_isDouble. lra.
  - lra.
Qed.

Lemma scheduledBy_cursor d s s' :
  clockReading (atTime d) -> clockReading (nextStartTimeRef s) ->
  scheduledBy d s s' ->
  (nextStartTimeRef s <= nextStartTimeRef s')%Q
  /\ clockReading (nextStartTimeRef s').
Proof.
  intros Hnow Hcur [[_ ->]|(b & n & _ & Hstart & Hn & Hdur & ->)].
  - split; [apply Qle_refl|assumption].
  - pose proof (clockReading_max _ _ Hnow Hcur) as Hmax. rewrite <- Hstart in Hmax.
    destruct (rounded_end (startTime b) n Hmax Hn) as (Hle & Hread & _).
    rewrite Hdur. split; [|exact Hread].
    apply Qle_trans with (startTime b); [|exact Hle].
    rewrite Hstart. apply Q.le_max_r.
Qed.

(** Rounding the end of a segment loses at most one part in [2^53]. *)
Lemma rounded_end_error start samples :
  clockReading start -> (0 < samples)%nat ->
  let dur := Double.div (inject_Z (Z.of_nat samples)) 24000 in
  (start + dur - Double.add start dur <= (start + dur) / 2 ^ 53)%Q.
Proof.
  intros Hs Hn dur.
  destruct (rounded_end start samples Hs Hn) as (_ & _ & Hnormal). fold dur in Hnormal.
  pose proof (DoubleFacts.round_error _ Hnormal) as Herr.
  unfold Double.add.
  pose proof (Qle_Qabs (- (Double.round (start + dur) - (start + dur)))) as Habs.
  rewrite Qabs_opp in Habs. lra.
Qed.

Lemma deliverAll_cons cl d ds s :
  deliverAll cl (d :: ds) s = deliverAll cl ds (deliver cl d s).
Proof. reflexivity. Qed.

(** The schedule of a sequence of messages. *)
Lemma deliverAll_schedule cl ds s :
  Forall (fun d => clockReading (atTime d)) ds ->
  clockReading (nextStartTimeRef s) ->
  clockReading (nextStartTimeRef (deliverAll cl ds s))
  /\ (nextStartTimeRef s <= nextStartTimeRef (deliverAll cl ds s))%Q
  /\ exists new,
       sources (world (deliverAll cl ds s)) = sources (world s) ++ new
       /\ chained followsCursor new
       /\ chained overlapsWithinRounding new
       /\ Forall (fun b =>
                    (nextStartTimeRef s <= startTime b)%Q
                    /\ (Double.add (startTime b) (duration b)
                        <= nextStartTimeRef (deliverAll cl ds s))%Q) new.
Proof.
  intros Hds. revert s. induction Hds as [|d ds Hd Hds IH]; intros s Hcur.
  - split; [assumption|]. split; [apply Qle_refl|].
    exists []. simpl. rewrite app_nil_r. auto.
  - rewrite deliverAll_cons.
    pose proof (deliver_scheduledBy cl d s) as Hsch.
    destruct (scheduledBy_cursor _ _ _ Hd Hcur Hsch) as [Hmono Hread].
    destruct (IH (deliver cl d s) Hread) as (Hfin & Hle & new & Hsrc & Hcont & Hover & Hall).
    split; [assumption|]. split; [eapply Qle_trans; eassumption|].
    destruct Hsch as [[Hsame Hnext]|(b & n & Hb & Hstart & Hn & Hdur & Hnext)].
    + exists new. rewrite Hsrc, Hsame. repeat split; [assumption..|].
      rewrite Hnext in Hall. exact Hall.
    + pose proof (clockReading_max _ _ Hd Hcur) as Hmax. rewrite <- Hstart in Hmax.
      exists (b :: new). rewrite Hsrc, Hb, <- app_assoc. simpl.
      repeat split.
      * destruct new as [|b' new']; [exact I|].
        apply Forall_inv in Hall. unfold followsCursor.
        rewrite <- Hnext. apply Hall.
      * exact Hcont.
      * destruct new as [|b' new']; [exact I|].
        apply Forall_inv in Hall. destruct Hall as [Hall _].
        rewrite Hnext in Hall. unfold overlapsWithinRounding.
        pose proof (rounded_end_error (startTime b) n Hmax Hn) as Herr.
        cbv zeta in Herr. rewrite <- Hdur in Herr. lra.
      * exact Hover.
      * constructor.
        -- split; [rewrite Hstart; apply Q.le_max_r|].
           rewrite <- Hnext. exact Hle.
        -- eapply Forall_impl; [exact Hall|].
           intros b' [H1 H2]. split; [|exact H2].
           eapply Qle_trans; eassumption.
Qed.

(** The doubles of a quotient and of a sum of the playback clock, as the
    hardware gives them. *)
Example doubles_of_the_clock :
  (Double.div 960 24000 == 5764607523034235 # 144115188075855872)%Q
  /\ (Double.div 1 24000 == 6148914691236517 # 147573952589676412928)%Q
  /\ (Double.add (Double.div 1 10) (Double.div 2 10)
      == 5404319552844596 # 18014398509481984)%Q
  /\ (Double.add (5764607523034235 # 72057594037927936)
                 (5764607523034235 # 144115188075855872)
      == 1080863910568919 # 9007199254740992)%Q.
Proof. repeat split; vm_compute; reflexivity. Qed.

(** Two frames of three samples, the first arriving at 1/2 s with the
    cursor at 0, the second right after: the first starts at 1/2, the second
    at the sum of 1/2 and the duration of the first. *)
Example two_deltas_play_back_to_back :
  let frame := mkLiveServerMessage (Some (lit "AAAA/38A")) None None false in
  let s := deliverAll someClosure
             [mkDelivery (1 # 2) 1 frame; mkDelivery (1 # 2) 2 frame]
             (startAndOpen (mkEnv MicGranted DisplayDeclined) 0 (initialState 0)) in
  Forall2 (fun b t => (startTime b == fst t)%Q /\ (duration b == snd t)%Q)
    (sources (world s))
    [(1 # 2, Double.div 3 24000);
     (Double.add (1 # 2) (Double.div 3 24000), Double.div 3 24000)]
  /\ (Double.div 3 24000 == 1152921504606847 # 9223372036854775808)%Q
  /\ sourcesRef s = [0%nat; 1%nat].
Proof.
  cbv zeta. split; [|split; [vm_compute; reflexivity|reflexivity]].
  vm_compute. repeat constructor.
Qed.

(** Four frames of 960 samples, 40 ms each, arriving together with the
    cursor at 0: the third segment starts at twice the duration of a frame,
    the sum of its start and its duration is rounded down, and the fourth
    segment starts before the third has ended. *)
Lemma rounded_cursor_lets_segments_overlap :
  let frame :=
    mkLiveServerMessage (Some (concat (repeat (lit "AAAA") 640))) None None false in
  let s := deliverAll someClosure (repeat (mkDelivery 0 1 frame) 4)
             (startAndOpen (mkEnv MicGranted DisplayDeclined) 0 (initialState 0)) in
  exists a b,
    sources (world s) !! 2%nat = Some a
    /\ sources (world s) !! 3%nat = Some b
    /\ (startTime a == 5764607523034235 # 72057594037927936)%Q
    /\ (duration a == 5764607523034235 # 144115188075855872)%Q
    /\ (startTime b == 1080863910568919 # 9007199254740992)%Q
    /\ (startTime b < startTime a + duration a)%Q
    /\ ~ follows a b
    /\ ~ contiguous (sources (world s)).
Proof.
  cbv zeta.
  remember (sources (world (deliverAll _ _ _))) as l eqn:E.
  vm_compute in E. subst l.
  eexists _, _. split; [reflexivity|]. split; [reflexivity|].
  cbn [startTime duration].
  repeat split; try reflexivity.
  - intros H. apply Qle_not_lt in H. apply H. reflexivity.
  - intros (_ & _ & H & _). apply Qle_not_lt in H. apply H. reflexivity.
Qed.

Lemma zero_is_a_reading : clockReading 0.
Proof. split; [discriminate|reflexivity]. Qed.

Lemma cleanupAudio_cursor s : nextStartTimeRef (cleanupAudio s) = 0%Q.
Proof.
  destruct s as [? ? ? ? ? ? ? ? ? ? ? pr sr ? ? ? ? ? ? ? ? ?].
  unfold cleanupAudio. destruct pr, sr; reflexivity.
Qed.

(** The cursor is a reading of the clock whatever the handlers that have
    run. *)
Lemma phase_cursor s ph :
  carriesReading ph -> clockReading (nextStartTimeRef s) ->
  clockReading (nextStartTimeRef (phase s ph)).
Proof.
  intros Ho Hs.
  assert (Hclean : forall s0, clockReading (nextStartTimeRef (cleanupAudio s0))).
  { intros s0. rewrite cleanupAudio_cursor. apply zero_is_a_reading. }
  destruct ph as [|p [|m]|p mixer [[|]|]|cl [clock|d|inputData rms|source]|cl x];
    cbn [phase].
  - destruct (isActive s); [apply Hclean|exact Hs].
  - unfold onMicrophoneAnswer. destruct (useSystemAudioOf p); exact Hs.
  - apply Hclean.
  - exact Hs.
  - exact Hs.
  - exact Hs.
  - exact Hs.
  - cbn [sessionStep]. eapply scheduledBy_cursor; [exact Ho|exact Hs|].
    apply deliver_scheduledBy.
  - cbn [sessionStep]. destruct (onaudioprocess cl inputData rms s) as [s'|e] eqn:E.
    + unfold onaudioprocess in E.
      destruct (frameToWire _) as [base64|e]; [|discriminate].
      cbn in E. injection E as <-. exact Hs.
    + exact Hs.
  - exact Hs.
  - destruct x as [| |m]; apply Hclean.
Qed.

Lemma phases_cursor phs s :
  Forall carriesReading phs -> clockReading (nextStartTimeRef s) ->
  clockReading (nextStartTimeRef (phases phs s)).
Proof.
  intros Hphs. revert s. induction Hphs as [|ph phs Hph Hphs IH]; intros s Hs.
  - exact Hs.
  - apply IH. now apply phase_cursor.
Qed.

(** C1, amended.  Every audio delta that is played is scheduled at
    [max(outCtx.currentTime, nextStartTime)], and [nextStartTime] becomes
    the sum of that start and the duration of the segment as the language
    computes it: rounded to a double, and the duration itself the rounded
    quotient of the number of samples by 24000.  The clock readings being
    doubles that are not negative, the cursor is one as well in every state
    the handlers can reach, and as long as it stays finite: over any
    sequence of messages of a session the cursor never decreases; each
    segment scheduled starts no earlier than the value the cursor took after
    the one before; and it starts before the end of the one before by at
    most one part in [2^53] of that end.  Segments are not contiguous in
    exact arithmetic. *)
Theorem playback_follows_the_rounded_cursor
    (cl : Closure) (ds : list Delivery) (s : State) :
  Forall (fun d => clockReading (atTime d)) ds ->
  clockReading (nextStartTimeRef s) ->
  (nextStartTimeRef (deliverAll cl ds s) < 2 ^ 1024)%Q ->
  (forall d s0, scheduledBy d s0 (deliver cl d s0))
  /\ (forall c phs, Forall carriesReading phs ->
        clockReading (nextStartTimeRef (phases phs (initialState c))))
  /\ (nextStartTimeRef s <= nextStartTimeRef (deliverAll cl ds s))%Q
  /\ exists new,
       sources (world (deliverAll cl ds s)) = sources (world s) ++ new
       /\ chained followsCursor new
       /\ chained overlapsWithinRounding new
       /\ Forall (fun b =>
                    (nextStartTimeRef s <= startTime b)%Q
                    /\ (Double.add (startTime b) (duration b)
                        <= nextStartTimeRef (deliverAll cl ds s))%Q) new.
Proof.
  intros Hds Hs _.
  split; [intros d s0; apply deliver_scheduledBy|].
  split.
  { intros c phs Hphs. apply phases_cursor; [exact Hphs|].
    apply zero_is_a_reading. }
  destruct (deliverAll_schedule cl ds s Hds Hs) as (_ & Hle & Hnew).
  split; assumption.
Qed.

Lemma playback_follows_the_rounded_cursor_witness :
  let frame :=
    mkLiveServerMessage (Some (concat (repeat (lit "AAAA") 640))) None None false in
  let ds := repeat (mkDelivery 0 1 frame) 4 in
  let s := startAndOpen (mkEnv MicGranted DisplayDeclined) 0 (initialState 0) in
  Forall (fun d => clockReading (atTime d)) ds
  /\ clockReading (nextStartTimeRef s)
  /\ (nextStartTimeRef (deliverAll someClosure ds s) < 2 ^ 1024)%Q
  /\ (nextStartTimeRef s <= nextStartTimeRef (deliverAll someClosure ds s))%Q
  /\ exists new,
       sources (world (deliverAll someClosure ds s)) = sources (world s) ++ new
       /\ chained followsCursor new
       /\ chained overlapsWithinRounding new.
Proof.
  cbv zeta.
  assert (Hds : Forall (fun d => clockReading (atTime d))
                  (repeat (mkDelivery 0 1
                             (mkLiveServerMessage
                                (Some (concat (repeat (lit "AAAA") 640)))
                                None None false)) 4)).
  { cbn [repeat]. repeat (constructor; [apply zero_is_a_reading|]). constructor. }
  assert (Hs : clockReading
                 (nextStartTimeRef
                    (startAndOpen (mkEnv MicGranted DisplayDeclined) 0
                       (initialState 0)))).
  { split; [discriminate|reflexivity]. }
  assert (Hfin : (nextStartTimeRef
                    (deliverAll someClosure
                       (repeat (mkDelivery 0 1
                                  (mkLiveServerMessage
                                     (Some (concat (repeat (lit "AAAA") 640)))
                                     None None false)) 4)
                       (startAndOpen (mkEnv MicGranted DisplayDeclined) 0
                          (initialState 0))) < 2 ^ 1024)%Q).
  { vm_compute. reflexivity. }
  split; [exact Hds|]. split; [exact Hs|]. split; [exact Hfin|].
  destruct (playback_follows_the_rounded_cursor someClosure _ _ Hds Hs Hfin)
    as (_ & _ & Hle & new & Hsrc & Hcur & Hover & _).
  split; [exact Hle|]. exists new. repeat split; assumption.
Defined.

(** ** Teardown *)

Section FoldAlter.

Context {A : Type} (f : A -> A).
Hypothesis f_idem : forall x, f (f x) = f x.

Lemma lookup_fold_alter (ids : list nat) (l : list A) (j : nat) :
  fold_left (fun l i => alter f i l) ids l !! j
  = if decide (j ∈ ids) then f <$> l !! j else l !! j.
Proof.
  revert l. induction ids as [|i ids IH]; intros l; simpl.
  - destruct (decide (j ∈ [])) as [H|_]; [inversion H|reflexivity].
  - rewrite IH.
    destruct (decide (i = j)) as [->|Hij].
    + rewrite list_lookup_alter_eq.
      destruct (decide (j ∈ j :: ids)) as [_|H]; [|exfalso; apply H; left].
      destruct (decide (j ∈ ids)); destruct (l !! j); simpl;
        rewrite ?f_idem; reflexivity.
    + rewrite list_lookup_alter_ne by exact Hij.
      destruct (decide (j ∈ ids)) as [H|H];
        destruct (decide (j ∈ i :: ids)) as [H'|H']; try reflexivity.
      * exfalso. apply H'. now right.
      * exfalso. apply H. inversion H'; subst; [congruence|assumption].
Qed.

End FoldAlter.

Lemma fold_stopStream ids w :
  fold_left (fun w i => stopStream i w) ids w
  = set_streams (fold_left (fun l i => alter stopTracks i l) ids (streams w)) w.
Proof.
  revert w. induction ids as [|i ids IH]; intros w; simpl.
  - now destruct w.
  - rewrite IH. reflexivity.
Qed.

Lemma fold_stopSource ids w :
  fold_left (fun w i => stopSource i w) ids w
  = set_sources
      (fold_left
         (fun l i => alter (fun b => mkBufferSource (startTime b) (duration b)
                                       (viaGain b) true) i l)
         ids (sources w)) w.
Proof.
  revert w. induction ids as [|i ids IH]; intros w; simpl.
  - now destruct w.
  - rewrite IH. reflexivity.
Qed.

Lemma stopTracks_idem tracks : stopTracks (stopTracks tracks) = stopTracks tracks.
Proof. unfold stopTracks. rewrite map_map. reflexivity. Qed.

Lemma stopTracks_stopped tracks : forallb trackStopped (stopTracks tracks) = true.
Proof. induction tracks as [|t r IH]; simpl; [reflexivity|exact IH]. Qed.

(** The cells [cleanupAudio] assigns, whatever the state. *)
Lemma cleanupAudio_cells s :
  mediaStreamsRef (cleanupAudio s) = []
  /\ processorRef (cleanupAudio s) = None
  /\ inputContextRef (cleanupAudio s) = None
  /\ audioContextRef (cleanupAudio s) = None
  /\ outputGainRef (cleanupAudio s) = None
  /\ sessionRef (cleanupAudio s) = None
  /\ sourcesRef (cleanupAudio s) = []
  /\ isActive (cleanupAudio s) = false
  /\ nextStartTimeRef (cleanupAudio s) = 0%Q
  /\ volume (cleanupAudio s) = 0%Q
  /\ streamingInput (cleanupAudio s) = []
  /\ turnLanguageDetectedRef (cleanupAudio s) = false.
Proof.
  destruct s as [? ? ? ? ? ? ? ? ? ? ? pr sr ? ? ? ? ? ? ? ? ?].
  unfold cleanupAudio. destruct pr, sr; cbn; repeat split; reflexivity.
Qed.

(** A state in which nothing is held is left as it is. *)
Lemma cleanupAudio_fixpoint s :
  mediaStreamsRef s = [] -> processorRef s = None ->
  inputContextRef s = None -> audioContextRef s = None ->
  outputGainRef s = None -> sessionRef s = None -> sourcesRef s = [] ->
  isActive s = false -> nextStartTimeRef s = 0%Q -> volume s = 0%Q ->
  streamingInput s = [] -> turnLanguageDetectedRef s = false ->
  cleanupAudio s = s.
Proof.
  destruct s as [? ? ? ? ? ? ? ? ? ? ? ? ? ? ? ? ? ? ? [? ? ? ? ?] ? ?].
  cbn. intros; subst. reflexivity.
Qed.

Lemma cleanupAudio_idempotent s : cleanupAudio (cleanupAudio s) = cleanupAudio s.
Proof.
  destruct (cleanupAudio_cells s)
    as (? & ? & ? & ? & ? & ? & ? & ? & ? & ? & ? & ?).
  now apply cleanupAudio_fixpoint.
Qed.

Lemma cleanupAudio_streams s :
  streams (world (cleanupAudio s))
  = fold_left (fun l i => alter stopTracks i l) (mediaStreamsRef s)
      (streams (world s)).
Proof.
  destruct s as [? ? ? ? ? ? ? ? ? ? ? pr sr ? ? ? ? ? ? ? ? ?].
  unfold cleanupAudio. destruct pr, sr; cbn;
    rewrite fold_stopSource; cbn;
    repeat match goal with
      | |- context [closeUnlessClosed ?r ?w] =>
          let H := fresh in
          assert (H : streams (closeUnlessClosed r w) = streams w)
            by (unfold closeUnlessClosed; repeat case_match; reflexivity);
          rewrite H; clear H; cbn
      end;
    rewrite fold_stopStream; reflexivity.
Qed.

Lemma cleanupAudio_processors s :
  processors (world (cleanupAudio s))
  = match processorRef s with
    | Some p => alter (fun x => mkProcessor false (procInputs x) (procHandler x)) p
                  (processors (world s))
    | None => processors (world s)
    end.
Proof.
  destruct s as [? ? ? ? ? ? ? ? au ic ? pr sr ? ? ? ? ? ? w ? ?].
  unfold cleanupAudio. destruct pr, sr; cbn;
    rewrite fold_stopSource; cbn;
    destruct au, ic; cbn; repeat case_match; cbn;
    rewrite fold_stopStream; reflexivity.
Qed.

Lemma cleanupAudio_sessions s :
  sessions (world (cleanupAudio s))
  = match sessionRef s with
    | Some h => alter (fun l => mkLiveSession (systemInstructionOf l)
                                  (sentRealtimeInput l) true) h
                  (sessions (world s))
    | None => sessions (world s)
    end.
Proof.
  destruct s as [? ? ? ? ? ? ? ? au ic ? pr sr ? ? ? ? ? ? w ? ?].
  unfold cleanupAudio. destruct pr, sr; cbn;
    rewrite fold_stopSource; cbn;
    destruct au, ic; cbn; repeat case_match; cbn;
    rewrite fold_stopStream; reflexivity.
Qed.

Lemma cleanupAudio_sources s :
  sources (world (cleanupAudio s))
  = fold_left
      (fun l i => alter (fun b => mkBufferSource (startTime b) (duration b)
                                    (viaGain b) true) i l)
      (sourcesRef s) (sources (world s)).
Proof.
  destruct s as [? ? ? ? ? ? ? ? au ic ? pr sr ? ? ? ? ? ? w ? ?].
  unfold cleanupAudio. destruct pr, sr; cbn;
    rewrite fold_stopSource; cbn;
    destruct au, ic; cbn; repeat case_match; cbn;
    rewrite fold_stopStream; reflexivity.
Qed.

Lemma cleanupAudio_contexts s :
  exists w1,
    contexts w1 = contexts (world s)
    /\ contexts (world (cleanupAudio s))
       = contexts (closeUnlessClosed (audioContextRef s)
                     (closeUnlessClosed (inputContextRef s) w1)).
Proof.
  destruct s as [? ? ? ? ? ? ? ? au ic ms pr sr ? ? ? ? ? ? w ? ?].
  unfold cleanupAudio. destruct pr as [p|]; cbn.
  - exists (disconnectProcessor p
              (fold_left (fun w i => stopStream i w) ms w)).
    split; [cbn; rewrite fold_stopStream; reflexivity|].
    destruct sr; cbn; rewrite fold_stopSource; reflexivity.
  - exists (fold_left (fun w i => stopStream i w) ms w).
    split; [rewrite fold_stopStream; reflexivity|].
    destruct sr; cbn; rewrite fold_stopSource; reflexivity.
Qed.

Lemma contextClosed_ext w w' i :
  contexts w = contexts w' -> contextClosed w i = contextClosed w' i.
Proof. unfold contextClosed. now intros ->. Qed.

Lemma closeUnlessClosed_self i w :
  contextClosed (closeUnlessClosed (Some i) w) i = true.
Proof.
  unfold closeUnlessClosed, contextClosed.
  destruct (contexts w !! i) as [[|]|] eqn:E; cbn.
  - rewrite list_lookup_alter_eq, E. reflexivity.
  - now rewrite E.
  - rewrite list_lookup_alter_eq, E. reflexivity.
Qed.

Lemma closeUnlessClosed_keeps ref w i :
  contextClosed w i = true -> contextClosed (closeUnlessClosed ref w) i = true.
Proof.
  unfold closeUnlessClosed, contextClosed. intros H.
  destruct ref as [j|]; [|exact H].
  destruct (contexts w !! j) as [[|]|] eqn:E; cbn; try exact H.
  - rewrite list_lookup_alter. case_decide; subst.
    + now rewrite E.
    + exact H.
  - rewrite list_lookup_alter. case_decide; subst.
    + now rewrite E.
    + exact H.
Qed.

Lemma forallb_lookup {A} (f : A -> bool) (l : list A) :
  forallb f l = true
  <-> forall i, match l !! i with Some x => f x | None => true end = true.
Proof.
  induction l as [|x l IH]; simpl.
  - split; [intros _ i; now destruct i|reflexivity].
  - rewrite andb_true_iff, IH. split.
    + intros [Hx Hl] [|i]; [exact Hx|apply Hl].
    + intros H. split; [apply (H 0%nat)|intros i; apply (H (S i))].
Qed.

Lemma quiescent_lookup w :
  quiescent w = true
  <-> forall i,
        streamStopped w i = true /\ processorDisconnected w i = true
        /\ contextClosed w i = true /\ sessionIsClosed w i = true
        /\ sourceIsStopped w i = true.
Proof.
  unfold quiescent. rewrite !andb_true_iff, !forallb_lookup.
  unfold streamStopped, processorDisconnected, contextClosed, sessionIsClosed,
    sourceIsStopped.
  split.
  - intros [[[[H1 H2] H3] H4] H5] i. repeat split; auto.
  - intros H. repeat split; intros i; apply (H i).
Qed.

(** After teardown nothing that was tracked is left running. *)
Lemma cleanupAudio_quiescent s : tracked s -> quiescent (world (cleanupAudio s)) = true.
Proof.
  intros Ht. apply quiescent_lookup. intros i.
  destruct (Ht i) as (Hst & Hpr & Hcx & Hse & Hso).
  repeat split.
  - unfold streamStopped in *. rewrite cleanupAudio_streams.
    rewrite (lookup_fold_alter _ stopTracks_idem).
    destruct (decide (i ∈ mediaStreamsRef s)) as [Hin|Hout].
    + destruct (streams (world s) !! i); simpl; [apply stopTracks_stopped|reflexivity].
    + destruct (streams (world s) !! i) as [tracks|]; [|reflexivity].
      destruct (forallb trackStopped tracks) eqn:E; [reflexivity|].
      exfalso. apply Hout, Hst. reflexivity.
  - unfold processorDisconnected in *. rewrite cleanupAudio_processors.
    destruct (processorRef s) as [p|].
    + rewrite list_lookup_alter. case_decide; subst.
      * destruct (processors (world s) !! i); reflexivity.
      * destruct (processors (world s) !! i) as [x|]; [|reflexivity].
        destruct (procConnected x); [|reflexivity].
        exfalso. specialize (Hpr eq_refl). congruence.
    + destruct (processors (world s) !! i) as [x|]; [|reflexivity].
      destruct (procConnected x); [|reflexivity]. now specialize (Hpr eq_refl).
  - destruct (cleanupAudio_contexts s) as (w1 & Hw1 & Hctx).
    rewrite (contextClosed_ext _ _ i Hctx).
    destruct (contextClosed (world s) i) eqn:E.
    + apply closeUnlessClosed_keeps, closeUnlessClosed_keeps.
      now rewrite (contextClosed_ext _ _ i Hw1).
    + destruct (Hcx eq_refl) as [-> | ->].
      * apply closeUnlessClosed_keeps, closeUnlessClosed_self.
      * apply closeUnlessClosed_self.
  - unfold sessionIsClosed in *. rewrite cleanupAudio_sessions.
    destruct (sessionRef s) as [h|].
    + rewrite list_lookup_alter. case_decide; subst.
      * destruct (sessions (world s) !! i); reflexivity.
      * destruct (sessions (world s) !! i) as [x|]; [|reflexivity].
        destruct (sessionClosed x); [reflexivity|].
        exfalso. specialize (Hse eq_refl). congruence.
    + destruct (sessions (world s) !! i) as [x|]; [|reflexivity].
      destruct (sessionClosed x); [reflexivity|]. now specialize (Hse eq_refl).
  - unfold sourceIsStopped in *. rewrite cleanupAudio_sources.
    rewrite lookup_fold_alter by reflexivity.
    destruct (decide (i ∈ sourcesRef s)) as [Hin|Hout].
    + destruct (sources (world s) !! i); reflexivity.
    + destruct (sources (world s) !! i) as [b|]; [|reflexivity].
      destruct (sourceStopped b) eqn:E; [reflexivity|].
      exfalso. apply Hout, Hso. reflexivity.
Qed.

(** Whatever the refs hold, and whether or not it exists, is released by
    teardown. *)
Lemma cleanupAudio_released s : released s (world (cleanupAudio s)) = true.
Proof.
  unfold released. rewrite !andb_true_iff. repeat split.
  - apply forallb_forall. intros i Hi. apply list_elem_of_In in Hi.
    unfold streamStopped. rewrite cleanupAudio_streams.
    rewrite (lookup_fold_alter _ stopTracks_idem).
    destruct (decide (i ∈ mediaStreamsRef s)); [|contradiction].
    destruct (streams (world s) !! i); simpl; [apply stopTracks_stopped|reflexivity].
  - unfold whenSome, processorDisconnected. rewrite cleanupAudio_processors.
    destruct (processorRef s) as [p|]; [|reflexivity].
    rewrite list_lookup_alter_eq. destruct (processors (world s) !! p); reflexivity.
  - destruct (cleanupAudio_contexts s) as (w1 & Hw1 & Hctx).
    unfold whenSome. destruct (inputContextRef s) as [i|]; [|reflexivity].
    rewrite (contextClosed_ext _ _ i Hctx).
    apply closeUnlessClosed_keeps, closeUnlessClosed_self.
  - destruct (cleanupAudio_contexts s) as (w1 & Hw1 & Hctx).
    unfold whenSome. destruct (audioContextRef s) as [i|]; [|reflexivity].
    rewrite (contextClosed_ext _ _ i Hctx).
    apply closeUnlessClosed_self.
  - unfold whenSome, sessionIsClosed. rewrite cleanupAudio_sessions.
    destruct (sessionRef s) as [h|]; [|reflexivity].
    rewrite list_lookup_alter_eq. destruct (sessions (world s) !! h); reflexivity.
  - apply forallb_forall. intros i Hi. apply list_elem_of_In in Hi.
    unfold sourceIsStopped. rewrite cleanupAudio_sources.
    rewrite lookup_fold_alter by reflexivity.
    destruct (decide (i ∈ sourcesRef s)); [|contradiction].
    destruct (sources (world s) !! i); reflexivity.
Qed.

Lemma cleanupAudio_outstanding s : outstanding (cleanupAudio s) = 0%nat.
Proof.
  destruct (cleanupAudio_cells s)
    as (H1 & H2 & H3 & H4 & H5 & H6 & H7 & _).
  unfold outstanding. now rewrite H1, H2, H3, H4, H5, H6, H7.
Qed.

Lemma quiescent_tracked s : quiescent (world s) = true -> tracked s.
Proof.
  intros H i. apply quiescent_lookup with (i := i) in H.
  destruct H as (H1 & H2 & H3 & H4 & H5).
  repeat split; congruence.
Qed.

Lemma tracked_initialState clock : tracked (initialState clock).
Proof. now apply quiescent_tracked. Qed.

(** [tracked] only reads the world and the six refs that hold objects. *)
Lemma tracked_ext s s' :
  world s' = world s -> mediaStreamsRef s' = mediaStreamsRef s ->
  processorRef s' = processorRef s -> inputContextRef s' = inputContextRef s ->
  audioContextRef s' = audioContextRef s -> sessionRef s' = sessionRef s ->
  sourcesRef s' = sourcesRef s ->
  tracked s -> tracked s'.
Proof.
  unfold tracked. intros -> -> -> -> -> -> -> H. exact H.
Qed.

Lemma onOutputTranscription_handles clock text s :
  handles (onOutputTranscription clock text s) = handles s.
Proof. unfold_turn. repeat case_match; reflexivity. Qed.

Lemma onInputTranscription_handles text s :
  handles (onInputTranscription text s) = handles s.
Proof. reflexivity. Qed.

Lemma onTurnComplete_handles clock s :
  handles (onTurnComplete clock s) = handles s.
Proof. unfold_turn. repeat case_match; reflexivity. Qed.

Lemma afterAudio_handles clock msg s :
  handles (afterAudio clock msg s) = handles s.
Proof.
  unfold afterAudio.
  destruct (outputTranscription msg) as [t|], (inputTranscription msg) as [t'|],
    (turnComplete msg);
    rewrite ?onTurnComplete_handles, ?onInputTranscription_handles,
      ?onOutputTranscription_handles; reflexivity.
Qed.

Lemma tracked_afterAudio clock msg s : tracked s -> tracked (afterAudio clock msg s).
Proof.
  pose proof (afterAudio_handles clock msg s) as H.
  unfold handles in H. injection H as ? ? ? ? ? ? ?.
  now apply tracked_ext.
Qed.

Lemma tracked_playAudio cl now data s s1 :
  playAudio cl now data s = Ok s1 -> tracked s -> tracked s1.
Proof.
  unfold playAudio.
  destruct (base64ToArrayBuffer data) as [bufferData|e]; [simpl|discriminate].
  destruct (decode bufferData) as [float32Data|e]; [simpl|discriminate].
  destruct (length float32Data =? 0)%nat; [discriminate|].
  intros [= <-] Ht i. destruct (Ht i) as (H1 & H2 & H3 & H4 & H5).
  repeat split; try assumption. cbn.
  unfold sourceIsStopped. cbn. intros Hi.
  apply elem_of_app.
  destruct (sources (world s) !! i) as [b|] eqn:E.
  - left. apply H5. unfold sourceIsStopped. rewrite E.
    rewrite lookup_app_l in Hi by (eapply lookup_lt_Some; eassumption).
    now rewrite E in Hi.
  - right. apply lookup_ge_None in E.
    destruct ((sources (world s) ++ _) !! i) as [b|] eqn:E'; [|discriminate].
    apply lookup_lt_Some in E'. rewrite length_app in E'. simpl in E'.
    replace i with (length (sources (world s))) by lia. left.
Qed.

Lemma tracked_log e s : tracked s -> tracked (log e s).
Proof. apply tracked_ext; reflexivity. Qed.

Lemma tracked_deliver cl d s : tracked s -> tracked (deliver cl d s).
Proof.
  intros Ht. unfold deliver. rewrite onmessage_afterAudio.
  destruct (audioData (message d)) as [data|]; [destruct (truthy data)|]; simpl;
    try now apply tracked_afterAudio.
  destruct (playAudio cl (atTime d) data s) as [s1|e] eqn:E; simpl.
  - eapply tracked_afterAudio, tracked_playAudio; eassumption.
  - now apply tracked_log.
Qed.

Lemma tracked_onopen cl clock s : tracked s -> tracked (onopen cl clock s).
Proof.
  intros Ht i. destruct (Ht i) as (H1 & H2 & H3 & H4 & H5).
  repeat split; try assumption.
  cbn. unfold processorDisconnected in *. cbn.
  rewrite list_lookup_alter. case_decide; subst; [|exact H2].
  destruct (processors (world s) !! _); exact H2.
Qed.

Lemma tracked_onaudioprocess cl inputData rms s s' :
  onaudioprocess cl inputData rms s = Ok s' -> tracked s -> tracked s'.
Proof.
  unfold onaudioprocess.
  destruct (frameToWire _) as [base64|e]; [simpl|discriminate].
  intros [= <-] Ht i. destruct (Ht i) as (H1 & H2 & H3 & H4 & H5).
  repeat split; try assumption.
  cbn. unfold sessionIsClosed in *. cbn.
  rewrite list_lookup_alter. case_decide; subst; [|exact H4].
  destruct (sessions (world s) !! _); exact H4.
Qed.

Lemma tracked_ended source s :
  tracked s -> tracked (onended source (with_world (stopSource source) s)).
Proof.
  intros Ht i. destruct (Ht i) as (H1 & H2 & H3 & H4 & H5).
  repeat split; try assumption.
  cbn. unfold sourceIsStopped in *. cbn.
  rewrite list_lookup_alter. case_decide; subst.
  - destruct (sources (world s) !! _); discriminate.
  - intros Hi. apply list_elem_of_In, filter_In. split.
    + apply list_elem_of_In, H5, Hi.
    + apply negb_true_iff, Nat.eqb_neq. congruence.
Qed.

Lemma tracked_sessionStep cl e s : tracked s -> tracked (sessionStep cl s e).
Proof.
  intros Ht. destruct e as [clock|d|inputData rms|source]; simpl.
  - now apply tracked_onopen.
  - now apply tracked_deliver.
  - destruct (onaudioprocess cl inputData rms s) as [s'|e] eqn:E.
    + eapply tracked_onaudioprocess; eassumption.
    + now apply tracked_log.
  - now apply tracked_ended.
Qed.

Lemma tracked_sessionRun cl es s : tracked s -> tracked (sessionRun cl es s).
Proof.
  revert s. induction es as [|e es IH]; intros s Ht; [exact Ht|].
  apply IH, tracked_sessionStep, Ht.
Qed.

Lemma live_app {A} (f : A -> bool) (l ext : list A) (i : nat) :
  match (l ++ ext) !! i with Some x => f x | None => true end = false ->
  match l !! i with Some x => f x | None => true end = false
  \/ (length l <= i < length l + length ext)%nat.
Proof.
  intros H. destruct (l !! i) as [x|] eqn:E.
  - left. rewrite lookup_app_l in H by (eapply lookup_lt_Some; eassumption).
    now rewrite E in H.
  - right. apply lookup_ge_None in E.
    destruct ((l ++ ext) !! i) as [x|] eqn:E'; [|discriminate].
    apply lookup_lt_Some in E'. rewrite length_app in E'. lia.
Qed.

Lemma outstanding_zero s :
  outstanding s = 0%nat ->
  mediaStreamsRef s = [] /\ processorRef s = None /\ inputContextRef s = None
  /\ audioContextRef s = None /\ outputGainRef s = None /\ sessionRef s = None
  /\ sourcesRef s = [].
Proof.
  unfold outstanding, held.
  destruct (mediaStreamsRef s), (processorRef s), (inputContextRef s),
    (audioContextRef s), (outputGainRef s), (sessionRef s), (sourcesRef s);
    simpl; intros H; try lia; repeat split; reflexivity.
Qed.

(** A live object found by [tracked] in a state that holds nothing. *)
Ltac absurd_live :=
  match goal with
  | Hk : ?P -> _, Hl : ?P |- _ =>
      specialize (Hk Hl);
      first [ discriminate Hk
            | now apply elem_of_nil in Hk
            | now destruct Hk ]
  end.

Lemma tracked_connect env s :
  tracked s -> outstanding s = 0%nat -> tracked (fst (connect env s)).
Proof.
  intros Ht Hidle.
  destruct (outstanding_zero s Hidle) as (Hm & Hp & Hi & Ha & Hg & Hs & Hso).
  destruct s as [? ? ? ? ? usa ? ? au ic ms pr sr ? so og ? ? ? [cx st ps ss srcs] ? ?].
  cbn in Hm, Hp, Hi, Ha, Hg, Hs, Hso. subst.
  unfold connect. cbn.
  destruct (getUserMedia env) as [|msg].
  - unfold acquireSystemAudio. cbn.
    destruct usa; [destruct (getDisplayMedia env) as [[|]|]|]; cbn.
    all: intros i; destruct (Ht i) as (H1 & H2 & H3 & H4 & H5); cbn in *.
    all: unfold streamStopped, processorDisconnected, contextClosed,
           sessionIsClosed, sourceIsStopped in *; cbn in *.
    all: repeat split; try assumption.
    all: intros Hlive.
    all: repeat match goal with
           | H : _ \/ _ |- _ => destruct H
           | H : match (_ ++ _) !! _ with _ => _ end = false |- _ =>
               apply live_app in H; cbn in H
           end.
    all: try absurd_live.
    all: rewrite ?length_app in *; cbn [length] in *.
    all: try (apply list_elem_of_In; simpl; lia).
    all: try (f_equal; lia).
    all: assert (i = length cx \/ i = S (length cx)) as [->| ->] by lia; auto.
  - apply quiescent_tracked, cleanupAudio_quiescent.
    intros i; destruct (Ht i) as (H1 & H2 & H3 & H4 & H5); cbn in *.
    unfold streamStopped, processorDisconnected, contextClosed,
      sessionIsClosed, sourceIsStopped in *; cbn in *.
    repeat split; try assumption.
    intros Hlive. apply live_app in Hlive. cbn in Hlive.
    destruct Hlive as [Hlive|Hlive]; [absurd_live|].
    assert (i = length cx \/ i = S (length cx)) as [->| ->] by lia; auto.
Qed.

(** [released] reads the refs only. *)
Lemma released_handles s0 s w :
  handles s0 = handles s -> released s w = released s0 w.
Proof.
  unfold handles, released. intros [= _ -> -> -> -> -> ->]. reflexivity.
Qed.

Lemma exitBy_cleanupAudio cl x s :
  exists s0, exitBy cl x s = cleanupAudio s0 /\ handles s0 = handles s.
Proof.
  destruct x as [| |m]; simpl; eexists; split; reflexivity.
Qed.

Lemma tracked_handles s0 s : handles s0 = handles s -> tracked s -> tracked s0.
Proof.
  unfold handles. intros [= ? ? ? ? ? ? ?]. now apply tracked_ext.
Qed.

Lemma connect_failure env s s1 :
  connect env s = (s1, None) -> tracked s -> outstanding s = 0%nat ->
  quiescent (world s1) = true /\ outstanding s1 = 0%nat.
Proof.
  intros E Ht Hidle.
  destruct (outstanding_zero s Hidle) as (Hm & Hp & Hi & Ha & Hg & Hs & Hso).
  destruct s as [? ? ? ? ? usa ? ? au ic ms pr sr ? so og ? ? ? [cx st ps ss srcs] ? ?].
  cbn in Hm, Hp, Hi, Ha, Hg, Hs, Hso. subst.
  unfold connect in E. cbn in E.
  destruct (getUserMedia env) as [|msg].
  - destruct (acquireSystemAudio _ _ _). discriminate.
  - injection E as <-. split; [|apply cleanupAudio_outstanding].
    apply cleanupAudio_quiescent.
    intros i; destruct (Ht i) as (H1 & H2 & H3 & H4 & H5); cbn in *.
    unfold streamStopped, processorDisconnected, contextClosed,
      sessionIsClosed, sourceIsStopped in *; cbn in *.
    repeat split; try assumption.
    intros Hlive. apply live_app in Hlive. cbn in Hlive.
    destruct Hlive as [Hlive|Hlive]; [absurd_live|].
    assert (i = length cx \/ i = S (length cx)) as [->| ->] by lia; auto.
Qed.

Lemma sessionLife_quiescent env es x s :
  tracked s -> outstanding s = 0%nat ->
  quiescent (world (sessionLife env es x s)) = true
  /\ outstanding (sessionLife env es x s) = 0%nat.
Proof.
  intros Ht Hidle.
  pose proof (tracked_connect env s Ht Hidle) as Ht1.
  unfold sessionLife. destruct (connect env s) as [s1 [cl|]] eqn:E; simpl in Ht1.
  - destruct (exitBy_cleanupAudio cl x (sessionRun cl es s1)) as (s0 & -> & Hs0).
    split; [|apply cleanupAudio_outstanding].
    eapply cleanupAudio_quiescent, tracked_handles; [exact Hs0|].
    apply tracked_sessionRun, Ht1.
  - eapply connect_failure; eassumption.
Qed.

(** ** The turn assembler *)

(** What [onTurnComplete] appends and what it clears, in full. *)
Lemma onTurnComplete_spec clock s :
  let i := currentInputTransRef s in
  let o := currentOutputTransRef s in
  let s' := onTurnComplete clock s in
  transcripts s'
  = transcripts s
    ++ (if nonBlank i then [userMessage clock i] else [])
    ++ (if nonBlank o then [modelMessage clock (stripLangTag o)] else [])
  /\ savedTranscripts s'
     = savedTranscripts s
       ++ (if nonBlank i then [(i, user, lit "live")] else [])
       ++ (if nonBlank o then [(stripLangTag o, model, lit "live")] else [])
  /\ currentInputTransRef s' = (if nonBlank i then [] else i)
  /\ streamingInput s' = (if nonBlank i then [] else streamingInput s)
  /\ currentOutputTransRef s' = (if nonBlank o then [] else o)
  /\ turnLanguageDetectedRef s'
     = (if nonBlank o then false else turnLanguageDetectedRef s).
Proof.
  destruct s as [? ? ? ? ? ? ? ? ? ? ? ? ? ? ? ? ? i o ? ? ?].
  unfold onTurnComplete, nonBlank, userMessage, modelMessage. cbn.
  destruct (truthy (trim i)); cbn; destruct (truthy (trim o)); cbn;
    rewrite ?app_nil_r, <- ?app_assoc; repeat split; reflexivity.
Qed.

Lemma deliver_inputDelta cl clock text s :
  deliver cl (inputDelta clock text) s = onInputTranscription (lit text) s.
Proof. reflexivity. Qed.

Lemma deliver_outputDelta cl clock text s :
  deliver cl (outputDelta clock text) s = onOutputTranscription clock (lit text) s.
Proof. reflexivity. Qed.

Lemma deliver_turnCompleted cl clock s :
  deliver cl (turnCompleted clock) s = onTurnComplete clock s.
Proof. reflexivity. Qed.

(** C3, as stated, fails: the message carries the accumulated input as it
    is.  After the delta [" Hi"] the message finalized at the end of the turn
    has the text [" Hi"], which is not the trimmed input ["Hi"]. *)
Lemma finalized_input_is_not_trimmed :
  let s := deliver someClosure (inputDelta 1 " Hi") (initialState 0) in
  let s' := deliver someClosure (turnCompleted 2) s in
  nonBlank (currentInputTransRef s) = true
  /\ transcripts s' = transcripts s ++ [userMessage 2 (lit " Hi")]
  /\ trim (currentInputTransRef s) = lit "Hi"
  /\ ~ (exists rest,
          transcripts s'
          = transcripts s ++ userMessage 2 (trim (currentInputTransRef s)) :: rest).
Proof.
  cbv zeta. repeat split; try reflexivity.
  intros [rest H]. vm_compute in H. discriminate H.
Qed.

(** C3, amended.  At the end of a turn a non-blank input accumulator gives
    exactly one user message, whose text is the accumulated input unchanged
    (blankness alone is tested on the trimmed text), and the accumulator and
    its preview are cleared; a blank one gives no user message.  Each channel
    is finalized at most once.  The deltas ["He"], ["llo"] and the end of the
    turn give one user message ["Hello"] and empty buffers. *)
Theorem turn_finalizes_input_once (cl : Closure) (clock : N) (s : State) :
  let i := currentInputTransRef s in
  let o := currentOutputTransRef s in
  let s' := deliver cl (turnCompleted clock) s in
  transcripts s'
  = transcripts s
    ++ (if nonBlank i then [userMessage clock i] else [])
    ++ (if nonBlank o then [modelMessage clock (stripLangTag o)] else [])
  /\ currentInputTransRef s' = (if nonBlank i then [] else i)
  /\ streamingInput s' = (if nonBlank i then [] else streamingInput s)
  /\ (i = [] -> o = [] ->
      forall c1 c2,
        let s2 := deliverAll cl [inputDelta c1 "He"; inputDelta c2 "llo";
                                 turnCompleted clock] s in
        transcripts s2 = transcripts s ++ [userMessage clock (lit "Hello")]
        /\ currentInputTransRef s2 = [] /\ streamingInput s2 = []
        /\ currentOutputTransRef s2 = []).
Proof.
  cbv zeta. rewrite deliver_turnCompleted.
  destruct (onTurnComplete_spec clock s) as (Ht & _ & Hi & Hs & _).
  split; [exact Ht|]. split; [exact Hi|]. split; [exact Hs|].
  intros Ei Eo c1 c2. unfold deliverAll. cbn [fold_left].
  rewrite !deliver_inputDelta, deliver_turnCompleted.
  set (s2 := onInputTranscription (lit "llo") (onInputTranscription (lit "He") s)).
  assert (Hin : currentInputTransRef s2 = lit "Hello")
    by (subst s2; cbn; rewrite Ei; reflexivity).
  assert (Hout : currentOutputTransRef s2 = [])
    by (subst s2; cbn; exact Eo).
  assert (Htr : transcripts s2 = transcripts s) by reflexivity.
  destruct (onTurnComplete_spec clock s2) as (Ht2 & _ & Hi2 & Hs2 & Ho2 & _).
  rewrite Hin, Hout, ?Htr in *.
  repeat split; assumption.
Qed.

Lemma turn_finalizes_input_once_witness :
  let s2 := deliverAll someClosure
              [inputDelta 1 "He"; inputDelta 2 "llo"; turnCompleted 3]
              (initialState 0) in
  transcripts s2 = transcripts (initialState 0) ++ [userMessage 3 (lit "Hello")]
  /\ currentInputTransRef s2 = [] /\ streamingInput s2 = []
  /\ currentOutputTransRef s2 = [].
Proof.
  apply (turn_finalizes_input_once someClosure 3 (initialState 0));
    reflexivity.
Defined.

(** ** The language tag *)

Example langMatch_examples :
  langMatch (lit "[LANG:English] Hi") = Some (lit "English")
  /\ langMatch (lit "[LANG:a]b]") = Some (lit "a")
  /\ langMatch (lit "[LANG:]") = Some []
  /\ langMatch (lit "[LANG:English") = None
  /\ langMatch (lit " [LANG:English]") = None
  /\ langMatch (lit "[LANG:En" ++ nl ++ lit "glish]") = None
  /\ langMatch (lit "[lang:English]") = None.
Proof. repeat split; reflexivity. Qed.

Example stripLangTag_examples :
  stripLangTag (lit "[LANG:English] Hi") = lit "Hi"
  /\ stripLangTag (lit "[LANG:English]  " ++ nl ++ lit " Hi ") = lit "Hi "
  /\ stripLangTag (lit "Hi [LANG:English]") = lit "Hi [LANG:English]"
  /\ stripLangTag (lit "[LANG:English") = lit "[LANG:English".
Proof. repeat split; reflexivity. Qed.


Lemma stripPrefix_app p s r t :
  stripPrefix p s = Some r -> stripPrefix p (s ++ t) = Some (r ++ t).
Proof.
  revert s. induction p as [|a p IH]; intros s; simpl.
  - now intros [= ->].
  - destruct s as [|b s]; [discriminate|]. simpl.
    destruct (a =? b); [apply IH|discriminate].
Qed.

Lemma lazyUntilBracket_app s g rest t :
  lazyUntilBracket s = Some (g, rest) ->
  lazyUntilBracket (s ++ t) = Some (g, rest ++ t).
Proof.
  revert g. induction s as [|c s IH]; intros g; simpl; [discriminate|].
  destruct (c =? 93); [now intros [= <- <-]|].
  destruct (isLineTerminator c); [discriminate|].
  destruct (lazyUntilBracket s) as [[g' rest']|]; [|discriminate].
  intros [= <- <-]. now rewrite (IH g' eq_refl).
Qed.

(** Once the accumulator carries a tag, appending does not change it. *)
Lemma langMatch_app s g t : langMatch s = Some g -> langMatch (s ++ t) = Some g.
Proof.
  unfold langMatch.
  destruct (stripPrefix (lit "[LANG:") s) as [r|] eqn:Ep; [|discriminate].
  rewrite (stripPrefix_app _ _ _ t Ep).
  destruct (lazyUntilBracket r) as [[g' rest]|] eqn:El; [|discriminate].
  intros [= <-]. now rewrite (lazyUntilBracket_app _ _ _ t El).
Qed.

(** One output delta: the text is appended; a language message is added
    when the accumulator carries a tag and none was reported in this turn. *)
Lemma onOutputTranscription_spec clock text s :
  let o := currentOutputTransRef s ++ text in
  let s' := onOutputTranscription clock text s in
  currentOutputTransRef s' = o
  /\ currentInputTransRef s' = currentInputTransRef s
  /\ transcripts s'
     = transcripts s
       ++ match langMatch o with
          | Some lang =>
              if turnLanguageDetectedRef s then []
              else [languageMessage clock lang]
          | None => []
          end
  /\ turnLanguageDetectedRef s'
     = match langMatch o with
       | Some _ => true
       | None => turnLanguageDetectedRef s
       end.
Proof.
  destruct s as [? ? ? ? ? ? ? ? ? ? ? ? ? ? ? ? f i o ? ? ?].
  unfold onOutputTranscription, languageMessage. cbn.
  destruct (langMatch (o ++ text)); [destruct f|]; cbn;
    rewrite ?app_nil_r; repeat split; reflexivity.
Qed.

Lemma trimStart_nil l : trimStart l = [] -> forall c, In c l -> isWhiteSpace c = true.
Proof.
  induction l as [|a l IH]; simpl; [contradiction|].
  destruct (isWhiteSpace a) eqn:E; [|discriminate].
  intros H c [<-|Hc]; [exact E|now apply IH].
Qed.

Lemma nonBlank_head c l : isWhiteSpace c = false -> nonBlank (c :: l) = true.
Proof.
  intros Hc. unfold nonBlank, trim. simpl. rewrite Hc.
  destruct (trimStart (rev (c :: l))) as [|x r] eqn:E.
  - rewrite (trimStart_nil _ E c) in Hc; [discriminate|].
    apply in_rev. rewrite rev_involutive. now left.
  - destruct (rev (x :: r)) eqn:E'; [|reflexivity].
    apply (f_equal (@length N)) in E'. rewrite length_rev in E'. discriminate.
Qed.

(** An accumulator that carries a tag is not blank. *)
Lemma langMatch_nonBlank o lang : langMatch o = Some lang -> nonBlank o = true.
Proof.
  unfold langMatch. destruct o as [|c o]; [discriminate|].
  change (lit "[LANG:") with (91 :: lit "LANG:"). cbn [stripPrefix].
  destruct (N.eqb_spec 91 c) as [<-|Hc]; [|discriminate].
  intros _. now apply nonBlank_head.
Qed.

Lemma stripPrefix_Some p s r : stripPrefix p s = Some r -> s = p ++ r.
Proof.
  revert s. induction p as [|a p IH]; intros s; simpl.
  - now intros [= ->].
  - destruct s as [|b s]; [discriminate|].
    destruct (N.eqb_spec a b) as [->|]; [|discriminate].
    intros H. now rewrite (IH _ H).
Qed.

Lemma lazyUntilBracket_Some s g rest :
  lazyUntilBracket s = Some (g, rest) -> s = g ++ lit "]" ++ rest.
Proof.
  revert g. induction s as [|c s IH]; intros g; simpl; [discriminate|].
  destruct (N.eqb_spec c 93) as [->|]; [now intros [= <- <-]|].
  destruct (isLineTerminator c); [discriminate|].
  destruct (lazyUntilBracket s) as [[g' rest']|]; [|discriminate].
  intros [= <- <-]. now rewrite (IH g' eq_refl) at 1.
Qed.

(** What stripping removes: the tag and the white space after it. *)
Lemma stripLangTag_spec o lang :
  langMatch o = Some lang ->
  exists rest, o = lit "[LANG:" ++ lang ++ lit "]" ++ rest
               /\ stripLangTag o = trimStart rest.
Proof.
  unfold langMatch, stripLangTag.
  destruct (stripPrefix (lit "[LANG:") o) as [r|] eqn:Ep; [|discriminate].
  destruct (lazyUntilBracket r) as [[g rest]|] eqn:El; [|discriminate].
  intros [= <-]. exists rest. split; [|reflexivity].
  now rewrite (stripPrefix_Some _ _ _ Ep), (lazyUntilBracket_Some _ _ _ El).
Qed.

(** ** Starting a session *)

(** C5, as stated, fails.  After a first click the session is connecting
    ([isActive] still false, the promise stored); a second click is not
    rejected: [connect] runs again, replaces the contexts and appends a
    second microphone stream, and the contexts of the first run are left
    running even after a teardown.  In the active state a click tears the
    session down, and [connect] itself would run there as well. *)
Lemma second_start_is_not_rejected :
  let env := mkEnv MicGranted DisplayDeclined in
  let s := onClick env (initialState 0) in
  let s' := onClick env s in
  let sA := onopen someClosure 1 s in
  snd (connect env (initialState 0)) = Some someClosure
  /\ sessionLive s = true /\ isActive s = false
  /\ s' <> s
  /\ inputContextRef s = Some 0%nat /\ inputContextRef s' = Some 2%nat
  /\ mediaStreamsRef s = [0%nat] /\ mediaStreamsRef s' = [0%nat; 1%nat]
  /\ contextClosed (world (cleanupAudio s')) 0 = false
  /\ isActive sA = true /\ onClick env sA <> sA /\ fst (connect env sA) <> sA.
Proof.
  cbv zeta. repeat split; try reflexivity.
  all: intros H; apply (f_equal inputContextRef) in H; vm_compute in H;
    discriminate H.
Qed.

(** What a granted [connect] assigns, whatever the state it runs in. *)
Lemma connect_granted env s :
  getUserMedia env = MicGranted ->
  exists s1,
    connect env s
    = (s1, Some (mkClosure (translationEnabled s) (diarizationEnabled s)
                   (S (length (contexts (world s))))
                   (length (processors (world s)))
                   (length (sessions (world s)))))
    /\ inputContextRef s1 = Some (length (contexts (world s)))
    /\ audioContextRef s1 = Some (S (length (contexts (world s))))
    /\ processorRef s1 = Some (length (processors (world s)))
    /\ sessionRef s1 = Some (length (sessions (world s)))
    /\ (exists more,
          mediaStreamsRef s1
          = mediaStreamsRef s ++ length (streams (world s)) :: more)
    /\ contexts (world s1) = contexts (world s) ++ [running; running]
    /\ sessions (world s1)
       = sessions (world s)
         ++ [mkLiveSession
               (systemInstruction (translationEnabled s) (diarizationEnabled s))
               [] false]
    /\ transcripts s1 = transcripts s
    /\ isActive s1 = isActive s
    /\ error s1 = None.
Proof.
  intros Hmic.
  destruct s as [? ? ? ? ? usa ? ? ? ? ms ? ? ? ? ? ? ? ? [cx st ps ss srcs] ? ?].
  unfold connect, acquireSystemAudio. cbn. rewrite Hmic. cbn.
  destruct usa; [destruct (getDisplayMedia env) as [[|]|]|]; cbn;
    eexists; (split; [reflexivity|]); cbn; rewrite <- ?app_assoc;
    repeat split; eexists; reflexivity.
Qed.

(** C5, amended.  [connect] has no guard and rejects nothing: in every
    state it acquires afresh and overwrites the refs, leaving the transcript
    log as it is.  The only guard is the main button, which tears down while
    [isActive] holds and calls [connect] otherwise, the connecting state
    included. *)
Theorem start_is_guarded_by_the_button_only (env : Env) (s : State) :
  (isActive s = true -> onClick env s = cleanupAudio s)
  /\ (isActive s = false -> onClick env s = fst (connect env s))
  /\ transcripts (fst (connect env s)) = transcripts s
  /\ (getUserMedia env = MicGranted ->
      let s1 := fst (connect env s) in
      inputContextRef s1 = Some (length (contexts (world s)))
      /\ audioContextRef s1 = Some (S (length (contexts (world s))))
      /\ processorRef s1 = Some (length (processors (world s)))
      /\ sessionRef s1 = Some (length (sessions (world s)))
      /\ (exists more,
            mediaStreamsRef s1
            = mediaStreamsRef s ++ length (streams (world s)) :: more)
      /\ contexts (world s1) = contexts (world s) ++ [running; running]).
Proof.
  split; [|split; [|split]].
  - intros H. unfold onClick. now rewrite H.
  - intros H. unfold onClick. now rewrite H.
  - destruct (getUserMedia env) as [|m] eqn:Hmic.
    + destruct (connect_granted env s Hmic)
        as (s1 & -> & _ & _ & _ & _ & _ & _ & _ & Ht & _). exact Ht.
    + destruct s as [? ? ? ? ? ? ? ? ? ? ? pr sr ? ? ? ? ? ? ? ? ?].
      unfold connect. cbn. rewrite Hmic. unfold cleanupAudio.
      destruct pr, sr; reflexivity.
  - intros Hmic. cbv zeta.
    destruct (connect_granted env s Hmic)
      as (s1 & -> & H1 & H2 & H3 & H4 & H5 & H6 & _).
    simpl. repeat split; assumption.
Qed.

Lemma start_is_guarded_by_the_button_only_witness :
  let env := mkEnv MicGranted DisplayDeclined in
  let s := onClick env (initialState 0) in
  let sA := onopen someClosure 1 s in
  onClick env sA = cleanupAudio sA
  /\ onClick env s = fst (connect env s)
  /\ inputContextRef (fst (connect env s)) = Some 2%nat.
Proof.
  cbv zeta.
  destruct (start_is_guarded_by_the_button_only
              (mkEnv MicGranted DisplayDeclined)
              (onopen someClosure 1
                 (onClick (mkEnv MicGranted DisplayDeclined) (initialState 0))))
    as (Hactive & _).
  destruct (start_is_guarded_by_the_button_only
              (mkEnv MicGranted DisplayDeclined)
              (onClick (mkEnv MicGranted DisplayDeclined) (initialState 0)))
    as (_ & Hidle & _ & Hfresh).
  split; [exact (Hactive eq_refl)|]. split; [exact (Hidle eq_refl)|].
  exact (proj1 (Hfresh eq_refl)).
Defined.

(** ** The optional source *)

(** C6, as stated, fails in [LiveAgent]: when the system audio is declined,
    or granted without an audio track, the session opens on the microphone
    alone but the interface shows exactly what it shows when the system
    audio was obtained; the only trace is a console warning. *)
Lemma degraded_input_shows_no_notice :
  let s := set_useSystemAudio true (initialState 0) in
  let full := startAndOpen (mkEnv MicGranted (DisplayGranted true)) 1 s in
  let declined := startAndOpen (mkEnv MicGranted DisplayDeclined) 1 s in
  let audioless := startAndOpen (mkEnv MicGranted (DisplayGranted false)) 1 s in
  isActive declined = true /\ isActive audioless = true
  /\ userVisible declined = userVisible full
  /\ userVisible audioless = userVisible full
  /\ error declined = None /\ error audioless = None
  /\ transcripts declined
     = transcripts (initialState 0)
       ++ [mkMessage (lit "sys-start") system
             (lit "Secure Link Established. Speaker ID Active.") 1]
  /\ console declined
     = [ConsoleWarn (lit "System audio selection cancelled or failed");
        ConsoleLog (lit "EBURON Link Established")]
  /\ console audioless
     = [ConsoleWarn (lit "User did not share system audio.");
        ConsoleLog (lit "EBURON Link Established")].
Proof. cbv zeta. repeat split; reflexivity. Qed.

Lemma connect_degraded env s :
  getUserMedia env = MicGranted -> useSystemAudio s = true ->
  systemAudioMissing env = true ->
  exists s1 cl,
    connect env s = (s1, Some cl)
    /\ console s1 = console s ++ [degradedWarning env]
    /\ error s1 = None
    /\ transcripts s1 = transcripts s
    /\ isActive s1 = isActive s
    /\ processorRef s1 = Some (processor cl)
    /\ processors (world s1) !! processor cl
       = Some (mkProcessor true [length (streams (world s))] false)
    /\ sessionRef s1 = Some (sessionPromise cl)
    /\ sessions (world s1) !! sessionPromise cl
       = Some (mkLiveSession
                 (systemInstruction (translationEnabled s) (diarizationEnabled s))
                 [] false)
    /\ translationEnabledAt cl = translationEnabled s
    /\ diarizationEnabledAt cl = diarizationEnabled s.
Proof.
  intros Hmic Husa Hmiss.
  destruct s as [? ? ? ? ? usa ? ? ? ? ms ? ? ? ? ? ? ? ? [cx st ps ss srcs] ? ?].
  cbn in Husa. subst usa.
  unfold connect, acquireSystemAudio, systemAudioMissing, degradedWarning in *.
  cbn. rewrite Hmic. cbn.
  destruct (getDisplayMedia env) as [[|]|]; [discriminate| |]; cbn;
    do 2 eexists; (split; [reflexivity|]); cbn;
    repeat split; try reflexivity;
    rewrite lookup_app_r, Nat.sub_diag by lia; reflexivity.
Qed.

(** The transcriber: an audio-less grant sets the error banner, a refusal
    only prints a warning and switches the toggle off; in both cases the
    recording starts. *)
Lemma startRealtimeRecording_degraded env (b : BatchTranscriber.State) :
  getUserMedia env = MicGranted -> BatchTranscriber.useSystemAudio b = true ->
  systemAudioMissing env = true ->
  let b1 := BatchTranscriber.startRealtimeRecording env b in
  BatchTranscriber.isRecording b1 = true
  /\ BatchTranscriber.mediaRecorderRef b1 = Some BatchTranscriber.recording
  /\ match getDisplayMedia env with
     | DisplayGranted _ =>
         BatchTranscriber.streamError b1
         = Some (lit "System audio not shared. Recording microphone only.")
         /\ BatchTranscriber.console b1 = BatchTranscriber.console b
     | DisplayDeclined =>
         BatchTranscriber.streamError b1 = None
         /\ BatchTranscriber.useSystemAudio b1 = false
         /\ BatchTranscriber.console b1
            = BatchTranscriber.console b
              ++ [ConsoleWarn (lit "System audio cancelled")]
     end.
Proof.
  intros Hmic Husa Hmiss.
  destruct b as [? ? usa ? ? ? ? ? ? ? [cx st ps ss srcs] ?].
  cbn in Husa. subst usa.
  unfold BatchTranscriber.startRealtimeRecording,
    BatchTranscriber.acquireSystemAudio, systemAudioMissing in *.
  cbn. rewrite Hmic. cbn.
  destruct (getDisplayMedia env) as [[|]|]; [discriminate| |]; cbn;
    repeat split; reflexivity.
Qed.

(** C6, amended.  With the microphone granted and the system audio asked
    for but declined or granted without an audio track, [connect] goes on:
    the processor is fed by the microphone stream alone, the session is
    created, nothing is torn down, no error is set and the link opens into
    the active state.  The degradation is reported by a console warning
    only; the interface of [LiveAgent] shows no notice.  In the realtime
    transcriber the audio-less grant sets the error banner and the refusal
    prints a warning and clears the toggle. *)
Theorem degraded_input_proceeds_with_a_warning
    (env : Env) (clock : N) (s : State) (b : BatchTranscriber.State) :
  getUserMedia env = MicGranted -> systemAudioMissing env = true ->
  (useSystemAudio s = true ->
   exists s1 cl,
     connect env s = (s1, Some cl)
     /\ console s1 = console s ++ [degradedWarning env]
     /\ error s1 = None /\ transcripts s1 = transcripts s
     /\ processors (world s1) !! processor cl
        = Some (mkProcessor true [length (streams (world s))] false)
     /\ sessionRef s1 = Some (sessionPromise cl)
     /\ isActive (onopen cl clock s1) = true
     /\ error (onopen cl clock s1) = None
     /\ transcripts (onopen cl clock s1)
        = transcripts s
          ++ [mkMessage (lit "sys-start") system
                (sysStartText (translationEnabled s) (diarizationEnabled s)) clock])
  /\ (BatchTranscriber.useSystemAudio b = true ->
      let b1 := BatchTranscriber.startRealtimeRecording env b in
      BatchTranscriber.isRecording b1 = true
      /\ match getDisplayMedia env with
         | DisplayGranted _ =>
             BatchTranscriber.streamError b1
             = Some (lit "System audio not shared. Recording microphone only.")
         | DisplayDeclined =>
             BatchTranscriber.streamError b1 = None
             /\ BatchTranscriber.useSystemAudio b1 = false
             /\ BatchTranscriber.console b1
                = BatchTranscriber.console b
                  ++ [ConsoleWarn (lit "System audio cancelled")]
         end).
Proof.
  intros Hmic Hmiss. split.
  - intros Husa.
    destruct (connect_degraded env s Hmic Husa Hmiss)
      as (s1 & cl & E & Hc & He & Ht & _ & _ & Hp & Hs & _ & Htr & Hdi).
    exists s1, cl. repeat split; try assumption.
    cbn. now rewrite Ht, Htr, Hdi.
  - intros Husa.
    destruct (startRealtimeRecording_degraded env b Hmic Husa Hmiss)
      as (Hrec & _ & Hcase).
    split; [exact Hrec|].
    destruct (getDisplayMedia env); [apply Hcase|exact Hcase].
Qed.

Lemma degraded_input_proceeds_with_a_warning_witness :
  let env := mkEnv MicGranted DisplayDeclined in
  let s := set_useSystemAudio true (initialState 0) in
  let b := BatchTranscriber.mkState [] false true None None None None None []
             [] (mkWorld [] [] [] [] []) [] in
  (exists s1 cl,
     connect env s = (s1, Some cl)
     /\ console s1 = console s ++ [degradedWarning env]
     /\ error s1 = None /\ transcripts s1 = transcripts s
     /\ processors (world s1) !! processor cl
        = Some (mkProcessor true [length (streams (world s))] false)
     /\ sessionRef s1 = Some (sessionPromise cl)
     /\ isActive (onopen cl 1 s1) = true
     /\ error (onopen cl 1 s1) = None
     /\ transcripts (onopen cl 1 s1)
        = transcripts s
          ++ [mkMessage (lit "sys-start") system
                (sysStartText (translationEnabled s) (diarizationEnabled s)) 1])
  /\ BatchTranscriber.isRecording (BatchTranscriber.startRealtimeRecording env b) = true
  /\ BatchTranscriber.streamError (BatchTranscriber.startRealtimeRecording env b) = None
  /\ BatchTranscriber.useSystemAudio (BatchTranscriber.startRealtimeRecording env b)
     = false.
Proof.
  cbv zeta.
  pose proof (degraded_input_proceeds_with_a_warning
                (mkEnv MicGranted DisplayDeclined) 1
                (set_useSystemAudio true (initialState 0))
                (BatchTranscriber.mkState [] false true None None None None None []
                   [] (mkWorld [] [] [] [] []) [])
                eq_refl eq_refl) as [Hlive Hbatch].
  split; [exact (Hlive eq_refl)|].
  destruct (Hbatch eq_refl) as (Hrec & Herr & Husa & _).
  split; [exact Hrec|]. split; [exact Herr|exact Husa].
Defined.

(** ** The codec round trip *)





(** The encoder above is the reading that truncates and scales the
    non-negative samples by 32767.  No other reading restores the bound:
    rounding fails on the same sample, and a scale of 32768 sends the sample
    1 to 32768, which the array stores as -32768. *)
Lemma every_reading_misses_the_bound :
  (forall x, float32ToInt16 x = float32ToInt16Reading truncate 32767 x)
  /\ ~ roundTripReading roundNearest 32767 (within (1 # 32768)) [131069 # 131072]
  /\ ~ roundTripReading truncate 32768 (within (1 # 32768)) [1%Q]
  /\ ~ roundTripReading roundNearest 32768 (within (1 # 32768)) [1%Q].
Proof.
  split; [reflexivity|].
  repeat split.
  all: intros (y & Hy & Hall); vm_compute in Hy; injection Hy as <-.
  all: inversion_clear Hall as [|? ? ? ? H _]; vm_compute in H; now apply H.
Qed.


(** ** Malformed frames *)




(** ** The mode of a session *)

Lemma systemInstruction_mode translation diarization m :
  includes (modeLine m) (systemInstruction translation diarization)
  = modeEqb m (selectedMode translation diarization).
Proof. destruct translation, diarization, m; vm_compute; reflexivity. Qed.

Lemma sysStartText_mode translation diarization :
  sysStartText translation diarization
  = connectedText (selectedMode translation diarization).
Proof. destruct translation, diarization; reflexivity. Qed.

Lemma connectedText_inj m m' : connectedText m = connectedText m' -> m = m'.
Proof. destruct m, m'; intros H; try reflexivity; vm_compute in H; discriminate H. Qed.

Lemma modeEqb_eq m m' : modeEqb m m' = true <-> m = m'.
Proof. destruct m, m'; simpl; split; intros H; congruence. Qed.

(** C9. The instruction sent at connect time names exactly one of the
    three modes, the translator whenever translation is enabled, then the
    diarization, then the assistant; the message shown when the link opens
    is the one of that same mode, whatever happened to the toggles in
    between. *)
Theorem one_mode_is_selected (env : Env) (s : State) :
  getUserMedia env = MicGranted ->
  let m := selectedMode (translationEnabled s) (diarizationEnabled s) in
  exists s1 cl instruction,
    connect env s = (s1, Some cl)
    /\ sessions (world s1) !! sessionPromise cl
       = Some (mkLiveSession instruction [] false)
    /\ (forall m', includes (modeLine m') instruction = true <-> m' = m)
    /\ (translationEnabled s = true -> m = Translator)
    /\ (translationEnabled s = false -> diarizationEnabled s = true -> m = Diarization)
    /\ (translationEnabled s = false -> diarizationEnabled s = false -> m = Assistant)
    /\ (forall clock s',
          transcripts (onopen cl clock s')
          = transcripts s'
            ++ [mkMessage (lit "sys-start") system (connectedText m) clock])
    /\ (forall m', connectedText m' = connectedText m -> m' = m).
Proof.
  intros Hmic. cbv zeta.
  destruct (connect_granted env s Hmic)
    as (s1 & E & _ & _ & _ & _ & _ & _ & Hsess & _).
  eexists s1, _, _. split; [exact E|]. cbn [sessionPromise].
  split; [rewrite Hsess, lookup_app_r, Nat.sub_diag by lia; reflexivity|].
  split; [intros m'; rewrite systemInstruction_mode; apply modeEqb_eq|].
  split; [now intros ->|].
  split; [now intros -> ->|].
  split; [now intros -> ->|].
  split; [|intros m'; apply connectedText_inj].
  intros clock s'. cbn. now rewrite sysStartText_mode.
Qed.

Lemma one_mode_is_selected_witness :
  let s := set_translationEnabled true (initialState 0) in
  exists s1 cl instruction,
    connect (mkEnv MicGranted DisplayDeclined) s = (s1, Some cl)
    /\ sessions (world s1) !! sessionPromise cl
       = Some (mkLiveSession instruction [] false)
    /\ (forall m', includes (modeLine m') instruction = true <-> m' = Translator)
    /\ (translationEnabled s = true -> Translator = Translator)
    /\ (translationEnabled s = false -> diarizationEnabled s = true
        -> Translator = Diarization)
    /\ (translationEnabled s = false -> diarizationEnabled s = false
        -> Translator = Assistant)
    /\ (forall clock s',
          transcripts (onopen cl clock s')
          = transcripts s'
            ++ [mkMessage (lit "sys-start") system
                  (connectedText Translator) clock])
    /\ (forall m', connectedText m' = connectedText Translator -> m' = Translator).
Proof.
  cbv zeta.
  apply (one_mode_is_selected (mkEnv MicGranted DisplayDeclined)
           (set_translationEnabled true (initialState 0))).
  reflexivity.
Defined.

(** ** What teardown leaves in place *)

Lemma connect_accumulators env s :
  currentInputTransRef (fst (connect env s)) = currentInputTransRef s
  /\ currentOutputTransRef (fst (connect env s)) = currentOutputTransRef s.
Proof.
  destruct (getUserMedia env) as [|m] eqn:Hmic;
    destruct s as [? ? ? ? ? usa ? ? ? ? ? pr sr ? ? ? ? ? ? ? ? ?];
    unfold connect, acquireSystemAudio; cbn; rewrite Hmic.
  - destruct usa; [destruct (getDisplayMedia env) as [[|]|]|]; cbn;
      split; reflexivity.
  - unfold cleanupAudio. destruct pr, sr; cbn; split; reflexivity.
Qed.

Lemma cleanupAudio_accumulators s :
  currentInputTransRef (cleanupAudio s) = currentInputTransRef s
  /\ currentOutputTransRef (cleanupAudio s) = currentOutputTransRef s
  /\ transcripts (cleanupAudio s) = transcripts s
  /\ savedTranscripts (cleanupAudio s) = savedTranscripts s.
Proof.
  destruct s as [? ? ? ? ? ? ? ? ? ? ? pr sr ? ? ? ? ? ? ? ? ?].
  unfold cleanupAudio. destruct pr, sr; cbn; repeat split; reflexivity.
Qed.

(** C10. Teardown puts the playback cursor back to 0 and clears the live
    preview, the volume meter and the language flag; it leaves the two
    transcript accumulators, the transcript log and the saved transcripts as
    they are.  A turn under way is neither finalized nor cleared, and
    [connect] does not clear it either: its text is still there when the next
    session opens. *)
Theorem teardown_keeps_the_accumulators
    (env : Env) (clock : N) (s : State) :
  let s' := cleanupAudio s in
  nextStartTimeRef s' = 0%Q
  /\ streamingInput s' = []
  /\ volume s' = 0%Q
  /\ turnLanguageDetectedRef s' = false
  /\ currentInputTransRef s' = currentInputTransRef s
  /\ currentOutputTransRef s' = currentOutputTransRef s
  /\ transcripts s' = transcripts s
  /\ savedTranscripts s' = savedTranscripts s
  /\ currentInputTransRef (startAndOpen env clock s') = currentInputTransRef s
  /\ currentOutputTransRef (startAndOpen env clock s') = currentOutputTransRef s.
Proof.
  cbv zeta.
  destruct (cleanupAudio_cells s)
    as (_ & _ & _ & _ & _ & _ & _ & _ & Hn & Hv & Hp & Hf).
  destruct (cleanupAudio_accumulators s) as (Hi & Ho & Ht & Hs).
  destruct (connect_accumulators env (cleanupAudio s)) as [Hci Hco].
  repeat split; try assumption.
  - rewrite <- Hi, <- Hci. unfold startAndOpen.
    destruct (connect env (cleanupAudio s)) as [s1 [cl|]]; reflexivity.
  - rewrite <- Ho, <- Hco. unfold startAndOpen.
    destruct (connect env (cleanupAudio s)) as [s1 [cl|]]; reflexivity.
Qed.

(** A turn cut by a stop is completed by the deltas of the next session:
    ["He"] before the stop and ["llo"] after the restart are finalized as one
    message ["Hello"]. *)
Example turn_spans_two_sessions :
  let env := mkEnv MicGranted DisplayDeclined in
  let s1 := deliver someClosure (inputDelta 2 "He") (startAndOpen env 1 (initialState 0)) in
  let s2 := startAndOpen env 3 (cleanupAudio s1) in
  let s3 := deliverAll (mkClosure false true 3 1 1)
              [inputDelta 4 "llo"; turnCompleted 5] s2 in
  Forall (fun m => msgRole m <> user) (transcripts s2)
  /\ last (transcripts s3) = Some (userMessage 5 (lit "Hello")).
Proof.
  cbv zeta. split; [|reflexivity].
  vm_compute. repeat constructor; discriminate.
Qed.

(** ** The scanners are the regular expressions *)

Lemma exec_chars p rest s :
  Regex.exec (map Regex.Chr p ++ rest) s
  = match stripPrefix p s with
    | Some r => Regex.exec rest r
    | None => None
    end.
Proof.
  revert s. induction p as [|a p IH]; intros s; simpl; [reflexivity|].
  destruct s as [|b s]; [reflexivity|].
  rewrite N.eqb_sym. destruct (a =? b); [apply IH|reflexivity].
Qed.

Lemma exec_lazy_dots_bracket captured k s :
  Regex.exec (Regex.Star false Regex.dot captured :: Regex.Chr 93 :: k) s
  = match lazyUntilBracket s with
    | Some (g, rest) =>
        option_map (fun res => ((if captured then g else []) ++ fst res, snd res))
          (Regex.exec k rest)
    | None => None
    end
  \/ exists g rest, lazyUntilBracket s = Some (g, rest) /\ Regex.exec k rest = None.
Proof.
  induction s as [|c s IH]; [left; reflexivity|].
  cbn [Regex.exec lazyUntilBracket] in *.
  destruct (N.eqb_spec c 93) as [->|Hc].
  - destruct (Regex.exec k s) as [res|] eqn:E.
    + left. destruct res. destruct captured; reflexivity.
    + right. eauto.
  - unfold Regex.dot at 1. destruct (isLineTerminator c); [left; reflexivity|].
    cbn [negb]. destruct IH as [IH|(g & rest & Hl & Hk)].
    + left. rewrite IH. destruct (lazyUntilBracket s) as [[g rest]|]; [|reflexivity].
      destruct (Regex.exec k rest) as [[g' rest']|]; [|reflexivity].
      destruct captured; reflexivity.
    + right. rewrite Hl. eauto.
Qed.

(** The scanner [langMatch] computes what the pattern of the source
    matches. *)
Lemma langMatch_is_the_pattern s :
  langMatch s = Regex.matchGroup Regex.langPattern s.
Proof.
  unfold langMatch, Regex.matchGroup, Regex.langPattern.
  rewrite exec_chars. destruct (stripPrefix (lit "[LANG:") s) as [r|]; [|reflexivity].
  destruct (exec_lazy_dots_bracket true [] r) as [H|(g & rest & _ & H)];
    [|discriminate H].
  cbn [app]. rewrite H. destruct (lazyUntilBracket r) as [[g rest]|]; [|reflexivity].
  simpl. now rewrite app_nil_r.
Qed.

Lemma exec_greedy_spaces s :
  Regex.exec [Regex.Star true isWhiteSpace false] s = Some ([], trimStart s).
Proof.
  induction s as [|c s IH]; [reflexivity|].
  cbn [Regex.exec trimStart] in *.
  destruct (isWhiteSpace c); [|reflexivity].
  now rewrite IH.
Qed.

(** The scanner [stripLangTag] removes what the pattern of the source
    matches. *)
Lemma stripLangTag_is_the_pattern s :
  stripLangTag s = Regex.removeMatch Regex.tagPattern s.
Proof.
  unfold stripLangTag, Regex.removeMatch, Regex.tagPattern.
  rewrite exec_chars. destruct (stripPrefix (lit "[LANG:") s) as [r|]; [|reflexivity].
  cbn [app].
  destruct (exec_lazy_dots_bracket false [Regex.Star true isWhiteSpace false] r)
    as [H|(g & rest & _ & H)].
  - rewrite H. destruct (lazyUntilBracket r) as [[g rest]|]; [|reflexivity].
    now rewrite exec_greedy_spaces.
  - now rewrite exec_greedy_spaces in H.
Qed.

(** * Further properties of the code *)

(** ** Decoding *)

Section ListInduction2.

Variable A : Type.
Variable P : list A -> Prop.
Hypothesis P0 : P [].
Hypothesis P1 : forall a, P [a].
Hypothesis P2 : forall a b r, P r -> P (a :: b :: r).

(** Induction by pairs, the way an [Int16Array] reads its buffer. *)
Lemma list_ind2 (l : list A) : P l.
Proof.
  revert l. fix IH 1. intros [|a [|b r]].
  - exact P0.
  - apply P1.
  - apply P2, IH.
Qed.

End ListInduction2.

Lemma length_int16OfBytes l : (2 * length (int16OfBytes l) <= length l)%nat.
Proof. induction l as [|a|a b r IH] using list_ind2; simpl; lia. Qed.

Lemma length_int16OfBytes_even l :
  Nat.even (length l) = true -> (2 * length (int16OfBytes l))%nat = length l.
Proof.
  induction l as [|a|a b r IH] using list_ind2; simpl; intros H;
    [reflexivity|discriminate|].
  rewrite <- (IH H). lia.
Qed.

Lemma int16OfBytes_range l :
  Forall (fun v => (-32768 <= v <= 32767)%Z) (int16OfBytes l).
Proof.
  induction l as [|a|a b r IH] using list_ind2; simpl; constructor;
    [apply wrap16_range|exact IH].
Qed.

Lemma decode_even bufferData :
  Nat.even (length bufferData) = true ->
  decode bufferData = Ok (map (fun v => v # 32768) (int16OfBytes bufferData))
  /\ (2 * length (int16OfBytes bufferData))%nat = length bufferData.
Proof.
  intros Heven. unfold decode, newInt16Array. rewrite Heven.
  split; [reflexivity|now apply length_int16OfBytes_even].
Qed.

(** X1. A buffer of even length always decodes: to half as many samples as
    it has bytes, each a multiple of 1/32768 between -1 and 32767/32768. *)
Theorem decode_gives_bounded_samples (bufferData : list byte) :
  Nat.even (length bufferData) = true ->
  exists float32Data,
    decode bufferData = Ok float32Data
    /\ (2 * length float32Data)%nat = length bufferData
    /\ Forall (fun v => exists z : Z,
                 v = z # 32768 /\ (-1 <= v)%Q /\ (v <= 32767 # 32768)%Q)
         float32Data.
Proof.
  intros Heven. destruct (decode_even bufferData Heven) as [Hdec Hlen].
  eexists. split; [exact Hdec|]. split.
  - now rewrite length_map.
  - apply Forall_map. eapply Forall_impl; [apply int16OfBytes_range|].
    intros z Hz. simpl. exists z. split; [reflexivity|].
    simpl in Hz. unfold Qle. simpl. lia.
Qed.

Lemma decode_gives_bounded_samples_witness :
  exists float32Data,
    decode [x00; x80; xff; x7f] = Ok float32Data
    /\ (2 * length float32Data)%nat = 4%nat
    /\ Forall (fun v => exists z : Z,
                 v = z # 32768 /\ (-1 <= v)%Q /\ (v <= 32767 # 32768)%Q)
         float32Data.
Proof. apply (decode_gives_bounded_samples [x00; x80; xff; x7f]). reflexivity. Defined.

(** ** Which messages are dropped *)



(** The outcome of the audio block for a non-empty payload. *)
Lemma playAudio_outcome cl now data s :
  match wireToFrame data with
  | Throw e => playAudio cl now data s = Throw e
  | Ok b =>
      if negb (Nat.even (length b)) then playAudio cl now data s = Throw MalformedFrame
      else match b with
           | [] => playAudio cl now data s = Throw NotSupportedError
           | _ :: _ => exists s1, playAudio cl now data s = Ok s1
           end
  end.
Proof.
  unfold playAudio. change base64ToArrayBuffer with wireToFrame.
  destruct (wireToFrame data) as [b|e]; [|reflexivity]. cbn [bind].
  destruct (Nat.even (length b)) eqn:Heven; cbn [negb].
  - destruct (decode_even b Heven) as [-> Hlen].
    cbn [bind]. rewrite length_map. destruct b as [|x b].
    + reflexivity.
    + destruct (int16OfBytes (x :: b)) as [|v y]; [discriminate|]. simpl. eauto.
  - now rewrite (decode_odd _ Heven).
Qed.



(** ** The frames sent to the service *)

Lemma sextets_count l :
  (length (Base64.sextets l) = (4 * length l + 2) / 3)%nat.
Proof.
  induction l as [|a|a b|a b c r IH] using list_ind3; try reflexivity.
  cbn [Base64.sextets length]. rewrite IH. lia.
Qed.

Lemma frameToWire_text (uint8 : list byte) :
  exists base64,
    frameToWire uint8 = Ok base64
    /\ length base64 = (4 * ((length uint8 + 2) / 3))%nat
    /\ Forall (fun c => c = 61 \/ Base64.value c <> None) base64
    /\ wireToFrame base64 = Ok uint8.
Proof.
  destruct (wireToFrame_frameToWire uint8) as (w & Hw & Hback).
  exists w. split; [exact Hw|]. split; [|split; [|exact Hback]].
  - unfold frameToWire in Hw. rewrite btoa_binary in Hw by apply binary_bound.
    injection Hw as <-. unfold Base64.padding.
    rewrite length_app, length_map, repeat_length, sextets_count, length_map. lia.
  - unfold frameToWire in Hw. rewrite btoa_binary in Hw by apply binary_bound.
    injection Hw as <-. apply Forall_app. split.
    + pose proof (sextets_bound _ (binary_bound uint8)) as Hb.
      apply Forall_map. eapply Forall_impl; [exact Hb|].
      intros n Hn. right. simpl. rewrite value_alphabet by exact Hn. discriminate.
    + unfold Base64.padding. apply Forall_forall. intros c Hc.
      apply list_elem_of_In, repeat_spec in Hc. now left.
Qed.

(** X3. The microphone handler never throws.  For [n] samples it sends one
    text of [4 * ceil(2n / 3)] characters, all of them base64 digits or
    [=], that decodes to the two bytes per sample it encoded; besides the
    volume meter it changes nothing else. *)
Theorem microphone_frame_is_base64
    (cl : Closure) (inputData : list Q) (rms : Q) (s : State) :
  exists base64,
    onaudioprocess cl inputData rms s
    = Ok (with_world (sendRealtimeInput (sessionPromise cl) base64)
            (set_volume rms s))
    /\ length base64 = (4 * ((2 * length inputData + 2) / 3))%nat
    /\ Forall (fun c => c = 61 \/ Base64.value c <> None) base64
    /\ wireToFrame base64 = Ok (encode inputData)
    /\ length (encode inputData) = (2 * length inputData)%nat.
Proof.
  destruct (frameToWire_text (encode inputData)) as (w & Hw & Hlen & Hchars & Hback).
  assert (Hbytes : length (encode inputData) = (2 * length inputData)%nat).
  { unfold encode, float32ToInt16. now rewrite length_bytesOfInt16Array, length_map. }
  exists w. unfold onaudioprocess. fold (encode inputData). rewrite Hw.
  split; [reflexivity|]. split; [now rewrite Hlen, Hbytes|].
  split; [exact Hchars|]. split; [exact Hback|exact Hbytes].
Qed.

(** ** The component under any interleaving of its handlers *)

(** What a successful [playAudio] returns. *)
Lemma playAudio_inv cl now data s s1 :
  playAudio cl now data s = Ok s1 ->
  exists b,
    s1 = set_sourcesRef (sourcesRef s ++ [length (sources (world s))])
           (set_nextStartTimeRef (Double.add (startTime b) (duration b))
              (with_world (fun w => set_sources (sources w ++ [b]) w) s))
    /\ startTime b = Qmax now (nextStartTimeRef s)
    /\ viaGain b = match outputGainRef s with Some _ => true | None => false end
    /\ sourceStopped b = false.
Proof.
  unfold playAudio.
  destruct (base64ToArrayBuffer data) as [bufferData|e]; [simpl|discriminate].
  destruct (decode bufferData) as [float32Data|e]; [simpl|discriminate].
  destruct (length float32Data =? 0)%nat; [discriminate|].
  intros [= <-].
  exists (mkBufferSource (Qmax now (nextStartTimeRef s))
            (Double.div (inject_Z (Z.of_nat (length float32Data))) 24000)
            (match outputGainRef s with Some _ => true | None => false end)
            false).
  split; [reflexivity|]. split; [reflexivity|]. split; reflexivity.
Qed.

Lemma journal_fields s s' :
  journal s' = journal s ->
  transcripts s' = transcripts s /\ savedTranscripts s' = savedTranscripts s
  /\ currentInputTransRef s' = currentInputTransRef s
  /\ currentOutputTransRef s' = currentOutputTransRef s
  /\ streamingInput s' = streamingInput s
  /\ turnLanguageDetectedRef s' = turnLanguageDetectedRef s.
Proof. unfold journal. intros [= -> -> -> -> -> ->]. repeat split. Qed.

Lemma playAudio_journal cl now data s s1 :
  playAudio cl now data s = Ok s1 -> journal s1 = journal s.
Proof. intros H. apply playAudio_inv in H as (b & -> & _). reflexivity. Qed.

(** A refused [connect] is a teardown of the handles of the moment, the two
    new contexts included. *)
Lemma connect_denied env s m :
  getUserMedia env = MicDenied m ->
  exists s0,
    connect env s = (cleanupAudio s0, None)
    /\ journal s0 = journal s
    /\ mediaStreamsRef s0 = mediaStreamsRef s
    /\ processorRef s0 = processorRef s
    /\ sessionRef s0 = sessionRef s
    /\ sourcesRef s0 = sourcesRef s
    /\ inputContextRef s0 = Some (length (contexts (world s)))
    /\ audioContextRef s0 = Some (S (length (contexts (world s))))
    /\ world s0 = set_contexts (contexts (world s) ++ [running; running]) (world s).
Proof.
  intros Hmic. unfold connect. rewrite Hmic.
  eexists. split; [reflexivity|]. repeat split.
Qed.

(** The rest of what a granted [connect] leaves or creates. *)
Lemma connect_granted_world env s :
  getUserMedia env = MicGranted ->
  journal (fst (connect env s)) = journal s
  /\ sourcesRef (fst (connect env s)) = sourcesRef s
  /\ sources (world (fst (connect env s))) = sources (world s)
  /\ (exists mixer,
        processors (world (fst (connect env s)))
        = processors (world s) ++ [mkProcessor true mixer false]).
Proof.
  intros Hmic.
  destruct s as [? ? ? ? ? usa ? ? ? ? ms ? ? ? ? ? ? ? ? [cx st ps ss srcs] ? ?].
  unfold connect, acquireSystemAudio. cbn. rewrite Hmic. cbn.
  destruct usa; [destruct (getDisplayMedia env) as [[|]|]|]; cbn;
    (split; [reflexivity|]); (split; [reflexivity|]); (split; [reflexivity|]);
    eexists; reflexivity.
Qed.

Lemma onopen_journal cl clock s :
  transcripts (onopen cl clock s)
  = transcripts s
    ++ [mkMessage (lit "sys-start") system
          (sysStartText (translationEnabledAt cl) (diarizationEnabledAt cl)) clock]
  /\ savedTranscripts (onopen cl clock s) = savedTranscripts s
  /\ currentInputTransRef (onopen cl clock s) = currentInputTransRef s
  /\ streamingInput (onopen cl clock s) = streamingInput s
  /\ currentOutputTransRef (onopen cl clock s) = currentOutputTransRef s
  /\ turnLanguageDetectedRef (onopen cl clock s) = turnLanguageDetectedRef s.
Proof. repeat split. Qed.

Lemma onaudioprocess_inv cl inputData rms s s' :
  onaudioprocess cl inputData rms s = Ok s' ->
  exists base64,
    s' = with_world (sendRealtimeInput (sessionPromise cl) base64) (set_volume rms s).
Proof.
  unfold onaudioprocess.
  destruct (frameToWire _) as [base64|e]; [simpl|discriminate].
  intros [= <-]. now exists base64.
Qed.

(** One event of a session, with the two handlers that may throw resolved. *)
Lemma sessionStep_cases cl s e :
  match e with
  | Opened clock => sessionStep cl s e = onopen cl clock s
  | Received d =>
      (exists s1,
         playAudio cl (atTime d) (default [] (audioData (message d))) s = Ok s1
         /\ sessionStep cl s e = afterAudio (atClock d) (message d) s1)
      \/ sessionStep cl s e = afterAudio (atClock d) (message d) s
      \/ exists ex, sessionStep cl s e = log (Uncaught ex) s
  | AudioProcess inputData rms =>
      (exists base64,
         sessionStep cl s e
         = with_world (sendRealtimeInput (sessionPromise cl) base64)
             (set_volume rms s))
      \/ exists ex, sessionStep cl s e = log (Uncaught ex) s
  | Ended source =>
      sessionStep cl s e = onended source (with_world (stopSource source) s)
  end.
Proof.
  destruct e as [clock|d|inputData rms|source]; cbn [sessionStep]; try reflexivity.
  - unfold deliver. rewrite onmessage_afterAudio.
    destruct (audioData (message d)) as [data|];
      [destruct (truthy data)|]; cbn [bind default]; auto.
    destruct (playAudio cl (atTime d) data s) as [s1|ex] eqn:E; cbn [bind]; eauto.
  - destruct (onaudioprocess cl inputData rms s) as [s'|ex] eqn:E; [|eauto].
    left. eapply onaudioprocess_inv, E.
Qed.

Lemma onaudioprocess_journal cl inputData rms s s' :
  onaudioprocess cl inputData rms s = Ok s' -> journal s' = journal s.
Proof.
  unfold onaudioprocess.
  destruct (frameToWire _) as [base64|e]; [simpl|discriminate].
  now intros [= <-].
Qed.

Lemma onOutputTranscription_journal clock text s :
  journal (onOutputTranscription clock text s)
  = (transcripts s
     ++ match langMatch (currentOutputTransRef s ++ text) with
        | Some lang =>
            if turnLanguageDetectedRef s then []
            else [languageMessage clock lang]
        | None => []
        end,
     savedTranscripts s, currentInputTransRef s,
     currentOutputTransRef s ++ text, streamingInput s,
     match langMatch (currentOutputTransRef s ++ text) with
     | Some _ => true
     | None => turnLanguageDetectedRef s
     end).
Proof.
  destruct s as [? ? ? ? ? ? ? ? ? ? ? ? ? ? ? ? f i o ? ? ?].
  unfold onOutputTranscription, languageMessage, journal. cbn.
  destruct (langMatch (o ++ text)); [destruct f|]; cbn;
    rewrite ?app_nil_r; reflexivity.
Qed.

Lemma onInputTranscription_journal text s :
  journal (onInputTranscription text s)
  = (transcripts s, savedTranscripts s, currentInputTransRef s ++ text,
     currentOutputTransRef s, currentInputTransRef s ++ text,
     turnLanguageDetectedRef s).
Proof. reflexivity. Qed.

Lemma toSave_app kind l l' : toSave kind (l ++ l') = toSave kind l ++ toSave kind l'.
Proof. unfold toSave. now rewrite List.filter_app, map_app. Qed.

Lemma toSave_system kind l :
  Forall (fun m => msgRole m = system) l -> toSave kind l = [].
Proof.
  induction 1 as [|m l Hm _ IH]; [reflexivity|].
  unfold toSave in *. simpl. rewrite Hm. simpl. exact IH.
Qed.

(** What the part of [onmessage] after the audio block writes down. *)
Lemma afterAudio_journal clock msg s :
  exists added,
    transcripts (afterAudio clock msg s) = transcripts s ++ added
    /\ savedTranscripts (afterAudio clock msg s)
       = savedTranscripts s ++ toSave (lit "live") added
    /\ (turnComplete msg = false -> Forall (fun m => msgRole m = system) added)
    /\ (previewShowsInput s -> previewShowsInput (afterAudio clock msg s)).
Proof.
  unfold afterAudio.
  set (s1 := match outputTranscription msg with
             | Some text => onOutputTranscription clock text s
             | None => s
             end).
  assert (H1 : exists a1,
             transcripts s1 = transcripts s ++ a1
             /\ Forall (fun m => msgRole m = system) a1
             /\ savedTranscripts s1 = savedTranscripts s
             /\ currentInputTransRef s1 = currentInputTransRef s
             /\ streamingInput s1 = streamingInput s).
  { subst s1. destruct (outputTranscription msg) as [text|].
    - pose proof (onOutputTranscription_journal clock text s) as H.
      unfold journal in H. injection H as Ht Hs Hi _ Hp _.
      eexists. split; [exact Ht|]. split; [|auto].
      destruct (langMatch _); [destruct (turnLanguageDetectedRef s)|];
        repeat constructor.
    - exists []. rewrite app_nil_r. auto. }
  destruct H1 as (a1 & Ht1 & Hsys1 & Hs1 & Hi1 & Hp1).
  set (s2 := match inputTranscription msg with
             | Some text => onInputTranscription text s1
             | None => s1
             end).
  assert (H2 : transcripts s2 = transcripts s1
               /\ savedTranscripts s2 = savedTranscripts s1
               /\ (previewShowsInput s -> previewShowsInput s2)).
  { subst s2. destruct (inputTranscription msg) as [text|].
    - split; [reflexivity|]. split; [reflexivity|]. intros _. now right.
    - split; [reflexivity|]. split; [reflexivity|].
      unfold previewShowsInput. now rewrite Hp1, Hi1. }
  destruct H2 as (Ht2 & Hs2 & Hp2).
  destruct (turnComplete msg).
  - destruct (onTurnComplete_spec clock s2) as (Ht & Hs & Hi & Hp & _).
    eexists. split; [rewrite Ht, Ht2, Ht1, <- app_assoc; reflexivity|].
    split; [|split; [discriminate|]].
    + rewrite Hs, Hs2, Hs1, !toSave_app, (toSave_system _ a1 Hsys1).
      f_equal. destruct (nonBlank (currentInputTransRef s2)),
        (nonBlank (currentOutputTransRef s2)); reflexivity.
    + intros Hprev. specialize (Hp2 Hprev). unfold previewShowsInput in *.
      rewrite Hi, Hp. destruct (nonBlank (currentInputTransRef s2)); auto.
  - exists a1. split; [now rewrite Ht2|]. split; [|split; [auto|exact Hp2]].
    rewrite Hs2, Hs1, (toSave_system _ a1 Hsys1). now rewrite app_nil_r.
Qed.

Lemma previewShowsInput_journal s s' :
  journal s' = journal s -> previewShowsInput s -> previewShowsInput s'.
Proof.
  unfold journal, previewShowsInput. intros [= _ _ -> _ -> _]. auto.
Qed.

(** What one operation writes down. *)
Lemma perform_journal s o :
  exists added,
    transcripts (perform s o) = transcripts s ++ added
    /\ savedTranscripts (perform s o)
       = savedTranscripts s ++ toSave (lit "live") added
    /\ (endsTurn o = false -> Forall (fun m => msgRole m = system) added)
    /\ (previewShowsInput s -> previewShowsInput (perform s o)).
Proof.
  assert (Hsame : forall s', journal s' = journal s ->
            exists added,
              transcripts s' = transcripts s ++ added
              /\ savedTranscripts s' = savedTranscripts s ++ toSave (lit "live") added
              /\ (endsTurn o = false -> Forall (fun m => msgRole m = system) added)
              /\ (previewShowsInput s -> previewShowsInput s')).
  { intros s' H. exists []. rewrite !app_nil_r.
    split; [|split; [|split; [constructor|now apply previewShowsInput_journal]]];
      unfold journal in H; now injection H. }
  assert (Hdown : forall s0, journal s0 = journal s ->
            exists added,
              transcripts (cleanupAudio s0) = transcripts s ++ added
              /\ savedTranscripts (cleanupAudio s0)
                 = savedTranscripts s ++ toSave (lit "live") added
              /\ (endsTurn o = false -> Forall (fun m => msgRole m = system) added)
              /\ (previewShowsInput s -> previewShowsInput (cleanupAudio s0))).
  { intros s0 H.
    destruct (cleanupAudio_cells s0)
      as (_ & _ & _ & _ & _ & _ & _ & _ & _ & _ & Hp' & _).
    destruct (cleanupAudio_accumulators s0) as (_ & _ & Ht' & Hs').
    unfold journal in H. injection H as Ht Hs _ _ _ _.
    exists []. rewrite !app_nil_r.
    split; [congruence|]. split; [congruence|]. split; [constructor|].
    intros _. now left. }
  destruct o as [env|cl e|cl x]; cbn [perform].
  - unfold onClick. destruct (isActive s); [now apply Hdown|].
    destruct (getUserMedia env) as [|m] eqn:Hmic.
    + apply Hsame. now apply connect_granted_world.
    + destruct (connect_denied env s m Hmic) as (s0 & -> & Hj & _).
      now apply Hdown.
  - destruct e as [clock|d|inputData rms|source]; cbn [sessionStep].
    + destruct (onopen_journal cl clock s) as (Ht & Hs & Hi & Hp & _).
      eexists. split; [exact Ht|].
      split; [now rewrite Hs, app_nil_r|]. split; [repeat constructor|].
      unfold previewShowsInput. now rewrite Hi, Hp.
    + unfold deliver. rewrite onmessage_afterAudio. cbn [endsTurn].
      assert (Hplay : forall s1, journal s1 = journal s ->
                exists added,
                  transcripts (afterAudio (atClock d) (message d) s1)
                  = transcripts s ++ added
                  /\ savedTranscripts (afterAudio (atClock d) (message d) s1)
                     = savedTranscripts s ++ toSave (lit "live") added
                  /\ (turnComplete (message d) = false ->
                      Forall (fun m => msgRole m = system) added)
                  /\ (previewShowsInput s ->
                      previewShowsInput (afterAudio (atClock d) (message d) s1))).
      { intros s1 H.
        destruct (afterAudio_journal (atClock d) (message d) s1)
          as (added & Ht & Hs & Hsys & Hp).
        pose proof (previewShowsInput_journal s s1 H) as Hp1.
        unfold journal in H. injection H as Ht1 Hs1 _ _ _ _.
        exists added. rewrite Ht, Hs, Ht1, Hs1.
        split; [reflexivity|]. split; [reflexivity|]. split; [exact Hsys|].
        intros Hprev. apply Hp, Hp1, Hprev. }
      destruct (audioData (message d)) as [data|];
        [destruct (truthy data)|]; cbn [bind]; try now apply Hplay.
      destruct (playAudio cl (atTime d) data s) as [s1|ex] eqn:E; cbn [bind].
      * apply Hplay. eapply playAudio_journal, E.
      * now apply Hsame.
    + destruct (onaudioprocess cl inputData rms s) as [s'|ex] eqn:E.
      * apply Hsame. eapply onaudioprocess_journal, E.
      * now apply Hsame.
    + now apply Hsame.
  - destruct x as [| |m]; cbn [exitBy]; now apply Hdown.
Qed.

Lemma performAll_cons o os s : performAll (o :: os) s = performAll os (perform s o).
Proof. reflexivity. Qed.

(** X4. Whatever the user, the sessions and the platform do, and in
    whatever order, the calls of [saveTranscript] mirror the log: every user
    and model message of the log has been saved, with its text and the kind
    [live], in the order of the log, and no system message ever is. *)
Theorem saved_transcripts_mirror_the_log (os : list Operation) (s : State) :
  savedTranscripts s = toSave (lit "live") (transcripts s) ->
  savedTranscripts (performAll os s)
  = toSave (lit "live") (transcripts (performAll os s)).
Proof.
  revert s. induction os as [|o os IH]; intros s H; [exact H|].
  rewrite performAll_cons. apply IH.
  destruct (perform_journal s o) as (added & -> & -> & _).
  now rewrite toSave_app, H.
Qed.

Lemma saved_transcripts_mirror_the_log_witness :
  let env := mkEnv MicGranted DisplayDeclined in
  let s := performAll
             [Click env; Session someClosure (Opened 1);
              Session someClosure (Received (inputDelta 2 "Hi"));
              Session someClosure (Received (outputDelta 3 "[LANG:English] Yo"));
              Session someClosure (Received (turnCompleted 4));
              Leave someClosure RemoteClose]
             (initialState 0) in
  savedTranscripts s = toSave (lit "live") (transcripts s)
  /\ savedTranscripts s = [(lit "Hi", user, lit "live"); (lit "Yo", model, lit "live")].
Proof.
  cbv zeta. split; [|reflexivity].
  apply (saved_transcripts_mirror_the_log _ (initialState 0)). reflexivity.
Defined.

(** X5. No handler removes or rewrites a message: every sequence of
    operations leaves the log it found and appends to it.  What it appends
    are system messages only, unless one of the operations is a message
    that ends a turn. *)
Theorem log_only_grows (os : list Operation) (s : State) :
  exists added,
    transcripts (performAll os s) = transcripts s ++ added
    /\ (forallb (fun o => negb (endsTurn o)) os = true ->
        Forall (fun m => msgRole m = system) added).
Proof.
  revert s. induction os as [|o os IH]; intros s.
  - exists []. split; [now rewrite app_nil_r|constructor].
  - rewrite performAll_cons.
    destruct (perform_journal s o) as (a1 & Ht1 & _ & Hsys1 & _).
    destruct (IH (perform s o)) as (a2 & Ht2 & Hsys2).
    exists (a1 ++ a2). split; [now rewrite Ht2, Ht1, app_assoc|].
    cbn [forallb]. intros H. apply andb_prop in H as [Ho Hos].
    apply Forall_app. split; [|auto].
    apply Hsys1. now apply negb_true_iff.
Qed.

Lemma log_only_grows_witness :
  let env := mkEnv MicGranted DisplayDeclined in
  let os := [Click env; Session someClosure (Opened 1);
             Session someClosure (Received (outputDelta 3 "[LANG:English] Yo"));
             Leave someClosure (RemoteError [])] in
  exists added,
    transcripts (performAll os (initialState 0))
    = transcripts (initialState 0) ++ added
    /\ Forall (fun m => msgRole m = system) added.
Proof.
  cbv zeta.
  destruct (log_only_grows
              [Click (mkEnv MicGranted DisplayDeclined);
               Session someClosure (Opened 1);
               Session someClosure (Received (outputDelta 3 "[LANG:English] Yo"));
               Leave someClosure (RemoteError [])] (initialState 0))
    as (added & Ht & Hsys).
  exists added. split; [exact Ht|]. apply Hsys. reflexivity.
Defined.

(** X6. The live preview never shows a part of the pending input or a text
    of an earlier turn: after every sequence of operations it is empty or
    equal to the whole accumulated input. *)
Theorem preview_is_empty_or_the_whole_input (os : list Operation) (s : State) :
  previewShowsInput s -> previewShowsInput (performAll os s).
Proof.
  revert s. induction os as [|o os IH]; intros s H; [exact H|].
  rewrite performAll_cons. apply IH.
  destruct (perform_journal s o) as (_ & _ & _ & _ & Hp). auto.
Qed.

Lemma preview_is_empty_or_the_whole_input_witness :
  let env := mkEnv MicGranted DisplayDeclined in
  previewShowsInput
    (performAll
       [Click env; Session someClosure (Opened 1);
        Session someClosure (Received (inputDelta 2 "Hi"));
        Leave someClosure ExplicitStop;
        Click env;
        Session (mkClosure false true 3 1 1) (Received (inputDelta 5 " there"))]
       (initialState 0)).
Proof.
  cbv zeta.
  apply (preview_is_empty_or_the_whole_input _ (initialState 0)).
  left. reflexivity.
Defined.

(** ** The registry of playing sources *)

Lemma registryExact_ext s s' :
  sources (world s') = sources (world s) -> sourcesRef s' = sourcesRef s ->
  registryExact s -> registryExact s'.
Proof.
  unfold registryExact, sourceIsStopped. intros -> ->. auto.
Qed.

Lemma registryExact_handles s s' :
  handles s' = handles s -> registryExact s -> registryExact s'.
Proof.
  unfold handles. intros [= Hw _ _ _ _ _ Hr]. apply registryExact_ext; [|exact Hr].
  now rewrite Hw.
Qed.

Lemma registryExact_cleanupAudio s0 s :
  sources (world s0) = sources (world s) -> sourcesRef s0 = sourcesRef s ->
  registryExact s -> registryExact (cleanupAudio s0).
Proof.
  intros Hw Hr [_ Hreg].
  destruct (cleanupAudio_cells s0) as (_ & _ & _ & _ & _ & _ & Href & _).
  unfold registryExact. rewrite Href. split; [constructor|].
  intros i. split; [intros H; now apply elem_of_nil in H|].
  unfold sourceIsStopped. rewrite cleanupAudio_sources.
  rewrite lookup_fold_alter by reflexivity. rewrite Hw, Hr.
  destruct (decide (i ∈ sourcesRef s)) as [Hin|Hout].
  - destruct (sources (world s) !! i); discriminate.
  - intros Hlive. exfalso. apply Hout, Hreg, Hlive.
Qed.

Lemma registryExact_playAudio cl now data s s1 :
  playAudio cl now data s = Ok s1 -> registryExact s -> registryExact s1.
Proof.
  intros H [Hnd Hreg]. apply playAudio_inv in H as (b & -> & _ & _ & Hb).
  assert (Hfresh : length (sources (world s)) ∉ sourcesRef s).
  { intros Hin. apply Hreg in Hin. unfold sourceIsStopped in Hin.
    rewrite (proj2 (lookup_ge_None _ _)) in Hin by lia. discriminate. }
  unfold registryExact. cbn. split.
  - apply NoDup_app. split; [exact Hnd|]. split; [|apply NoDup_singleton].
    intros x Hx Hx'. apply list_elem_of_singleton in Hx'. now subst.
  - intros i. unfold sourceIsStopped. cbn. rewrite elem_of_app, list_elem_of_singleton.
    destruct (lt_eq_lt_dec i (length (sources (world s)))) as [[Hlt | -> ] | Hgt].
    + rewrite lookup_app_l by exact Hlt. rewrite (Hreg i). unfold sourceIsStopped.
      split; [intros [H|H]; [exact H|lia]|auto].
    + rewrite list_lookup_middle by reflexivity. rewrite Hb. split; auto.
    + rewrite (proj2 (lookup_ge_None _ _)) by (rewrite length_app; simpl; lia).
      split; [|discriminate]. intros [H|H]; [|lia].
      apply Hreg in H. unfold sourceIsStopped in H.
      rewrite (proj2 (lookup_ge_None _ _)) in H by lia. discriminate.
Qed.

Lemma registryExact_ended source s :
  registryExact s -> registryExact (onended source (with_world (stopSource source) s)).
Proof.
  intros [Hnd Hreg]. unfold registryExact. cbn. split.
  - apply NoDup_ListNoDup, List.NoDup_filter, NoDup_ListNoDup, Hnd.
  - intros i. unfold sourceIsStopped. cbn.
    rewrite list_elem_of_In, filter_In, <- list_elem_of_In, negb_true_iff, Nat.eqb_neq.
    rewrite list_lookup_alter. case_decide as Heq.
    + subst. split; [intros [_ H]; congruence|].
      destruct (sources (world s) !! _); discriminate.
    + rewrite (Hreg i). unfold sourceIsStopped. split; [now intros [H _]|].
      intros H. split; [exact H|congruence].
Qed.

Lemma registryExact_perform s o : registryExact s -> registryExact (perform s o).
Proof.
  intros Hreg. destruct o as [env|cl e|cl x]; cbn [perform].
  - unfold onClick. destruct (isActive s).
    + now apply (registryExact_cleanupAudio s s).
    + destruct (getUserMedia env) as [|m] eqn:Hmic.
      * destruct (connect_granted_world env s Hmic) as (_ & Hr & Hw & _).
        eapply registryExact_ext; eassumption.
      * destruct (connect_denied env s m Hmic)
          as (s0 & -> & _ & _ & _ & _ & Hr & _ & _ & Hw).
        apply (registryExact_cleanupAudio s0 s); [now rewrite Hw|exact Hr|exact Hreg].
  - pose proof (sessionStep_cases cl s e) as Hstep.
    destruct e as [clock|d|inputData rms|source].
    + rewrite Hstep. eapply registryExact_ext; [| |exact Hreg]; reflexivity.
    + destruct Hstep as [(s1 & Hplay & ->)|[->|[ex ->]]].
      * eapply registryExact_handles; [apply afterAudio_handles|].
        eapply registryExact_playAudio; eassumption.
      * eapply registryExact_handles; [apply afterAudio_handles|exact Hreg].
      * eapply registryExact_ext; [| |exact Hreg]; reflexivity.
    + destruct Hstep as [[base64 ->]|[ex ->]];
        (eapply registryExact_ext; [| |exact Hreg]; reflexivity).
    + rewrite Hstep. now apply registryExact_ended.
  - destruct (exitBy_cleanupAudio cl x s) as (s0 & -> & Hh).
    unfold handles in Hh. injection Hh as Hw _ _ _ _ _ Hr.
    apply (registryExact_cleanupAudio s0 s); [now rewrite Hw|exact Hr|exact Hreg].
Qed.

(** X7. The set of playing sources never holds a source that has finished
    or has been stopped, and never misses one that is still playing: after
    every sequence of operations it holds, once each, exactly the sources
    that are still running, so the set does not grow with the length of the
    session and a teardown reaches every source that can still be heard. *)
Theorem registry_holds_exactly_the_playing_sources
    (os : list Operation) (s : State) :
  registryExact s ->
  registryExact (performAll os s)
  /\ forall cl x i,
       sourceIsStopped (world (exitBy cl x (performAll os s))) i = true.
Proof.
  intros Hreg.
  assert (H : registryExact (performAll os s)).
  { revert s Hreg. induction os as [|o os IH]; intros s Hreg; [exact Hreg|].
    rewrite performAll_cons. now apply IH, registryExact_perform. }
  split; [exact H|]. intros cl x i.
  pose proof (registryExact_perform _ (Leave cl x) H) as [_ Hdown].
  cbn [perform] in Hdown.
  destruct (sourceIsStopped (world (exitBy cl x (performAll os s))) i) eqn:E;
    [reflexivity|].
  apply Hdown in E.
  destruct (exitBy_cleanupAudio cl x (performAll os s)) as (s0 & Hx & _).
  rewrite Hx in E.
  destruct (cleanupAudio_cells s0) as (_ & _ & _ & _ & _ & _ & Href & _).
  rewrite Href in E. now apply elem_of_nil in E.
Qed.

Lemma registry_holds_exactly_the_playing_sources_witness :
  let env := mkEnv MicGranted DisplayDeclined in
  let audio := mkLiveServerMessage (Some (lit "AAAA/38A")) None None false in
  let s := performAll
             [Click env; Session someClosure (Opened 1);
              Session someClosure (Received (mkDelivery 0 2 audio));
              Session someClosure (Received (mkDelivery 0 3 audio));
              Session someClosure (Ended 0)]
             (initialState 0) in
  registryExact s /\ sourcesRef s = [1%nat].
Proof.
  cbv zeta. split; [|reflexivity].
  destruct (registry_holds_exactly_the_playing_sources
              [Click (mkEnv MicGranted DisplayDeclined);
               Session someClosure (Opened 1);
               Session someClosure
                 (Received (mkDelivery 0 2
                    (mkLiveServerMessage (Some (lit "AAAA/38A")) None None false)));
               Session someClosure
                 (Received (mkDelivery 0 3
                    (mkLiveServerMessage (Some (lit "AAAA/38A")) None None false)));
               Session someClosure (Ended 0)]
              (initialState 0)) as [H _]; [|exact H].
  split; [constructor|]. intros i. split.
  - intros H. now apply elem_of_nil in H.
  - unfold sourceIsStopped. simpl. destruct i; discriminate.
Defined.

(** ** Handles that are overwritten *)

Lemma closeUnlessClosed_other ref w i :
  ref <> Some i -> contextClosed (closeUnlessClosed ref w) i = contextClosed w i.
Proof.
  unfold closeUnlessClosed, contextClosed. intros Hne.
  destruct ref as [j|]; [|reflexivity].
  assert (j <> i) by congruence.
  destruct (contexts w !! j) as [[|]|]; cbn; try reflexivity;
    now rewrite list_lookup_alter_ne.
Qed.

(** An object that is running and that no ref holds stays so through a
    teardown. *)
Lemma cleanupAudio_orphans s :
  (forall h, sessionRef s <> Some h ->
     sessionIsClosed (world (cleanupAudio s)) h = sessionIsClosed (world s) h)
  /\ (forall p, processorRef s <> Some p ->
        processorDisconnected (world (cleanupAudio s)) p
        = processorDisconnected (world s) p)
  /\ (forall c, inputContextRef s <> Some c -> audioContextRef s <> Some c ->
        contextClosed (world (cleanupAudio s)) c = contextClosed (world s) c).
Proof.
  split; [|split].
  - intros h Hne. unfold sessionIsClosed. rewrite cleanupAudio_sessions.
    destruct (sessionRef s) as [h'|]; [|reflexivity].
    rewrite list_lookup_alter_ne by congruence. reflexivity.
  - intros p Hne. unfold processorDisconnected. rewrite cleanupAudio_processors.
    destruct (processorRef s) as [p'|]; [|reflexivity].
    rewrite list_lookup_alter_ne by congruence. reflexivity.
  - intros c Hin Hau. destruct (cleanupAudio_contexts s) as (w1 & Hw1 & Hc).
    rewrite (contextClosed_ext _ _ c Hc).
    rewrite !closeUnlessClosed_other by assumption.
    now apply contextClosed_ext.
Qed.







(** ** Messages that arrive after a teardown *)

Lemma exitBy_journal cl x s :
  exists s0, exitBy cl x s = cleanupAudio s0 /\ handles s0 = handles s
             /\ journal s0 = journal s /\ outputGainRef s0 = outputGainRef s.
Proof.
  destruct x as [| |m]; simpl; eexists; repeat split.
Qed.

(** The output accumulator and the flag of the turn when the next session
    has opened after a teardown. *)
Lemma restart_output env clock s0 :
  let s1 := startAndOpen env clock (cleanupAudio s0) in
  currentOutputTransRef s1 = currentOutputTransRef s0
  /\ turnLanguageDetectedRef s1 = false.
Proof.
  cbv zeta.
  destruct (cleanupAudio_cells s0)
    as (_ & _ & _ & _ & _ & _ & _ & _ & _ & _ & _ & Hf).
  destruct (cleanupAudio_accumulators s0) as (_ & Ho & _).
  unfold startAndOpen.
  destruct (getUserMedia env) as [|m] eqn:Hmic.
  - destruct (connect_granted_world env (cleanupAudio s0) Hmic) as (Hj & _).
    apply journal_fields in Hj as (_ & _ & _ & Ho1 & _ & Hf1).
    destruct (connect env (cleanupAudio s0)) as [s1 [cl|]]; cbn [fst] in Ho1, Hf1.
    + destruct (onopen_journal cl clock s1) as (_ & _ & _ & _ & -> & ->).
      split; congruence.
    + split; congruence.
  - destruct (connect_denied env (cleanupAudio s0) m Hmic) as (s2 & -> & Hj & _).
    apply journal_fields in Hj as (_ & _ & _ & Ho2 & _ & _).
    destruct (cleanupAudio_cells s2)
      as (_ & _ & _ & _ & _ & _ & _ & _ & _ & _ & _ & Hf2).
    destruct (cleanupAudio_accumulators s2) as (_ & Ho2' & _).
    split; congruence.
Qed.

(** X9. A teardown clears the flag of the turn and keeps the output
    accumulator.  When a session ends in the middle of a turn whose
    language has been reported, the first output delta of the next session
    reports that language a second time, whatever the delta says; without
    the teardown the same delta adds nothing to the log. *)
Theorem language_is_reported_again_after_a_restart
    (cl cl2 : Closure) (x : Exit) (env : Env) (now : Q) (clock0 clock : N)
    (text lang : jsString) (s : State) :
  langMatch (currentOutputTransRef s) = Some lang ->
  let d := mkDelivery now clock (mkLiveServerMessage None (Some text) None false) in
  let s1 := startAndOpen env clock0 (exitBy cl x s) in
  transcripts (deliver cl2 d s1) = transcripts s1 ++ [languageMessage clock lang]
  /\ (turnLanguageDetectedRef s = true ->
      transcripts (deliver cl2 d s) = transcripts s).
Proof.
  intros Htag. cbv zeta.
  assert (Hd : forall s', deliver cl2
                 (mkDelivery now clock (mkLiveServerMessage None (Some text) None false))
                 s' = onOutputTranscription clock text s') by reflexivity.
  rewrite !Hd. split.
  - destruct (exitBy_journal cl x s) as (s0 & -> & _ & Hj & _).
    apply journal_fields in Hj as (_ & _ & _ & Ho & _ & _).
    destruct (restart_output env clock0 s0) as (Ho1 & Hf1).
    destruct (onOutputTranscription_spec clock text
                (startAndOpen env clock0 (cleanupAudio s0))) as (_ & _ & -> & _).
    rewrite Ho1, Hf1, Ho, (langMatch_app _ _ text Htag). reflexivity.
  - intros Hflag.
    destruct (onOutputTranscription_spec clock text s) as (_ & _ & -> & _).
    rewrite Hflag, (langMatch_app _ _ text Htag). apply app_nil_r.
Qed.

Lemma language_is_reported_again_after_a_restart_witness :
  let env := mkEnv MicGranted DisplayDeclined in
  let s := deliver someClosure (outputDelta 2 "[LANG:English] Hel")
             (startAndOpen env 1 (initialState 0)) in
  let s1 := startAndOpen env 3 (exitBy someClosure ExplicitStop s) in
  transcripts (deliver (mkClosure false true 3 1 1) (outputDelta 4 "lo") s1)
  = transcripts s1 ++ [languageMessage 4 (lit "English")].
Proof.
  cbv zeta.
  apply (language_is_reported_again_after_a_restart
           someClosure (mkClosure false true 3 1 1) ExplicitStop
           (mkEnv MicGranted DisplayDeclined) 0 3 4 (lit "lo") (lit "English")
           (deliver someClosure (outputDelta 2 "[LANG:English] Hel")
              (startAndOpen (mkEnv MicGranted DisplayDeclined) 1 (initialState 0)))).
  reflexivity.
Defined.

(** X10. No handler checks that its session is still the current one.  An
    audio delta that arrives after a teardown is decoded and scheduled like
    any other: it starts at the clock of its context (the cursor is back at
    0), it is connected to the destination directly, past the volume
    control that the teardown has dropped, and it is registered as
    playing. *)
Theorem audio_after_a_teardown_is_still_scheduled
    (cl cl2 : Closure) (x : Exit) (now : Q) (clock : N)
    (msg : LiveServerMessage) (data : jsString) (bufferData : list byte)
    (s : State) :
  audioData msg = Some data ->
  wireToFrame data = Ok bufferData ->
  Nat.even (length bufferData) = true -> bufferData <> [] ->
  let s0 := exitBy cl x s in
  let s1 := deliver cl2 (mkDelivery now clock msg) s0 in
  exists source,
    sources (world s1) = sources (world s0) ++ [source]
    /\ sourcesRef s1 = [length (sources (world s0))]
    /\ startTime source = Qmax now 0
    /\ viaGain source = false
    /\ sourceStopped source = false.
Proof.
  intros Hmsg Hwire Heven Hne. cbv zeta.
  destruct (exitBy_journal cl x s) as (s0 & -> & _).
  destruct (cleanupAudio_cells s0)
    as (_ & _ & _ & _ & Hg & _ & Href & _ & Hcur & _).
  generalize dependent (cleanupAudio s0). clear s0. intros s0 Hg Href Hcur.
  assert (Hdata : truthy data = true).
  { destruct data; [|reflexivity]. vm_compute in Hwire. congruence. }
  unfold deliver. rewrite onmessage_afterAudio. cbn [message atTime atClock].
  rewrite Hmsg, Hdata.
  pose proof (playAudio_outcome cl2 now data s0) as Hout.
  rewrite Hwire, Heven in Hout. cbn [negb] in Hout.
  destruct bufferData as [|b0 rest]; [congruence|].
  destruct Hout as [s1 Hplay]. rewrite Hplay. cbn [bind].
  pose proof (afterAudio_handles clock msg s1) as H.
  unfold handles in H. injection H as -> _ _ _ _ _ ->.
  apply playAudio_inv in Hplay as (b & -> & Hstart & Hgain & Hstop).
  exists b. rewrite Hcur in Hstart. rewrite Hg in Hgain.
  cbn. rewrite Href. auto.
Qed.

Lemma audio_after_a_teardown_is_still_scheduled_witness :
  let env := mkEnv MicGranted DisplayDeclined in
  let s0 := exitBy someClosure RemoteClose (startAndOpen env 1 (initialState 0)) in
  let msg := mkLiveServerMessage (Some (lit "AAAA/38A")) None None false in
  let s1 := deliver someClosure (mkDelivery 5 2 msg) s0 in
  exists source,
    sources (world s1) = sources (world s0) ++ [source]
    /\ sourcesRef s1 = [length (sources (world s0))]
    /\ startTime source = Qmax 5 0
    /\ viaGain source = false
    /\ sourceStopped source = false.
Proof.
  cbv zeta.
  apply (audio_after_a_teardown_is_still_scheduled
           someClosure someClosure RemoteClose 5 2
           (mkLiveServerMessage (Some (lit "AAAA/38A")) None None false)
           (lit "AAAA/38A") [x00; x00; x00; xff; x7f; x00]).
  - reflexivity.
  - reflexivity.
  - reflexivity.
  - discriminate.
Defined.

(** ** Speaker labels *)

Module PatternFacts.
Import Pattern.

Lemma consume_Some c res m rest :
  consume c res = Some (m, rest) ->
  exists m', res = Some (m', rest) /\ m = c :: m'.
Proof.
  destruct res as [[m' rest']|]; [|discriminate].
  intros [= <- <-]. eauto.
Qed.

Lemma one_Some class k s m rest :
  one class k s = Some (m, rest) ->
  exists c r m', s = c :: r /\ class c = true /\ k r = Some (m', rest) /\ m = c :: m'.
Proof.
  destruct s as [|c r]; [discriminate|]. simpl.
  destruct (class c) eqn:E; [|discriminate].
  intros H. apply consume_Some in H as (m' & H & ->). eauto 8.
Qed.

Lemma splits_done : splits done.
Proof. intros s m rest [= <- <-]. reflexivity. Qed.

Lemma splits_one class k : splits k -> splits (one class k).
Proof.
  intros Hk s m rest H. apply one_Some in H as (c & r & m' & -> & _ & H & ->).
  simpl. f_equal. eapply Hk, H.
Qed.

Lemma splits_alt a b : splits a -> splits b -> splits (alt a b).
Proof.
  intros Ha Hb s m rest. unfold alt.
  destruct (a s) as [res|] eqn:E; [intros [= ->]; eapply Ha, E|apply Hb].
Qed.

Lemma splits_opt class k : splits k -> splits (opt class k).
Proof. intros Hk. apply (splits_alt (one class k) k); [now apply splits_one|exact Hk]. Qed.

Lemma splits_star class k : splits k -> splits (star class k).
Proof.
  intros Hk s. induction s as [|c r IH]; intros m rest; simpl; [apply Hk|].
  destruct (class c); [|apply Hk].
  destruct (consume c (star class k r)) as [res|] eqn:E; [|apply Hk].
  intros [= ->]. apply consume_Some in E as (m' & E & ->).
  simpl. f_equal. eapply IH, E.
Qed.

Lemma splits_plus class k : splits k -> splits (plus class k).
Proof. intros Hk. apply splits_one, splits_star, Hk. Qed.

Lemma splits_word w k : splits k -> splits (word w k).
Proof.
  intros Hk. induction w as [|a w IH]; simpl; [exact Hk|]. apply splits_one, IH.
Qed.

Lemma yields_alt P a b : yields P a -> yields P b -> yields P (alt a b).
Proof.
  intros Ha Hb s m rest. unfold alt.
  destruct (a s) as [res|] eqn:E; [intros [= ->]; eapply Ha, E|apply Hb].
Qed.

Lemma yields_one_head (P : jsString -> Prop) class k :
  (forall c m, class c = true -> P (c :: m)) -> yields P (one class k).
Proof.
  intros HP s m rest H. apply one_Some in H as (c & r & m' & -> & Hc & _ & ->).
  now apply HP.
Qed.

Lemma yields_one_tail (P : jsString -> Prop) class k :
  (forall c m, P m -> P (c :: m)) -> yields P k -> yields P (one class k).
Proof.
  intros HP Hk s m rest H. apply one_Some in H as (c & r & m' & -> & _ & H & ->).
  eapply HP, Hk, H.
Qed.

Lemma yields_opt (P : jsString -> Prop) class k :
  (forall c m, P m -> P (c :: m)) -> yields P k -> yields P (opt class k).
Proof.
  intros HP Hk. apply (yields_alt P (one class k) k); [|exact Hk].
  now apply yields_one_tail.
Qed.

Lemma canonicalize_letter a c :
  isLetter a = true -> sameLetter a c = true -> isLetter c = true.
Proof.
  unfold sameLetter, canonicalize, isLetter. intros Ha H.
  apply N.eqb_eq in H.
  repeat match goal with
         | H : context [N.leb ?x ?y] |- _ => destruct (N.leb_spec x y)
         | |- context [N.leb ?x ?y] => destruct (N.leb_spec x y)
         | _ => progress simpl in *
         end; try reflexivity; try discriminate; lia.
Qed.

Lemma hasLetter_cons c m : hasLetter m -> hasLetter (c :: m).
Proof. intros (x & Hx & Hl). exists x. split; [now right|exact Hl]. Qed.

Lemma hasLetter_head c m : isLetter c = true -> hasLetter (c :: m).
Proof. intros H. exists c. split; [now left|exact H]. Qed.

End PatternFacts.

Lemma speakerRegex_splits : splits speakerRegex.
Proof.
  unfold speakerRegex. apply PatternFacts.splits_alt.
  - apply PatternFacts.splits_opt, PatternFacts.splits_alt;
      apply PatternFacts.splits_word, PatternFacts.splits_opt,
        PatternFacts.splits_plus, PatternFacts.splits_opt, PatternFacts.splits_done.
  - apply PatternFacts.splits_plus, PatternFacts.splits_one, PatternFacts.splits_done.
Qed.

Lemma speakerRegex_hasLetter : yields hasLetter speakerRegex.
Proof.
  unfold speakerRegex. apply PatternFacts.yields_alt.
  - apply PatternFacts.yields_opt; [apply PatternFacts.hasLetter_cons|].
    apply PatternFacts.yields_alt;
      (apply PatternFacts.yields_one_head; intros c m Hc;
       apply PatternFacts.hasLetter_head;
       eapply PatternFacts.canonicalize_letter; [|exact Hc]; reflexivity).
  - apply PatternFacts.yields_one_head. intros c m Hc.
    now apply PatternFacts.hasLetter_head.
Qed.

Lemma speakerRegex_startsLabel : yields startsLabel speakerRegex.
Proof.
  assert (Hword : forall a w k, Pattern.isLetter a = true ->
                    yields startsLabel (Pattern.word (a :: w) k)).
  { intros a w k Ha. apply PatternFacts.yields_one_head. intros c m Hc. right.
    eapply PatternFacts.canonicalize_letter; eassumption. }
  unfold speakerRegex. apply PatternFacts.yields_alt.
  - apply PatternFacts.yields_alt.
    + apply PatternFacts.yields_one_head. intros c m Hc. left.
      now apply N.eqb_eq in Hc.
    + apply PatternFacts.yields_alt; now apply Hword.
  - apply PatternFacts.yields_one_head. intros c m Hc. now right.
Qed.

Lemma stripPrefix_self p r : stripPrefix p (p ++ r) = Some r.
Proof.
  induction p as [|a p IH]; simpl; [now destruct r|]. now rewrite N.eqb_refl.
Qed.

Lemma removeFirst_prefix p r : removeFirst p (p ++ r) = r.
Proof.
  destruct p as [|a p]; [now destruct r|].
  change (removeFirst (a :: p) ((a :: p) ++ r))
    with (match stripPrefix (a :: p) ((a :: p) ++ r) with
          | Some rest => rest
          | None => a :: removeFirst (a :: p) (p ++ r)
          end).
  now rewrite stripPrefix_self.
Qed.

Lemma trimStart_In c s : In c (trimStart s) -> In c s.
Proof.
  induction s as [|x s IH]; simpl; [auto|].
  destruct (isWhiteSpace x); [auto|]. simpl. auto.
Qed.

Lemma trimStart_keeps c s :
  In c s -> isWhiteSpace c = false -> In c (trimStart s).
Proof.
  intros Hin Hc. induction s as [|x s IH]; simpl in *; [auto|].
  destruct (isWhiteSpace x) eqn:E; [|exact Hin].
  destruct Hin as [->|Hin]; [congruence|auto].
Qed.

Lemma trim_In c s : In c (trim s) -> In c s.
Proof.
  unfold trim. rewrite <- in_rev. intros H.
  apply trimStart_In in H. rewrite <- in_rev in H. now apply trimStart_In.
Qed.

Lemma trim_keeps c s : In c s -> isWhiteSpace c = false -> In c (trim s).
Proof.
  unfold trim. intros Hin Hc. rewrite <- in_rev.
  apply trimStart_keeps; [|exact Hc]. rewrite <- in_rev.
  now apply trimStart_keeps.
Qed.

Ltac comparisons_false :=
  repeat match goal with
         | |- (_ || _) = false => apply orb_false_intro
         | |- (_ =? _) = false => apply N.eqb_neq; lia
         | |- (_ && _) = false =>
             first [ apply andb_false_intro1, N.leb_gt; lia
                   | apply andb_false_intro2, N.leb_gt; lia ]
         end.

Lemma letter_plain c :
  Pattern.isLetter c = true ->
  isWhiteSpace c = false /\ Pattern.isDigit c = false
  /\ c <> 58 /\ c <> 91 /\ c <> 93 /\ c <> 10.
Proof.
  unfold Pattern.isLetter, isWhiteSpace, isLineTerminator, Pattern.isDigit.
  intros H.
  assert (Hc : 65 <= c <= 90 \/ 97 <= c <= 122).
  { apply orb_prop in H as [H|H]; apply andb_prop in H as [H1 H2];
      apply N.leb_le in H1, H2; lia. }
  clear H. split; [comparisons_false|]. split; [comparisons_false|]. lia.
Qed.

(** What [parseLine] makes of a line, from the match of the pattern. *)
Lemma parseLine_match line :
  match speakerRegex line with
  | Some (label, rest) =>
      line = label ++ rest
      /\ parseLine line = Labelled (trim (removePunctuation label)) (trim rest)
  | None => parseLine line = Plain line
  end.
Proof.
  unfold parseLine.
  destruct (speakerRegex line) as [[label rest]|] eqn:E; [|reflexivity].
  pose proof (speakerRegex_splits _ _ _ E) as ->. split; [reflexivity|].
  now rewrite removeFirst_prefix.
Qed.

(** X11. A line shown with a speaker label is split in two: the label,
    which begins with a letter or an opening bracket at the very start of
    the line, and the content.  The name shown is the label without colons
    and brackets, trimmed, and is never empty; the content shown is the
    rest of the line, trimmed.  Nothing else of the line is dropped. *)
Theorem speaker_label_splits_the_line (line speakerName content : jsString) :
  parseLine line = Labelled speakerName content ->
  exists label rest,
    line = label ++ rest
    /\ startsLabel label
    /\ speakerName = trim (removePunctuation label)
    /\ content = trim rest
    /\ speakerName <> []
    /\ Forall (fun c => c <> 58 /\ c <> 91 /\ c <> 93) speakerName.
Proof.
  intros H. pose proof (parseLine_match line) as Hm.
  destruct (speakerRegex line) as [[label rest]|] eqn:E; [|congruence].
  destruct Hm as [Hline Hp]. rewrite Hp in H. injection H as <- <-.
  exists label, rest. split; [exact Hline|].
  split; [eapply speakerRegex_startsLabel, E|].
  split; [reflexivity|]. split; [reflexivity|]. split.
  - destruct (speakerRegex_hasLetter _ _ _ E) as (c & Hin & Hc).
    destruct (letter_plain c Hc) as (Hws & _ & H58 & H91 & H93 & _).
    assert (Hkeep : In c (trim (removePunctuation label))).
    { apply trim_keeps; [|exact Hws]. apply filter_In. split; [exact Hin|].
      apply N.eqb_neq in H58, H91, H93. now rewrite H58, H91, H93. }
    intros Hnil. rewrite Hnil in Hkeep. exact Hkeep.
  - apply Forall_forall. intros c Hc. apply list_elem_of_In, trim_In in Hc.
    apply filter_In in Hc as [_ Hc]. apply negb_true_iff in Hc.
    apply orb_false_elim in Hc as [Hc H93]. apply orb_false_elim in Hc as [H58 H91].
    apply N.eqb_neq in H58, H91, H93. auto.
Qed.

Lemma speaker_label_splits_the_line_witness :
  exists label rest,
    lit "Speaker 2: Good morning " = label ++ rest
    /\ startsLabel label
    /\ lit "Speaker 2" = trim (removePunctuation label)
    /\ lit "Good morning" = trim rest
    /\ lit "Speaker 2" <> []
    /\ Forall (fun c => c <> 58 /\ c <> 91 /\ c <> 93) (lit "Speaker 2").
Proof.
  apply (speaker_label_splits_the_line (lit "Speaker 2: Good morning ")).
  reflexivity.
Defined.

Lemma star_run class k ds s m rest :
  Forall (fun c => class c = true) ds ->
  match s with c :: _ => class c = false | [] => True end ->
  k s = Some (m, rest) ->
  Pattern.star class k (ds ++ s) = Some (ds ++ m, rest).
Proof.
  intros Hds Hs Hk. induction Hds as [|d ds Hd _ IH]; simpl.
  - destruct s as [|c r]; simpl; [exact Hk|]. now rewrite Hs.
  - now rewrite Hd, IH.
Qed.

Lemma label_assoc (x y : jsString) a b : (a :: x ++ [b]) ++ y = a :: x ++ b :: y.
Proof. simpl. now rewrite <- app_assoc. Qed.

Lemma sameLetter_refl a : Pattern.sameLetter a a = true.
Proof. apply N.eqb_refl. Qed.

Lemma word_self w k s :
  Pattern.word w k (w ++ s)
  = match k s with
    | Some (m, rest) => Some (w ++ m, rest)
    | None => None
    end.
Proof.
  induction w as [|a w IH]; simpl.
  - now destruct (k s) as [[m rest]|].
  - rewrite sameLetter_refl, IH. now destruct (k s) as [[m rest]|].
Qed.

Lemma trimStart_id c s : isWhiteSpace c = false -> trimStart (c :: s) = c :: s.
Proof. intros H. simpl. now rewrite H. Qed.

Lemma trimStart_last l c :
  isWhiteSpace c = false -> exists l', trimStart (l ++ [c]) = l' ++ [c].
Proof.
  intros Hc. induction l as [|x l IH]; simpl.
  - rewrite Hc. now exists [].
  - destruct (isWhiteSpace x); [exact IH|]. now exists (x :: l).
Qed.

(** A text that begins and ends with something else than white space is
    left as it is. *)
Lemma trim_id a s z :
  isWhiteSpace a = false -> isWhiteSpace z = false ->
  trim (a :: s ++ [z]) = a :: s ++ [z].
Proof.
  intros Ha Hz. unfold trim. rewrite trimStart_id by exact Ha.
  assert (Hrev : rev (a :: s ++ [z]) = z :: rev (a :: s)).
  { change (a :: s ++ [z]) with ((a :: s) ++ [z]). now rewrite rev_app_distr. }
  rewrite Hrev, trimStart_id by exact Hz. rewrite <- Hrev. apply rev_involutive.
Qed.

Lemma trim_head c s :
  isWhiteSpace c = false -> exists t, trim (c :: s) = c :: t.
Proof.
  intros Hc. unfold trim. rewrite trimStart_id by exact Hc.
  simpl rev at 2. destruct (trimStart_last (rev s) c Hc) as [l' ->].
  rewrite rev_app_distr. simpl. eauto.
Qed.

Lemma digit_plain c :
  Pattern.isDigit c = true ->
  isWhiteSpace c = false /\ c <> 58 /\ c <> 91 /\ c <> 93.
Proof.
  unfold Pattern.isDigit, isWhiteSpace, isLineTerminator. intros H.
  apply andb_prop in H as [H1 H2]. apply N.leb_le in H1, H2.
  split; [comparisons_false|]. lia.
Qed.

Lemma removePunctuation_plain l :
  Forall (fun c => c <> 58 /\ c <> 91 /\ c <> 93) l -> removePunctuation l = l.
Proof.
  induction 1 as [|c l (H58 & H91 & H93) _ IH]; [reflexivity|].
  unfold removePunctuation in *. simpl.
  apply N.eqb_neq in H58, H91, H93. rewrite H58, H91, H93. simpl. now rewrite IH.
Qed.

Lemma removePunctuation_app l l' :
  removePunctuation (l ++ l') = removePunctuation l ++ removePunctuation l'.
Proof. apply List.filter_app. Qed.

(** X12. The diarization instruction asks the model for lines of the form
    [[Speaker 1]: Hello.]  Of such a line the pattern takes the label up to
    the closing bracket only, so the colon that follows stays at the head
    of the content that is shown. *)
Theorem instructed_speaker_format_keeps_its_colon (digits rest : jsString) :
  digits <> [] -> Forall (fun c => Pattern.isDigit c = true) digits ->
  parseLine (lit "[Speaker " ++ digits ++ lit "]:" ++ rest)
  = Labelled (lit "Speaker " ++ digits) (trim (58 :: rest))
  /\ (exists shown, trim (58 :: rest) = 58 :: shown)
  /\ includes (lit "[Speaker 1]: Hello.") (systemInstruction false true) = true.
Proof.
  intros Hne Hds. split; [|split; [now apply trim_head|now vm_compute]].
  pose proof (parseLine_match (lit "[Speaker " ++ digits ++ lit "]:" ++ rest)) as H.
  destruct digits as [|d ds]; [congruence|]. clear Hne.
  inversion_clear Hds as [|? ? Hd Hds'].
  assert (Hline : lit "[Speaker " ++ (d :: ds) ++ lit "]:" ++ rest
                  = 91 :: lit "Speaker" ++ 32 :: d :: ds ++ 93 :: 58 :: rest).
  { change (lit "[Speaker ") with (91 :: lit "Speaker" ++ [32]).
    change (lit "]:") with [93; 58]. now rewrite label_assoc. }
  assert (Hlabel : lit "[Speaker " ++ (d :: ds) ++ [93]
                   = 91 :: lit "Speaker" ++ 32 :: d :: ds ++ [93]).
  { change (lit "[Speaker ") with (91 :: lit "Speaker" ++ [32]).
    now rewrite label_assoc. }
  assert (E : speakerRegex (lit "[Speaker " ++ (d :: ds) ++ lit "]:" ++ rest)
              = Some (lit "[Speaker " ++ (d :: ds) ++ [93], 58 :: rest)).
  { rewrite Hline, Hlabel. unfold speakerRegex.
    set (number := Pattern.opt isWhiteSpace _).
    assert (Hnum : number (32 :: d :: ds ++ 93 :: 58 :: rest)
                   = Some (32 :: d :: ds ++ [93], 58 :: rest)).
    { subst number. unfold Pattern.opt, Pattern.plus. cbn [Pattern.one].
      change (isWhiteSpace 32) with true. cbn iota. rewrite Hd.
      rewrite (star_run Pattern.isDigit _ ds (93 :: 58 :: rest) [93] (58 :: rest));
        [reflexivity|exact Hds'|reflexivity|reflexivity]. }
    unfold Pattern.alt at 1. unfold Pattern.opt at 1. cbn [Pattern.one].
    change (Pattern.exactly 91 91) with true. cbn iota.
    unfold Pattern.alt at 1. rewrite word_self, Hnum. reflexivity. }
  rewrite E in H. destruct H as [_ ->]. f_equal.
  rewrite !removePunctuation_app.
  set (p := lit "[Speaker "). vm_compute in p. subst p.
  change (removePunctuation [93]) with (@nil N). rewrite app_nil_r.
  rewrite (removePunctuation_plain (d :: ds)).
  2:{ apply Forall_forall. intros c Hc. apply digit_plain.
      inversion Hc; subst; [exact Hd|].
      rewrite Forall_forall in Hds'. now apply Hds'. }
  set (q := lit "Speaker "). vm_compute in q. subst q.
  change (removePunctuation [91; 83; 112; 101; 97; 107; 101; 114; 32])
    with [83; 112; 101; 97; 107; 101; 114; 32].
  assert (Hlast : exists body z, d :: ds = body ++ [z] /\ Pattern.isDigit z = true).
  { destruct (exists_last (l := d :: ds)) as (body & z & Hz); [discriminate|].
    exists body, z. split; [exact Hz|].
    assert (Hin : In z (d :: ds)) by (rewrite Hz; apply in_or_app; right; now left).
    destruct Hin as [<-|Hin]; [exact Hd|].
    rewrite Forall_forall in Hds'. now apply Hds', list_elem_of_In. }
  destruct Hlast as (body & z & -> & Hz).
  destruct (digit_plain z Hz) as (Hws & _).
  change ([83; 112; 101; 97; 107; 101; 114; 32] ++ body ++ [z])
    with (83 :: ([112; 101; 97; 107; 101; 114; 32] ++ body ++ [z])).
  rewrite app_assoc. now apply trim_id.
Qed.

Lemma instructed_speaker_format_keeps_its_colon_witness :
  parseLine (lit "[Speaker " ++ lit "1" ++ lit "]:" ++ lit " Hello.")
  = Labelled (lit "Speaker " ++ lit "1") (trim (58 :: lit " Hello."))
  /\ trim (58 :: lit " Hello.") = lit ": Hello.".
Proof.
  split; [|reflexivity].
  destruct (instructed_speaker_format_keeps_its_colon (lit "1") (lit " Hello."))
    as (H & _); [discriminate|repeat constructor|exact H].
Defined.

(** The numbered label does not match where a letter or a colon stands. *)
Lemma word_fails w0 k :
  Forall (fun a => Pattern.isLetter a = true) w0 ->
  (forall w rest, Forall (fun c => Pattern.isLetter c = true) w ->
     k (w ++ 58 :: rest) = None) ->
  forall w rest, Forall (fun c => Pattern.isLetter c = true) w ->
    Pattern.word w0 k (w ++ 58 :: rest) = None.
Proof.
  intros Hw0 Hk. induction Hw0 as [|a w0 Ha _ IH]; intros w rest Hw; simpl.
  - now apply Hk.
  - destruct Hw as [|c w Hc Hw]; simpl.
    + replace (Pattern.sameLetter a 58) with false; [reflexivity|].
      symmetry. destruct (Pattern.sameLetter a 58) eqn:E; [|reflexivity].
      pose proof (PatternFacts.canonicalize_letter a 58 Ha E). discriminate.
    + destruct (Pattern.sameLetter a c); [|reflexivity]. now rewrite IH.
Qed.

Lemma number_fails k w rest :
  Forall (fun c => Pattern.isLetter c = true) w ->
  Pattern.opt isWhiteSpace (Pattern.plus Pattern.isDigit k) (w ++ 58 :: rest) = None.
Proof.
  intros Hw. unfold Pattern.opt, Pattern.plus.
  destruct Hw as [|c w Hc _]; simpl; [reflexivity|].
  destruct (letter_plain c Hc) as (-> & -> & _). reflexivity.
Qed.

Lemma speakerRegex_word w rest :
  w <> [] -> Forall (fun c => Pattern.isLetter c = true) w ->
  speakerRegex (w ++ 58 :: rest) = Some (w ++ [58], rest).
Proof.
  intros Hne Hw. unfold speakerRegex, Pattern.alt.
  replace (Pattern.opt (Pattern.exactly 91) _ (w ++ 58 :: rest)) with
    (@None (jsString * jsString)).
  - destruct Hw as [|c w Hc Hw]; [congruence|]. unfold Pattern.plus. simpl.
    rewrite Hc.
    now rewrite (star_run Pattern.isLetter _ w (58 :: rest) [58] rest).
  - symmetry. unfold Pattern.opt at 1.
    replace (Pattern.one (Pattern.exactly 91) _ (w ++ 58 :: rest)) with
      (@None (jsString * jsString)).
    + unfold Pattern.alt.
      rewrite !word_fails; try reflexivity; try exact Hw;
        try (intros; now apply number_fails);
        repeat constructor.
    + destruct Hw as [|c w Hc Hw]; [congruence|]. simpl.
      destruct (letter_plain c Hc) as (_ & _ & _ & H91 & _).
      unfold Pattern.exactly. apply N.eqb_neq in H91. now rewrite H91.
Qed.

Lemma splitLines_single text : ~ In 10 text -> splitLines text = [text].
Proof.
  induction text as [|c r IH]; intros H; simpl; [reflexivity|].
  destruct (N.eqb_spec c 10) as [->|_]; [exfalso; apply H; now left|].
  rewrite IH; [reflexivity|]. intros Hin. apply H. now right.
Qed.

(** X13. Any line that begins with a word and a colon is shown as spoken
    by a speaker of that name, whoever wrote it and whatever the word is:
    the word becomes the label and only what follows the colon is shown as
    content. *)
Theorem a_word_and_a_colon_make_a_speaker (msg : Message) (w rest : jsString) :
  msgRole msg <> system ->
  msgText msg = w ++ 58 :: rest ->
  w <> [] -> Forall (fun c => Pattern.isLetter c = true) w -> ~ In 10 rest ->
  MessageBubble msg
  = Speech (match msgRole msg with user => true | _ => false end)
      [Labelled w (trim rest)].
Proof.
  intros Hrole Htext Hne Hw Hrest.
  assert (Hparse : parseSpeakerText (msgText msg) = [Labelled w (trim rest)]).
  { unfold parseSpeakerText. rewrite Htext, splitLines_single.
    - simpl. f_equal. pose proof (parseLine_match (w ++ 58 :: rest)) as H.
      rewrite (speakerRegex_word w rest Hne Hw) in H. destruct H as [_ ->].
      f_equal. rewrite removePunctuation_app.
      change (removePunctuation [58]) with (@nil N). rewrite app_nil_r.
      rewrite removePunctuation_plain.
      2:{ eapply Forall_impl; [exact Hw|]. intros c Hc.
          destruct (letter_plain c Hc) as (_ & _ & ? & ? & ? & _). auto. }
      destruct (exists_last Hne) as (body & z & ->).
      destruct body as [|a body].
      + simpl. inversion_clear Hw as [|? ? Hz _].
        destruct (letter_plain z Hz) as (Hws & _).
        unfold trim. simpl. rewrite Hws. simpl. now rewrite Hws.
      + simpl. apply trim_id.
        * inversion_clear Hw as [|? ? Ha _]. now apply letter_plain.
        * rewrite Forall_forall in Hw. apply letter_plain, Hw, list_elem_of_In.
          right. apply in_or_app. right. now left.
    - intros Hin. apply in_app_or in Hin as [Hin|[Hin|Hin]].
      + rewrite Forall_forall in Hw. apply list_elem_of_In, Hw, letter_plain in Hin.
        now destruct Hin as (_ & _ & _ & _ & _ & Hin).
      + discriminate.
      + contradiction. }
  unfold MessageBubble. rewrite Hparse.
  destruct (msgRole msg); [reflexivity|reflexivity|congruence].
Qed.

Lemma a_word_and_a_colon_make_a_speaker_witness :
  MessageBubble (mkMessage (lit "5u") user (lit "https://example.org") 5)
  = Speech true [Labelled (lit "https") (lit "//example.org")].
Proof.
  apply (a_word_and_a_colon_make_a_speaker
           (mkMessage (lit "5u") user (lit "https://example.org") 5)
           (lit "https") (lit "//example.org")).
  - discriminate.
  - reflexivity.
  - discriminate.
  - repeat constructor.
  - vm_compute. intuition discriminate.
Defined.

Lemma splitLines_cons text : exists line lines, splitLines text = line :: lines.
Proof.
  induction text as [|c r (line & lines & IH)]; simpl; [eauto|].
  destruct (c =? 10); [eauto|]. rewrite IH. eauto.
Qed.

Lemma length_splitLines text :
  length (splitLines text) = S (count_occ N.eq_dec text 10).
Proof.
  induction text as [|c r IH]; simpl; [reflexivity|].
  destruct (N.eqb_spec c 10) as [->|Hc].
  - simpl. destruct (N.eq_dec 10 10); [now rewrite IH|congruence].
  - destruct (N.eq_dec c 10); [congruence|].
    destruct (splitLines_cons r) as (line & lines & E). rewrite E in *. exact IH.
Qed.

Lemma joinLines_splitLines text : joinLines (splitLines text) = text.
Proof.
  induction text as [|c r IH]; simpl; [reflexivity|].
  destruct (splitLines_cons r) as (line & lines & E). rewrite E in *.
  rewrite <- IH.
  destruct (c =? 10) eqn:Ec.
  - apply N.eqb_eq in Ec. subst c. reflexivity.
  - destruct lines; reflexivity.
Qed.

Lemma startsLabel_app m rest : startsLabel m -> startsLabel (m ++ rest).
Proof. destruct m; [contradiction|auto]. Qed.

(** X14. A text is shown line by line, one block for each of its lines
    (an empty one included), in order.  A text none of whose lines begins
    with a letter or an opening bracket gets no label, and what is shown,
    put together again with line feeds, is the text. *)
Theorem text_is_shown_line_by_line (text : jsString) :
  length (parseSpeakerText text) = S (count_occ N.eq_dec text 10)
  /\ joinLines (splitLines text) = text
  /\ (Forall (fun line => ~ startsLabel line) (splitLines text) ->
      parseSpeakerText text = map Plain (splitLines text)
      /\ joinLines (map blockText (parseSpeakerText text)) = text).
Proof.
  split; [|split].
  - unfold parseSpeakerText. rewrite length_map. apply length_splitLines.
  - apply joinLines_splitLines.
  - intros Hplain.
    assert (H : parseSpeakerText text = map Plain (splitLines text)).
    { unfold parseSpeakerText. apply map_ext_in. intros line Hin.
      rewrite Forall_forall in Hplain. apply list_elem_of_In, Hplain in Hin.
      pose proof (parseLine_match line) as Hm.
      destruct (speakerRegex line) as [[label rest]|] eqn:E; [|exact Hm].
      destruct Hm as [-> _]. exfalso. apply Hin, startsLabel_app.
      eapply speakerRegex_startsLabel, E. }
    split; [exact H|]. rewrite H, map_map. simpl. rewrite map_id.
    apply joinLines_splitLines.
Qed.

Lemma text_is_shown_line_by_line_witness :
  let text := lit "1. first" ++ 10 :: lit "- second" ++ [10] in
  parseSpeakerText text = [Plain (lit "1. first"); Plain (lit "- second"); Plain []]
  /\ joinLines (map blockText (parseSpeakerText text)) = text.
Proof.
  cbv zeta.
  destruct (text_is_shown_line_by_line (lit "1. first" ++ 10 :: lit "- second" ++ [10]))
    as (_ & _ & H).
  destruct H as [H1 H2].
  - vm_compute. repeat constructor; intuition discriminate.
  - split; [exact H1|exact H2].
Defined.

(** ** The realtime transcriber *)

Module TranscriberFacts.
Import BatchTranscriber Transcriber.

Lemma run_cons cb e es s : run cb (e :: es) s = run cb es (step cb s e).
Proof. reflexivity. Qed.

Lemma frame_sent cb inputData s s' :
  onaudioprocess cb inputData s = Ok s' ->
  exists base64, s' = with_world (sendRealtimeInput (sessionPromise cb) base64) s.
Proof.
  unfold onaudioprocess.
  destruct (frameToWire _) as [base64|e]; [simpl|discriminate].
  intros [= <-]. now exists base64.
Qed.

(** One event, with the handler that may throw resolved. *)
Lemma step_cases cb s e :
  match e with
  | Opened => step cb s e = onopen cb s
  | Received msg => step cb s e = onmessage msg s
  | AudioProcess inputData =>
      (exists base64,
         step cb s e = with_world (sendRealtimeInput (sessionPromise cb) base64) s)
      \/ exists ex, step cb s e = log (Uncaught ex) s
  | Closed => step cb s e = onclose s
  | Errored => step cb s e = onerror s
  end.
Proof.
  destruct e as [|msg|inputData| |]; try reflexivity. cbn [step].
  destruct (onaudioprocess cb inputData s) as [s'|ex] eqn:E; [|eauto].
  left. eapply frame_sent, E.
Qed.

Lemma onmessage_fields msg s :
  let text := match inputTranscription msg with Some text => text | None => [] end in
  transcription (onmessage msg s) = transcription s ++ text
  /\ currentTranscriptRef (onmessage msg s) = currentTranscriptRef s ++ text
  /\ holds (onmessage msg s) = holds s
  /\ world (onmessage msg s) = world s.
Proof.
  unfold onmessage. destruct (inputTranscription msg) as [[|c text]|]; cbn;
    rewrite ?app_nil_r; repeat split.
Qed.

Lemma step_fields cb s e :
  transcription (step cb s e) = transcription s ++ heard [e]
  /\ currentTranscriptRef (step cb s e) = currentTranscriptRef s ++ heard [e]
  /\ holds (step cb s e) = holds s
  /\ streams (world (step cb s e)) = streams (world s)
  /\ contexts (world (step cb s e)) = contexts (world s)
  /\ sources (world (step cb s e)) = sources (world s)
  /\ (forall i, processorDisconnected (world (step cb s e)) i
                = processorDisconnected (world s) i)
  /\ (forall i, sessionIsClosed (world (step cb s e)) i
                = sessionIsClosed (world s) i).
Proof.
  pose proof (step_cases cb s e) as H.
  destruct e as [|msg|inputData| |]; unfold heard; cbn [flat_map];
    rewrite ?app_nil_r.
  - rewrite H. repeat split. intros i.
    unfold processorDisconnected. cbn.
    rewrite list_lookup_alter. case_decide; [subst|reflexivity].
    now destruct (processors (world s) !! _).
  - rewrite H. destruct (onmessage_fields msg s) as (Ht & Hc & Hh & Hw).
    cbv zeta in Ht, Hc. rewrite Ht, Hc, Hh, Hw. repeat split.
  - destruct H as [[base64 ->]|[ex ->]]; repeat split. intros i.
    unfold sessionIsClosed. cbn.
    rewrite list_lookup_alter. case_decide; [subst|reflexivity].
    now destruct (sessions (world s) !! _).
  - rewrite H. repeat split.
  - rewrite H. repeat split.
Qed.

Lemma heard_cons e es : heard (e :: es) = heard [e] ++ heard es.
Proof. unfold heard. cbn [flat_map]. now rewrite app_nil_r. Qed.

Lemma run_transcript cb es s :
  transcription (run cb es s) = transcription s ++ heard es
  /\ currentTranscriptRef (run cb es s) = currentTranscriptRef s ++ heard es
  /\ holds (run cb es s) = holds s.
Proof.
  revert s. induction es as [|e es IH]; intros s.
  - cbn. rewrite !app_nil_r. repeat split.
  - rewrite run_cons, heard_cons.
    destruct (IH (step cb s e)) as (-> & -> & ->).
    destruct (step_fields cb s e) as (-> & -> & -> & _).
    rewrite !app_assoc. repeat split.
Qed.

End TranscriberFacts.

(** X15. Between the start and the stop the transcript is exactly the
    texts received, in order, on the screen and in the ref alike.  No event
    of the link stops the recording or releases anything, a close and an
    error included: the recorder, the streams, the processor, the context
    and the session stay as they are until the user presses stop. *)
Theorem link_trouble_does_not_stop_the_transcriber
    (cb : Transcriber.Callbacks) (es : list Transcriber.Event)
    (s : BatchTranscriber.State) :
  let s' := Transcriber.run cb es s in
  BatchTranscriber.transcription s'
  = BatchTranscriber.transcription s ++ Transcriber.heard es
  /\ BatchTranscriber.currentTranscriptRef s'
     = BatchTranscriber.currentTranscriptRef s ++ Transcriber.heard es
  /\ Transcriber.holds s' = Transcriber.holds s
  /\ streams (BatchTranscriber.world s') = streams (BatchTranscriber.world s)
  /\ contexts (BatchTranscriber.world s') = contexts (BatchTranscriber.world s)
  /\ (forall i, processorDisconnected (BatchTranscriber.world s') i
                = processorDisconnected (BatchTranscriber.world s) i)
  /\ (forall i, sessionIsClosed (BatchTranscriber.world s') i
                = sessionIsClosed (BatchTranscriber.world s) i).
Proof.
  cbv zeta.
  destruct (TranscriberFacts.run_transcript cb es s) as (Ht & Hc & Hh).
  split; [exact Ht|]. split; [exact Hc|]. split; [exact Hh|].
  clear Ht Hc Hh. revert s. induction es as [|e es IH]; intros s.
  - repeat split.
  - rewrite TranscriberFacts.run_cons.
    destruct (IH (Transcriber.step cb s e)) as (Hst & Hcx & Hp & Hs).
    destruct (TranscriberFacts.step_fields cb s e)
      as (_ & _ & _ & Hst1 & Hcx1 & _ & Hp1 & Hs1).
    rewrite Hst, Hcx, Hst1, Hcx1.
    split; [reflexivity|]. split; [reflexivity|]. split.
    + intros i. now rewrite Hp, Hp1.
    + intros i. now rewrite Hs, Hs1.
Qed.

Module TranscriberTeardown.
Import BatchTranscriber Transcriber.

Lemma teardown_world s :
  streams (world (cleanupAudio s))
  = fold_left (fun l i => alter stopTracks i l) (mediaStreamsRef s)
      (streams (world s))
  /\ processors (world (cleanupAudio s))
     = match processorRef s with
       | Some p => alter (fun x => mkProcessor false (procInputs x) (procHandler x)) p
                     (processors (world s))
       | None => processors (world s)
       end
  /\ contexts (world (cleanupAudio s))
     = match audioContextRef s with
       | Some c => alter (fun _ => closed) c (contexts (world s))
       | None => contexts (world s)
       end
  /\ sessions (world (cleanupAudio s))
     = match sessionRef s with
       | Some h => alter (fun l => mkLiveSession (systemInstructionOf l)
                                     (sentRealtimeInput l) true) h
                     (sessions (world s))
       | None => sessions (world s)
       end
  /\ sources (world (cleanupAudio s)) = sources (world s).
Proof.
  destruct s as [? ? ? ? au mr pr sr ms ? w ?].
  unfold cleanupAudio. destruct mr as [[|]|], pr, au, sr; cbn;
    rewrite fold_stopStream; repeat split.
Qed.

Lemma teardown_cells s :
  mediaStreamsRef (cleanupAudio s) = []
  /\ processorRef (cleanupAudio s) = None
  /\ audioContextRef (cleanupAudio s) = None
  /\ sessionRef (cleanupAudio s) = None
  /\ isRecording (cleanupAudio s) = false
  /\ mediaRecorderRef (cleanupAudio s)
     = match mediaRecorderRef s with
       | Some recording => Some inactive
       | r => r
       end
  /\ transcription (cleanupAudio s) = transcription s
  /\ currentTranscriptRef (cleanupAudio s) = currentTranscriptRef s
  /\ streamError (cleanupAudio s) = streamError s.
Proof.
  destruct s as [? ? ? ? au mr pr sr ms ? w ?].
  unfold cleanupAudio. destruct mr as [[|]|], pr, au, sr; cbn; repeat split.
Qed.

Lemma quiescent_is_tracked s : quiescent (world s) = true -> tracked s.
Proof.
  intros H i. destruct (proj1 (quiescent_lookup _) H i) as (H1 & H2 & H3 & H4 & H5).
  rewrite H1, H2, H3, H4. repeat split; try discriminate. exact H5.
Qed.

(** After teardown nothing that was tracked is left running. *)
Lemma teardown_quiescent s : tracked s -> quiescent (world (cleanupAudio s)) = true.
Proof.
  intros Ht. apply quiescent_lookup. intros i.
  destruct (Ht i) as (Hst & Hpr & Hcx & Hse & Hso).
  destruct (teardown_world s) as (Ws & Wp & Wc & Wse & Wso).
  unfold streamStopped, processorDisconnected, contextClosed, sessionIsClosed,
    sourceIsStopped in *.
  rewrite Ws, Wp, Wc, Wse, Wso. repeat split.
  - rewrite (lookup_fold_alter _ stopTracks_idem).
    destruct (decide (i ∈ mediaStreamsRef s)) as [Hin|Hout].
    + destruct (streams (world s) !! i); simpl; [apply stopTracks_stopped|reflexivity].
    + destruct (streams (world s) !! i) as [tracks|]; [|reflexivity].
      destruct (forallb trackStopped tracks) eqn:E; [reflexivity|].
      exfalso. apply Hout, Hst. reflexivity.
  - destruct (processorRef s) as [p|].
    + rewrite list_lookup_alter. case_decide; subst.
      * destruct (processors (world s) !! i); reflexivity.
      * destruct (processors (world s) !! i) as [x|]; [|reflexivity].
        destruct (procConnected x); [|reflexivity].
        exfalso. specialize (Hpr eq_refl). congruence.
    + destruct (processors (world s) !! i) as [x|]; [|reflexivity].
      destruct (procConnected x); [|reflexivity]. now specialize (Hpr eq_refl).
  - destruct (audioContextRef s) as [c|].
    + rewrite list_lookup_alter. case_decide; subst.
      * destruct (contexts (world s) !! i); reflexivity.
      * destruct (contexts (world s) !! i) as [[|]|]; try reflexivity.
        exfalso. specialize (Hcx eq_refl). congruence.
    + destruct (contexts (world s) !! i) as [[|]|]; try reflexivity.
      now specialize (Hcx eq_refl).
  - destruct (sessionRef s) as [h|].
    + rewrite list_lookup_alter. case_decide; subst.
      * destruct (sessions (world s) !! i); reflexivity.
      * destruct (sessions (world s) !! i) as [x|]; [|reflexivity].
        destruct (sessionClosed x); [reflexivity|].
        exfalso. specialize (Hse eq_refl). congruence.
    + destruct (sessions (world s) !! i) as [x|]; [|reflexivity].
      destruct (sessionClosed x); [reflexivity|]. now specialize (Hse eq_refl).
  - exact Hso.
Qed.

Lemma tracked_step cb s e : tracked s -> tracked (step cb s e).
Proof.
  intros Ht i. destruct (Ht i) as (H1 & H2 & H3 & H4 & H5).
  destruct (TranscriberFacts.step_fields cb s e)
    as (_ & _ & Hh & Hst & Hcx & Hso & Hp & Hs).
  unfold holds in Hh. injection Hh as -> -> -> -> _ _.
  unfold streamStopped, contextClosed, sourceIsStopped in *.
  rewrite Hst, Hcx, Hso, Hp, Hs. auto.
Qed.

Lemma tracked_run cb es s : tracked s -> tracked (run cb es s).
Proof.
  revert s. induction es as [|e es IH]; intros s Ht; [exact Ht|].
  rewrite TranscriberFacts.run_cons. apply IH, tracked_step, Ht.
Qed.

(** What [startRealtimeRecording] leaves running is held by the refs. *)
Lemma tracked_start env s :
  quiescent (world s) = true -> tracked (startRealtimeRecording env s).
Proof.
  intros Hq. pose proof (proj1 (quiescent_lookup _) Hq) as Hall.
  destruct s as [? ? usa ? au mr pr sr ms ? [cx st ps ss srcs] ?].
  unfold startRealtimeRecording. cbn.
  destruct (getUserMedia env) as [|msg].
  - unfold acquireSystemAudio. cbn.
    destruct usa; [destruct (getDisplayMedia env) as [[|]|]|]; cbn.
    all: intros i; destruct (Hall i) as (H1 & H2 & H3 & H4 & H5); cbn in *.
    all: unfold streamStopped, processorDisconnected, contextClosed,
           sessionIsClosed, sourceIsStopped in *; cbn in *.
    all: repeat split; try assumption.
    all: intros Hlive.
    all: repeat match goal with
           | H : match (_ ++ _) !! _ with _ => _ end = false |- _ =>
               apply live_app in H; cbn in H; destruct H as [H|H]
           end.
    all: try congruence.
    all: rewrite ?length_app in *; cbn [length] in *.
    all: try (f_equal; lia).
    all: apply list_elem_of_In; rewrite <- ?app_assoc; apply in_or_app; right;
      simpl; lia.
  - apply quiescent_is_tracked, teardown_quiescent.
    intros i; destruct (Hall i) as (H1 & H2 & H3 & H4 & H5); cbn in *.
    unfold streamStopped, processorDisconnected, contextClosed,
      sessionIsClosed, sourceIsStopped in *; cbn in *.
    rewrite H1, H2, H4. repeat split; try discriminate; try assumption.
    intros Hlive. apply live_app in Hlive. cbn in Hlive.
    destruct Hlive as [Hlive|Hlive]; [congruence|]. f_equal. lia.
Qed.

End TranscriberTeardown.

Lemma startRealtimeRecording_fresh env (s : BatchTranscriber.State) :
  let s1 := BatchTranscriber.startRealtimeRecording env s in
  BatchTranscriber.transcription s1 = []
  /\ BatchTranscriber.currentTranscriptRef s1 = []
  /\ match getUserMedia env with
     | MicGranted =>
         BatchTranscriber.isRecording s1 = true
         /\ BatchTranscriber.mediaRecorderRef s1 = Some BatchTranscriber.recording
     | MicDenied message =>
         BatchTranscriber.isRecording s1 = false
         /\ BatchTranscriber.streamError s1
            = Some (if truthy message then message
                    else lit "Could not start recording.")
     end.
Proof.
  cbv zeta. unfold BatchTranscriber.startRealtimeRecording.
  destruct (getUserMedia env) as [|message].
  - unfold BatchTranscriber.acquireSystemAudio. cbn.
    destruct (BatchTranscriber.useSystemAudio s);
      [destruct (getDisplayMedia env) as [[|]|]|]; cbn; repeat split.
  - match goal with
    | |- context [BatchTranscriber.cleanupAudio ?x] =>
        destruct (TranscriberTeardown.teardown_cells x)
          as (_ & _ & _ & _ & -> & _ & -> & -> & ->)
    end.
    repeat split.
Qed.

(** X16. The transcriber releases what it has acquired.  Started in a world
    where nothing is running, whatever the link and the processor do in
    between, a stop leaves no track live, no processor connected, no
    context open and no session open, holds nothing and is not recording;
    a refused microphone leaves the same, with the error shown. *)
Theorem transcriber_teardown_leaves_nothing_running
    (env : Env) (cb : Transcriber.Callbacks) (es : list Transcriber.Event)
    (s : BatchTranscriber.State) :
  quiescent (BatchTranscriber.world s) = true ->
  let s1 := Transcriber.stopRealtimeRecording
              (Transcriber.run cb es (BatchTranscriber.startRealtimeRecording env s)) in
  quiescent (BatchTranscriber.world s1) = true
  /\ BatchTranscriber.mediaStreamsRef s1 = []
  /\ BatchTranscriber.processorRef s1 = None
  /\ BatchTranscriber.audioContextRef s1 = None
  /\ BatchTranscriber.sessionRef s1 = None
  /\ BatchTranscriber.isRecording s1 = false
  /\ BatchTranscriber.mediaRecorderRef s1 <> Some BatchTranscriber.recording
  /\ (forall message,
        getUserMedia env = MicDenied message ->
        let s0 := BatchTranscriber.startRealtimeRecording env s in
        quiescent (BatchTranscriber.world s0) = true
        /\ BatchTranscriber.isRecording s0 = false
        /\ BatchTranscriber.streamError s0
           = Some (if truthy message then message
                   else lit "Could not start recording.")).
Proof.
  intros Hq. cbv zeta. unfold Transcriber.stopRealtimeRecording.
  destruct (TranscriberTeardown.teardown_cells
              (Transcriber.run cb es (BatchTranscriber.startRealtimeRecording env s)))
    as (-> & -> & -> & -> & -> & -> & _).
  split; [|split; [|split; [|split; [|split; [|split; [|split]]]]]];
    try reflexivity.
  - apply TranscriberTeardown.teardown_quiescent,
      TranscriberTeardown.tracked_run, TranscriberTeardown.tracked_start, Hq.
  - destruct (BatchTranscriber.mediaRecorderRef _) as [[|]|]; discriminate.
  - intros message Hmic.
    pose proof (startRealtimeRecording_fresh env s) as (_ & _ & H).
    rewrite Hmic in H. destruct H as [Hrec Herr].
    split; [|split; [exact Hrec|exact Herr]].
    unfold BatchTranscriber.startRealtimeRecording. rewrite Hmic.
    apply TranscriberTeardown.teardown_quiescent.
    intros i. destruct (proj1 (quiescent_lookup _) Hq i) as (H1 & H2 & H3 & H4 & H5).
    unfold streamStopped, processorDisconnected, contextClosed,
      sessionIsClosed, sourceIsStopped in *. cbn.
    rewrite H1, H2, H4. repeat split; try discriminate; try assumption.
    intros Hlive. apply live_app in Hlive. cbn in Hlive.
    destruct Hlive as [Hlive|Hlive]; [congruence|]. f_equal. lia.
Qed.

Lemma transcriber_teardown_leaves_nothing_running_witness :
  let env := mkEnv MicGranted (DisplayGranted true) in
  let s := BatchTranscriber.mkState [] false true None None None None None []
             [] (mkWorld [] [] [] [] []) [] in
  let cb := Transcriber.mkCallbacks 0 0 in
  let es := [Transcriber.Opened; Transcriber.AudioProcess [0%Q; 1%Q];
             Transcriber.Errored; Transcriber.Closed] in
  let s0 := Transcriber.run cb es (BatchTranscriber.startRealtimeRecording env s) in
  quiescent (BatchTranscriber.world s0) = false
  /\ BatchTranscriber.isRecording s0 = true
  /\ quiescent (BatchTranscriber.world (Transcriber.stopRealtimeRecording s0)) = true.
Proof.
  cbv zeta. split; [reflexivity|]. split; [reflexivity|].
  destruct (transcriber_teardown_leaves_nothing_running
              (mkEnv MicGranted (DisplayGranted true))
              (Transcriber.mkCallbacks 0 0)
              [Transcriber.Opened; Transcriber.AudioProcess [0%Q; 1%Q];
               Transcriber.Errored; Transcriber.Closed]
              (BatchTranscriber.mkState [] false true None None None None None []
                 [] (mkWorld [] [] [] [] []) []) eq_refl) as (H & _).
  exact H.
Defined.

(** X17. The badge [SAVED] and the save do not test the same thing.  When
    a recording is stopped the badge is shown as soon as the transcript is
    not empty, while the handler of the recorder saves the transcript only
    if it is not blank: a transcript of white space alone is shown as saved
    and is not. *)
Theorem saved_badge_is_not_the_save
    (env : Env) (cb : Transcriber.Callbacks) (es : list Transcriber.Event)
    (s : BatchTranscriber.State) :
  getUserMedia env = MicGranted ->
  let s0 := Transcriber.run cb es (BatchTranscriber.startRealtimeRecording env s) in
  let s1 := Transcriber.stopRealtimeRecording s0 in
  let text := Transcriber.heard es in
  BatchTranscriber.mediaRecorderRef s0 = Some BatchTranscriber.recording
  /\ BatchTranscriber.mediaRecorderRef s1 = Some BatchTranscriber.inactive
  /\ Transcriber.savedBadge s1 = truthy text
  /\ Transcriber.onstop s1
     = (if nonBlank text then [(text, model, lit "batch")] else [])
  /\ (text <> [] -> nonBlank text = false ->
      Transcriber.savedBadge s1 = true /\ Transcriber.onstop s1 = []).
Proof.
  intros Hmic. cbv zeta.
  pose proof (startRealtimeRecording_fresh env s) as (Ht0 & Hc0 & H).
  rewrite Hmic in H. destruct H as [_ Hrec0].
  destruct (TranscriberFacts.run_transcript cb es
              (BatchTranscriber.startRealtimeRecording env s))
    as (Ht & Hc & Hh).
  rewrite Ht0 in Ht. rewrite Hc0 in Hc. cbn [app] in Ht, Hc.
  assert (Hrec : BatchTranscriber.mediaRecorderRef
                   (Transcriber.run cb es (BatchTranscriber.startRealtimeRecording env s))
                 = Some BatchTranscriber.recording).
  { unfold Transcriber.holds in Hh. injection Hh as _ _ _ _ Hm _. congruence. }
  unfold Transcriber.stopRealtimeRecording.
  destruct (TranscriberTeardown.teardown_cells
              (Transcriber.run cb es (BatchTranscriber.startRealtimeRecording env s)))
    as (_ & _ & _ & _ & Hrec1 & Hm1 & Ht1 & Hc1 & _).
  assert (Hbadge : Transcriber.savedBadge
                     (BatchTranscriber.cleanupAudio
                        (Transcriber.run cb es
                           (BatchTranscriber.startRealtimeRecording env s)))
                   = truthy (Transcriber.heard es)).
  { unfold Transcriber.savedBadge. now rewrite Hrec1, Ht1, Ht. }
  assert (Hsave : Transcriber.onstop
                    (BatchTranscriber.cleanupAudio
                       (Transcriber.run cb es
                          (BatchTranscriber.startRealtimeRecording env s)))
                  = (if nonBlank (Transcriber.heard es)
                     then [(Transcriber.heard es, model, lit "batch")] else [])).
  { unfold Transcriber.onstop, nonBlank. now rewrite Hc1, Hc. }
  split; [exact Hrec|]. split; [now rewrite Hm1, Hrec|].
  split; [exact Hbadge|]. split; [exact Hsave|].
  intros Hne Hblank. rewrite Hbadge, Hsave, Hblank.
  split; [|reflexivity]. now destruct (Transcriber.heard es).
Qed.

Lemma saved_badge_is_not_the_save_witness :
  let env := mkEnv MicGranted DisplayDeclined in
  let s := BatchTranscriber.mkState [] false false None None None None None []
             [] (mkWorld [] [] [] [] []) [] in
  let es := [Transcriber.Opened;
             Transcriber.Received (mkLiveServerMessage None None (Some (lit " ")) false)] in
  let s1 := Transcriber.stopRealtimeRecording
              (Transcriber.run (Transcriber.mkCallbacks 0 0) es
                 (BatchTranscriber.startRealtimeRecording env s)) in
  Transcriber.savedBadge s1 = true /\ Transcriber.onstop s1 = [].
Proof.
  cbv zeta.
  destruct (saved_badge_is_not_the_save
              (mkEnv MicGranted DisplayDeclined) (Transcriber.mkCallbacks 0 0)
              [Transcriber.Opened;
               Transcriber.Received
                 (mkLiveServerMessage None None (Some (lit " ")) false)]
              (BatchTranscriber.mkState [] false false None None None None None []
                 [] (mkWorld [] [] [] [] []) []) eq_refl)
    as (_ & _ & _ & _ & H).
  apply H; [discriminate|reflexivity].
Defined.

(** ** The chat *)

Module FastChatFacts.
Import FastChat.

Lemma historyOf_app l l' : historyOf (l ++ l') = historyOf l ++ historyOf l'.
Proof. unfold historyOf. now rewrite List.filter_app, map_app. Qed.

(** What one operation does to the log and to the saved transcripts. *)
Lemma perform_log s o :
  exists added,
    messages (fst (perform s o)) = messages s ++ added
    /\ savedTranscripts (fst (perform s o))
       = savedTranscripts s ++ toSave (lit "chat") added
    /\ wellFormed added
    /\ match snd (perform s o) with
       | Some q =>
           history q = historyOf (messages s)
           /\ historyOf added = [(user, message q)]
           /\ nonBlank (message q) = true
       | None => True
       end.
Proof.
  destruct o as [value|clock|[text|error] clock]; cbn [perform fst snd].
  - exists []. rewrite !app_nil_r. repeat split. constructor.
  - unfold sendMessage.
    destruct (truthy (trim (input s))) eqn:E; cbn [negb fst snd].
    + eexists. split; [reflexivity|]. split; [reflexivity|].
      split; [|repeat split; exact E]. repeat constructor. exact E.
    + exists []. rewrite !app_nil_r. repeat split. constructor.
  - eexists. split; [reflexivity|]. split; [reflexivity|]. split; [|exact I].
    repeat constructor. cbn.
    destruct text as [[|c t]|]; cbn; discriminate.
  - eexists. split; [reflexivity|]. split; [now rewrite app_nil_r|].
    split; [|exact I]. repeat constructor.
Qed.

End FastChatFacts.

(** X18. Whatever is typed, sent and answered, and in whatever order the
    answers come back, the chat log only grows, the saved transcripts are
    its user and model messages with the kind [chat], no user message in
    it is blank and no model message is empty (a missing or empty answer is
    replaced by a fixed text). *)
Theorem chat_log_is_saved_and_well_formed
    (os : list FastChat.Operation) (s : FastChat.State) :
  FastChat.savedTranscripts s = toSave (lit "chat") (FastChat.messages s) ->
  FastChat.wellFormed (FastChat.messages s) ->
  let s' := fst (FastChat.performAll os s) in
  (exists added, FastChat.messages s' = FastChat.messages s ++ added)
  /\ FastChat.savedTranscripts s' = toSave (lit "chat") (FastChat.messages s')
  /\ FastChat.wellFormed (FastChat.messages s').
Proof.
  cbv zeta. revert s. induction os as [|o os IH]; intros s Hsaved Hwf.
  - split; [exists []; now rewrite app_nil_r|]. split; assumption.
  - cbn [FastChat.performAll].
    destruct (FastChatFacts.perform_log s o) as (a1 & Hm & Hs & Hw & _).
    destruct (FastChat.perform s o) as [s1 r]. cbn [fst] in *.
    destruct (IH s1) as ((a2 & Hm2) & Hs2 & Hw2).
    + now rewrite Hs, Hm, toSave_app, Hsaved.
    + rewrite Hm. apply Forall_app. split; assumption.
    + destruct (FastChat.performAll os s1) as [s2 rs]. cbn [fst] in *.
      split; [|split; assumption].
      exists (a1 ++ a2). now rewrite Hm2, Hm, app_assoc.
Qed.

Lemma chat_log_is_saved_and_well_formed_witness :
  let os := [FastChat.Type_ (lit "hello"); FastChat.Send 5; FastChat.Send 6;
             FastChat.Type_ (lit " "); FastChat.Send 7;
             FastChat.Settle (FastChat.Replied (Some [])) 8;
             FastChat.Type_ (lit "again"); FastChat.Send 9;
             FastChat.Settle (FastChat.Failed (lit "offline")) 10] in
  let s' := fst (FastChat.performAll os (FastChat.initialState 0)) in
  FastChat.savedTranscripts s' = toSave (lit "chat") (FastChat.messages s')
  /\ FastChat.wellFormed (FastChat.messages s')
  /\ FastChat.savedTranscripts s'
     = [(lit "hello", user, lit "chat");
        (lit "No response received.", model, lit "chat");
        (lit "again", user, lit "chat")].
Proof.
  cbv zeta.
  destruct (chat_log_is_saved_and_well_formed
              [FastChat.Type_ (lit "hello"); FastChat.Send 5; FastChat.Send 6;
               FastChat.Type_ (lit " "); FastChat.Send 7;
               FastChat.Settle (FastChat.Replied (Some [])) 8;
               FastChat.Type_ (lit "again"); FastChat.Send 9;
               FastChat.Settle (FastChat.Failed (lit "offline")) 10]
              (FastChat.initialState 0)) as (_ & Hs & Hw).
  - reflexivity.
  - repeat constructor.
  - split; [exact Hs|]. split; [exact Hw|]. reflexivity.
Defined.

Lemma chat_requests_extend (os : list FastChat.Operation) (s : FastChat.State) :
  Forall (fun q => exists pre,
            FastChat.history q = FastChat.historyOf (FastChat.messages s) ++ pre)
    (snd (FastChat.performAll os s)).
Proof.
  revert s. induction os as [|o os IH]; intros s; [constructor|].
  cbn [FastChat.performAll].
  destruct (FastChatFacts.perform_log s o) as (added & Hm & _ & _ & Hq).
  destruct (FastChat.perform s o) as [s1 r]. cbn [fst snd] in *.
  specialize (IH s1). destruct (FastChat.performAll os s1) as [s2 rs]. cbn [snd] in *.
  assert (Hrs : Forall (fun q => exists pre,
                          FastChat.history q
                          = FastChat.historyOf (FastChat.messages s) ++ pre) rs).
  { eapply Forall_impl; [exact IH|]. intros q [pre Hpre].
    rewrite Hm, FastChatFacts.historyOf_app, <- app_assoc in Hpre. eauto. }
  destruct r as [q|]; [|exact Hrs].
  constructor; [|exact Hrs]. exists []. rewrite app_nil_r. apply Hq.
Qed.

(** X19. Every request carries the conversation so far and nothing else:
    its history has no system message (the notices of failure included),
    its message is what was typed, not blank, and the history of every
    later request begins with the history of this one followed by its own
    message, whether or not it was answered in between. *)
Theorem chat_history_is_the_conversation_so_far
    (os : list FastChat.Operation) (s : FastChat.State) :
  let requests := snd (FastChat.performAll os s) in
  Forall (fun q => nonBlank (FastChat.message q) = true
                   /\ Forall (fun turn => fst turn <> system) (FastChat.history q))
    requests
  /\ ForallOrdPairs
       (fun q1 q2 => exists more,
          FastChat.history q2
          = FastChat.history q1 ++ (user, FastChat.message q1) :: more)
       requests.
Proof.
  cbv zeta. revert s. induction os as [|o os IH]; intros s;
    [split; constructor|].
  cbn [FastChat.performAll].
  destruct (FastChatFacts.perform_log s o) as (added & Hm & _ & _ & Hq).
  pose proof (chat_requests_extend os (fst (FastChat.perform s o))) as Hext.
  destruct (FastChat.perform s o) as [s1 r]. cbn [fst snd] in *.
  destruct (IH s1) as [Hall Hpairs].
  destruct (FastChat.performAll os s1) as [s2 rs]. cbn [snd] in *.
  destruct r as [q|]; [|split; assumption].
  destruct Hq as (Hh & Hadd & Hnb). split.
  - constructor; [|exact Hall]. split; [exact Hnb|].
    rewrite Hh. unfold FastChat.historyOf. apply Forall_map, Forall_forall.
    intros m Hin. apply list_elem_of_In, filter_In in Hin as [_ Hin]. simpl.
    destruct (msgRole m); [discriminate|discriminate|discriminate Hin].
  - constructor; [|exact Hpairs].
    eapply Forall_impl; [exact Hext|]. intros q2 [pre Hpre]. simpl in Hpre.
    rewrite Hm, FastChatFacts.historyOf_app, Hadd, <- Hh, <- app_assoc in Hpre.
    eauto.
Qed.

(** ** Two more properties of the log *)

Lemma performAll_app os os' s :
  performAll (os ++ os') s = performAll os' (performAll os s).
Proof. apply fold_left_app. Qed.

Lemma performAll_transcripts os s :
  exists added, transcripts (performAll os s) = transcripts s ++ added.
Proof.
  revert s. induction os as [|o os IH]; intros s.
  - exists []. now rewrite app_nil_r.
  - rewrite performAll_cons.
    destruct (perform_journal s o) as (a1 & Ht1 & _).
    destruct (IH (perform s o)) as (a2 & Ht2).
    exists (a1 ++ a2). now rewrite Ht2, Ht1, app_assoc.
Qed.

(** X20. The ids of the messages are used as keys of the list that is
    rendered, and they are not unique: every session that opens appends a
    message with the id [sys-start], and no handler removes a message, so
    from the second opening on the log holds two messages with one id. *)
Theorem session_start_messages_share_one_id
    (before between after : list Operation)
    (cl1 cl2 : Closure) (clock1 clock2 : N) (s : State) :
  let os := before ++ Session cl1 (Opened clock1)
            :: between ++ Session cl2 (Opened clock2) :: after in
  exists earlier m1 inBetween m2 later,
    transcripts (performAll os s) = earlier ++ m1 :: inBetween ++ m2 :: later
    /\ msgId m1 = lit "sys-start" /\ msgId m2 = lit "sys-start".
Proof.
  cbv zeta. rewrite performAll_app, performAll_cons.
  set (s1 := performAll before s).
  rewrite performAll_app, performAll_cons.
  destruct (performAll_transcripts after
              (perform (performAll between (perform s1 (Session cl1 (Opened clock1))))
                 (Session cl2 (Opened clock2)))) as (a3 & ->).
  cbn [perform sessionStep].
  destruct (onopen_journal cl2 clock2
              (performAll between (onopen cl1 clock1 s1))) as (-> & _).
  destruct (performAll_transcripts between (onopen cl1 clock1 s1)) as (a2 & ->).
  destruct (onopen_journal cl1 clock1 s1) as (-> & _).
  eexists (transcripts s1), _, a2, _, a3.
  split; [rewrite <- !app_assoc; reflexivity|split; reflexivity].
Qed.

Lemma trimStart_blank l :
  Forall (fun c => isWhiteSpace c = true) l -> trimStart l = [].
Proof.
  induction 1 as [|c l Hc _ IH]; [reflexivity|]. simpl. now rewrite Hc.
Qed.

(** X21. The end of a turn tests the output for blankness before it strips
    the language tag.  An output that begins with a tag is never blank, so
    it always gives a model message, saved as well, whose text is what
    follows the tag: for an output that is a tag and nothing else, an
    empty message. *)
Theorem a_tag_alone_gives_an_empty_model_message
    (cl : Closure) (clock : N) (lang : jsString) (s : State) :
  langMatch (currentOutputTransRef s) = Some lang ->
  let s' := deliver cl (turnCompleted clock) s in
  let text := stripLangTag (currentOutputTransRef s) in
  last (transcripts s') = Some (modelMessage clock text)
  /\ last (savedTranscripts s') = Some (text, model, lit "live")
  /\ (forall blanks,
        currentOutputTransRef s = lit "[LANG:" ++ lang ++ lit "]" ++ blanks ->
        Forall (fun c => isWhiteSpace c = true) blanks ->
        text = []).
Proof.
  intros Htag. cbv zeta. rewrite deliver_turnCompleted.
  destruct (onTurnComplete_spec clock s) as (Ht & Hs & _).
  rewrite Ht, Hs, (langMatch_nonBlank _ _ Htag).
  split; [|split].
  - rewrite app_assoc. apply last_snoc.
  - rewrite app_assoc. apply last_snoc.
  - intros blanks Ho Hblanks.
    destruct (stripLangTag_spec _ _ Htag) as (rest & Ho' & ->).
    rewrite Ho in Ho'. apply app_inv_head in Ho'. apply app_inv_head in Ho'.
    apply app_inv_head in Ho'. subst rest. now apply trimStart_blank.
Qed.

Lemma a_tag_alone_gives_an_empty_model_message_witness :
  let s := deliver someClosure (outputDelta 2 "[LANG:English] ") (initialState 0) in
  let s' := deliver someClosure (turnCompleted 3) s in
  last (transcripts s') = Some (modelMessage 3 [])
  /\ last (savedTranscripts s') = Some ([], model, lit "live").
Proof.
  cbv zeta.
  destruct (a_tag_alone_gives_an_empty_model_message someClosure 3 (lit "English")
              (deliver someClosure (outputDelta 2 "[LANG:English] ") (initialState 0))
              eq_refl) as (Ht & Hs & Hempty).
  rewrite (Hempty (lit " ") eq_refl) in Ht, Hs by (repeat constructor).
  split; [exact Ht|exact Hs].
Defined.

(** ** Uploads *)

(** X22. A request that fails is never recovered from.  The [catch] of
    [transcribeUploadedFile] does not cover the request, which is made
    later by the handler of the reader: when it is rejected the error text
    is not shown and [isProcessing] stays set, and from then on nothing the
    user can do (choosing another file, clicking) clears it or starts
    another request: the button, when shown, is disabled. *)
Theorem a_failed_upload_request_is_never_recovered
    (os : list Upload.Operation) (s : Upload.State) :
  Upload.processButton s = Some true ->
  forallb Upload.byUser os = true ->
  let s1 := Upload.onloadend Upload.Rejected (Upload.onClick Upload.ReaderStarted s) in
  let s2 := Upload.performAll os s1 in
  Upload.isProcessing s1 = true
  /\ Upload.transcription s1 = Upload.transcription s
  /\ Upload.isProcessing s2 = true
  /\ Upload.processButton s2 <> Some true
  /\ Upload.savedTranscripts s2 = Upload.savedTranscripts s.
Proof.
  intros Hbutton Huser. cbv zeta.
  assert (Hblob : exists f, Upload.audioBlob s = Some f).
  { unfold Upload.processButton in Hbutton.
    destruct (Upload.audioBlob s); [eauto|discriminate]. }
  destruct Hblob as [f Hf].
  assert (H1 : Upload.isProcessing
                 (Upload.onloadend Upload.Rejected
                    (Upload.onClick Upload.ReaderStarted s)) = true
               /\ Upload.transcription
                    (Upload.onloadend Upload.Rejected
                       (Upload.onClick Upload.ReaderStarted s))
                  = Upload.transcription s
               /\ Upload.savedTranscripts
                    (Upload.onloadend Upload.Rejected
                       (Upload.onClick Upload.ReaderStarted s))
                  = Upload.savedTranscripts s).
  { unfold Upload.onClick. rewrite Hbutton.
    unfold Upload.transcribeUploadedFile. rewrite Hf. repeat split. }
  destruct H1 as (Hp1 & Ht1 & Hs1).
  split; [exact Hp1|]. split; [exact Ht1|].
  set (s1 := Upload.onloadend Upload.Rejected
               (Upload.onClick Upload.ReaderStarted s)) in *.
  clearbody s1. rewrite <- Hs1. clear Hs1 Ht1 Hbutton Hf f s.
  assert (H : Upload.isProcessing (Upload.performAll os s1) = true
              /\ Upload.savedTranscripts (Upload.performAll os s1)
                 = Upload.savedTranscripts s1).
  { revert s1 Hp1. induction os as [|o os IH]; intros s1 Hp1; [now split|].
    cbn [forallb] in Huser. apply andb_prop in Huser as [Ho Hos].
    change (Upload.performAll (o :: os) s1)
      with (Upload.performAll os (Upload.perform s1 o)).
    assert (Hstep : Upload.isProcessing (Upload.perform s1 o) = true
                    /\ Upload.savedTranscripts (Upload.perform s1 o)
                       = Upload.savedTranscripts s1).
    { destruct o as [[file|]|start|outcome]; cbn [Upload.perform]; try discriminate.
      - now split.
      - now split.
      - unfold Upload.onClick, Upload.processButton. rewrite Hp1.
        destruct (Upload.audioBlob s1); [|now split].
        destruct (negb (Upload.isRecording s1)
                  && negb (truthy (Upload.transcription s1))); now split. }
    destruct Hstep as [Hp Hs]. destruct (IH Hos _ Hp) as [IHp IHs].
    split; [exact IHp|congruence]. }
  destruct H as [Hp Hs]. split; [exact Hp|]. split; [|exact Hs].
  unfold Upload.processButton. rewrite Hp.
  destruct (Upload.audioBlob _); [|discriminate].
  destruct (negb _ && negb _); discriminate.
Qed.

Lemma a_failed_upload_request_is_never_recovered_witness :
  let s := Upload.handleFileUpload (Some (Upload.mkBlob (lit "audio/wav") 2048))
             (Upload.mkState None [] false false []) in
  let s2 := Upload.performAll
              [Upload.Click Upload.ReaderStarted;
               Upload.Upload (Some (Upload.mkBlob (lit "audio/mpeg") 4096));
               Upload.Click Upload.ReaderStarted]
              (Upload.onloadend Upload.Rejected
                 (Upload.onClick Upload.ReaderStarted s)) in
  Upload.processButton s = Some true
  /\ Upload.isProcessing s2 = true
  /\ Upload.processButton s2 = Some false.
Proof.
  cbv zeta. split; [reflexivity|]. split; [|reflexivity].
  destruct (a_failed_upload_request_is_never_recovered
              [Upload.Click Upload.ReaderStarted;
               Upload.Upload (Some (Upload.mkBlob (lit "audio/mpeg") 4096));
               Upload.Click Upload.ReaderStarted]
              (Upload.handleFileUpload (Some (Upload.mkBlob (lit "audio/wav") 2048))
                 (Upload.mkState None [] false false []))
              eq_refl eq_refl) as (_ & _ & H & _).
  exact H.
Defined.

(** ** A screen capture that brings no audio *)

Lemma connect_audioless env s :
  getUserMedia env = MicGranted -> useSystemAudio s = true ->
  getDisplayMedia env = DisplayGranted false ->
  exists s1 cl,
    connect env s = (s1, Some cl)
    /\ mediaStreamsRef s1
       = mediaStreamsRef s
         ++ [length (streams (world s)); S (length (streams (world s)))]
    /\ streams (world s1)
       = streams (world s)
         ++ [[mkTrack audioTrack false]; [mkTrack videoTrack false]]
    /\ processors (world s1) !! processor cl
       = Some (mkProcessor true [length (streams (world s))] false).
Proof.
  intros Hmic Husa Hdsp.
  destruct s as [? ? ? ? ? usa ? ? ? ? ms ? ? ? ? ? ? ? ? [cx st ps ss srcs] ? ?].
  cbn in Husa. subst usa.
  unfold connect, acquireSystemAudio. cbn. rewrite Hmic. cbn. rewrite Hdsp. cbn.
  do 2 eexists. split; [reflexivity|]. cbn.
  rewrite length_app, <- !app_assoc. cbn. rewrite Nat.add_1_r.
  repeat split. now rewrite lookup_app_r, Nat.sub_diag by lia.
Qed.

Lemma sessionStep_streams cl s e :
  streams (world (sessionStep cl s e)) = streams (world s)
  /\ mediaStreamsRef (sessionStep cl s e) = mediaStreamsRef s.
Proof.
  pose proof (sessionStep_cases cl s e) as Hstep.
  destruct e as [clock|d|inputData rms|source].
  - rewrite Hstep. now split.
  - destruct Hstep as [(s1 & Hplay & ->)|[->|[ex ->]]].
    + pose proof (afterAudio_handles (atClock d) (message d) s1) as H.
      unfold handles in H. injection H as -> -> _ _ _ _ _.
      apply playAudio_inv in Hplay as (b & -> & _). now split.
    + pose proof (afterAudio_handles (atClock d) (message d) s) as H.
      unfold handles in H. injection H as -> -> _ _ _ _ _. now split.
    + now split.
  - destruct Hstep as [[base64 ->]|[ex ->]]; now split.
  - rewrite Hstep. now split.
Qed.

Lemma sessionRun_streams cl es s :
  streams (world (sessionRun cl es s)) = streams (world s)
  /\ mediaStreamsRef (sessionRun cl es s) = mediaStreamsRef s.
Proof.
  revert s. induction es as [|e es IH]; intros s; [now split|].
  change (sessionRun cl (e :: es) s) with (sessionRun cl es (sessionStep cl s e)).
  destruct (IH (sessionStep cl s e)) as [-> ->]. apply sessionStep_streams.
Qed.

(** X23. When the user shares a screen without audio, the capture is kept
    although nothing of it is used: its stream is not connected to the
    processor, which the microphone alone feeds, yet its video track stays
    live through the whole session, whatever happens in it, and is stopped
    only by the teardown. *)
Theorem an_unused_screen_capture_stays_on
    (env : Env) (es : list SessionEvent) (x : Exit) (s : State) :
  getUserMedia env = MicGranted -> useSystemAudio s = true ->
  getDisplayMedia env = DisplayGranted false ->
  let mic := length (streams (world s)) in
  let screen := S (length (streams (world s))) in
  exists s1 cl,
    connect env s = (s1, Some cl)
    /\ processors (world s1) !! processor cl = Some (mkProcessor true [mic] false)
    /\ streams (world (sessionRun cl es s1)) !! screen
       = Some [mkTrack videoTrack false]
    /\ streamStopped (world (sessionRun cl es s1)) screen = false
    /\ streamStopped (world (exitBy cl x (sessionRun cl es s1))) screen = true.
Proof.
  intros Hmic Husa Hdsp. cbv zeta.
  destruct (connect_audioless env s Hmic Husa Hdsp) as (s1 & cl & E & Hms & Hst & Hp).
  exists s1, cl. split; [exact E|]. split; [exact Hp|].
  destruct (sessionRun_streams cl es s1) as [Hst' Hms'].
  assert (Hscreen : streams (world (sessionRun cl es s1))
                      !! S (length (streams (world s)))
                    = Some [mkTrack videoTrack false]).
  { rewrite Hst', Hst, lookup_app_r by lia.
    now replace (S (length (streams (world s))) - length (streams (world s)))%nat
      with 1%nat by lia. }
  split; [exact Hscreen|]. split; [unfold streamStopped; now rewrite Hscreen|].
  destruct (exitBy_cleanupAudio cl x (sessionRun cl es s1)) as (s0 & -> & Hh).
  unfold handles in Hh. injection Hh as Hw Hm _ _ _ _ _.
  unfold streamStopped. rewrite cleanupAudio_streams, Hw, Hm, Hms', Hms.
  rewrite (lookup_fold_alter _ stopTracks_idem).
  destruct (decide (S (length (streams (world s)))
                    ∈ mediaStreamsRef s ++
                      [length (streams (world s)); S (length (streams (world s)))]))
    as [_|Hout].
  - rewrite Hscreen. reflexivity.
  - exfalso. apply Hout. apply elem_of_app. right. right. left.
Qed.

Lemma an_unused_screen_capture_stays_on_witness :
  let env := mkEnv MicGranted (DisplayGranted false) in
  let s := set_useSystemAudio true (initialState 0) in
  exists s1 cl,
    connect env s = (s1, Some cl)
    /\ processors (world s1) !! processor cl = Some (mkProcessor true [0%nat] false)
    /\ streams (world (sessionRun cl [Opened 1] s1)) !! 1%nat
       = Some [mkTrack videoTrack false]
    /\ streamStopped (world (sessionRun cl [Opened 1] s1)) 1 = false
    /\ streamStopped (world (exitBy cl ExplicitStop (sessionRun cl [Opened 1] s1))) 1
       = true.
Proof.
  cbv zeta.
  apply (an_unused_screen_capture_stays_on
           (mkEnv MicGranted (DisplayGranted false)) [Opened 1] ExplicitStop
           (set_useSystemAudio true (initialState 0))); reflexivity.
Defined.

(** ** The language tag, exactly *)

Lemma lazyUntilBracket_run g rest :
  Forall (fun c => c <> 93 /\ isLineTerminator c = false) g ->
  lazyUntilBracket (g ++ 93 :: rest) = Some (g, rest).
Proof.
  induction 1 as [|c g [Hc Hlt] _ IH]; simpl; [reflexivity|].
  apply N.eqb_neq in Hc. now rewrite Hc, Hlt, IH.
Qed.

Lemma lazyUntilBracket_chars s g rest :
  lazyUntilBracket s = Some (g, rest) ->
  Forall (fun c => c <> 93 /\ isLineTerminator c = false) g.
Proof.
  revert g. induction s as [|c s IH]; intros g; simpl; [discriminate|].
  destruct (N.eqb_spec c 93) as [->|Hc]; [intros [= <- <-]; constructor|].
  destruct (isLineTerminator c) eqn:Hlt; [discriminate|].
  destruct (lazyUntilBracket s) as [[g' rest']|]; [|discriminate].
  intros [= <- <-]. constructor; [now split|]. now apply IH.
Qed.

(** X24. The language reported is the text between [[LANG:] at the very
    start of the output and the first closing bracket after it, on one
    line: exactly the outputs of that form carry a tag, an empty name
    included.  What is kept of a tagged output is what follows the bracket,
    without the white space in front; an output without a tag is kept as it
    is. *)
Theorem language_tag_is_read_up_to_the_first_bracket (output : jsString) :
  (forall lang,
     langMatch output = Some lang
     <-> exists rest,
           output = lit "[LANG:" ++ lang ++ 93 :: rest
           /\ Forall (fun c => c <> 93 /\ isLineTerminator c = false) lang)
  /\ (forall lang rest,
        output = lit "[LANG:" ++ lang ++ 93 :: rest ->
        Forall (fun c => c <> 93 /\ isLineTerminator c = false) lang ->
        stripLangTag output = trimStart rest)
  /\ (langMatch output = None -> stripLangTag output = output).
Proof.
  split; [|split].
  - intros lang. unfold langMatch. split.
    + destruct (stripPrefix (lit "[LANG:") output) as [r|] eqn:Ep; [|discriminate].
      destruct (lazyUntilBracket r) as [[g rest]|] eqn:El; [|discriminate].
      intros [= <-]. exists rest.
      rewrite (stripPrefix_Some _ _ _ Ep), (lazyUntilBracket_Some _ _ _ El).
      split; [reflexivity|]. eapply lazyUntilBracket_chars, El.
    + intros (rest & -> & Hlang).
      now rewrite stripPrefix_self, lazyUntilBracket_run.
  - intros lang rest -> Hlang. unfold stripLangTag.
    now rewrite stripPrefix_self, lazyUntilBracket_run.
  - unfold langMatch, stripLangTag.
    destruct (stripPrefix (lit "[LANG:") output) as [r|]; [|reflexivity].
    destruct (lazyUntilBracket r) as [[g rest]|]; [discriminate|reflexivity].
Qed.

Lemma language_tag_is_read_up_to_the_first_bracket_witness :
  langMatch (lit "[LANG:] [x]") = Some []
  /\ stripLangTag (lit "[LANG:] [x]") = lit "[x]".
Proof.
  destruct (language_tag_is_read_up_to_the_first_bracket (lit "[LANG:] [x]"))
    as (Hmatch & Hstrip & _).
  split.
  - apply Hmatch. exists (lit " [x]"). split; [reflexivity|constructor].
  - apply (Hstrip [] (lit " [x]")); [reflexivity|constructor].
Defined.

(** * The turn and the teardown under every interleaving *)

(** ** The language tag of a turn *)

Lemma onInputTranscription_turn text s :
  currentOutputTransRef (onInputTranscription text s) = currentOutputTransRef s
  /\ transcripts (onInputTranscription text s) = transcripts s
  /\ turnLanguageDetectedRef (onInputTranscription text s)
     = turnLanguageDetectedRef s.
Proof. repeat split. Qed.

(** What a message that does not end the turn does to the log, the output
    accumulator and the flag of the turn: nothing when it carries no output
    delta, and otherwise what the delta does. *)
Lemma afterAudio_in_turn clock msg s :
  turnComplete msg = false ->
  let s' := afterAudio clock msg s in
  match outputTranscription msg with
  | Some text =>
      let o := currentOutputTransRef s ++ text in
      currentOutputTransRef s' = o
      /\ transcripts s'
         = transcripts s
           ++ match langMatch o with
              | Some lang =>
                  if turnLanguageDetectedRef s then []
                  else [languageMessage clock lang]
              | None => []
              end
      /\ turnLanguageDetectedRef s'
         = match langMatch o with
           | Some _ => true
           | None => turnLanguageDetectedRef s
           end
  | None =>
      currentOutputTransRef s' = currentOutputTransRef s
      /\ transcripts s' = transcripts s
      /\ turnLanguageDetectedRef s' = turnLanguageDetectedRef s
  end.
Proof.
  intros Htc. cbv zeta. unfold afterAudio. rewrite Htc.
  destruct (outputTranscription msg) as [text|].
  - destruct (onOutputTranscription_spec clock text s) as (Ho & _ & Ht & Hf).
    cbv zeta in Ho, Ht, Hf.
    destruct (inputTranscription msg) as [text'|]; [|auto].
    destruct (onInputTranscription_turn text' (onOutputTranscription clock text s))
      as (Ho' & Ht' & Hf').
    rewrite Ho', Ht', Hf'. auto.
  - destruct (inputTranscription msg) as [text'|]; [|auto].
    apply onInputTranscription_turn.
Qed.

Lemma deliver_in_turn cl d s :
  turnComplete (message d) = false ->
  let s' := deliver cl d s in
  (currentOutputTransRef s' = currentOutputTransRef s
   /\ transcripts s' = transcripts s
   /\ turnLanguageDetectedRef s' = turnLanguageDetectedRef s)
  \/ exists text,
       outputTranscription (message d) = Some text
       /\ currentOutputTransRef s' = currentOutputTransRef s ++ text
       /\ transcripts s'
          = transcripts s
            ++ match langMatch (currentOutputTransRef s ++ text) with
               | Some lang =>
                   if turnLanguageDetectedRef s then []
                   else [languageMessage (atClock d) lang]
               | None => []
               end
       /\ turnLanguageDetectedRef s'
          = match langMatch (currentOutputTransRef s ++ text) with
            | Some _ => true
            | None => turnLanguageDetectedRef s
            end.
Proof.
  intros Htc. cbv zeta.
  assert (Hafter : forall s1,
             transcripts s1 = transcripts s ->
             currentOutputTransRef s1 = currentOutputTransRef s ->
             turnLanguageDetectedRef s1 = turnLanguageDetectedRef s ->
             let s' := afterAudio (atClock d) (message d) s1 in
             (currentOutputTransRef s' = currentOutputTransRef s
              /\ transcripts s' = transcripts s
              /\ turnLanguageDetectedRef s' = turnLanguageDetectedRef s)
             \/ exists text,
                  outputTranscription (message d) = Some text
                  /\ currentOutputTransRef s' = currentOutputTransRef s ++ text
                  /\ transcripts s'
                     = transcripts s
                       ++ match langMatch (currentOutputTransRef s ++ text) with
                          | Some lang =>
                              if turnLanguageDetectedRef s then []
                              else [languageMessage (atClock d) lang]
                          | None => []
                          end
                  /\ turnLanguageDetectedRef s'
                     = match langMatch (currentOutputTransRef s ++ text) with
                       | Some _ => true
                       | None => turnLanguageDetectedRef s
                       end).
  { intros s1 Ht Ho Hf. cbv zeta.
    pose proof (afterAudio_in_turn (atClock d) (message d) s1 Htc) as H.
    cbv zeta in H. rewrite Ht, Ho, Hf in H.
    destruct (outputTranscription (message d)) as [text|].
    - right. exists text. split; [reflexivity|exact H].
    - left. exact H. }
  pose proof (sessionStep_cases cl s (Received d)) as Hcases.
  cbn [sessionStep] in Hcases.
  destruct Hcases as [(s1 & Hplay & ->)|[-> | (ex & ->)]].
  - apply playAudio_journal, journal_fields in Hplay as (Ht & _ & _ & Ho & _ & Hf).
    now apply Hafter.
  - now apply Hafter.
  - left. repeat split.
Qed.

(** Over a run of messages none of which ends the turn the output
    accumulator only grows and at most one language message is added: none
    when the flag is set at the start; none when the accumulator ends
    without a tag; and otherwise one, unless no output delta was handled at
    all. *)
Lemma language_reported_at_most_once cl ds s :
  Forall (fun d => turnComplete (message d) = false) ds ->
  let s' := deliverAll cl ds s in
  (exists text, currentOutputTransRef s' = currentOutputTransRef s ++ text)
  /\ exists added,
       transcripts s' = transcripts s ++ added
       /\ if turnLanguageDetectedRef s
          then added = [] /\ turnLanguageDetectedRef s' = true
          else match langMatch (currentOutputTransRef s') with
               | Some lang =>
                   (exists d, In d ds
                              /\ added = [languageMessage (atClock d) lang]
                              /\ turnLanguageDetectedRef s' = true)
                   \/ (added = []
                       /\ currentOutputTransRef s' = currentOutputTransRef s
                       /\ turnLanguageDetectedRef s' = false)
               | None => added = [] /\ turnLanguageDetectedRef s' = false
               end.
Proof.
  intros Hds. revert s. induction Hds as [|d ds Hd _ IH]; intros s; cbv zeta.
  - split; [exists []; now rewrite app_nil_r|].
    exists []. rewrite app_nil_r. split; [reflexivity|]. cbn.
    destruct (turnLanguageDetectedRef s) eqn:Ef; [auto|].
    destruct (langMatch (currentOutputTransRef s)); auto.
  - rewrite deliverAll_cons.
    destruct (IH (deliver cl d s)) as ((text' & Ho') & added & Ht' & Hadded).
    cbv zeta in Ho', Ht', Hadded.
    destruct (deliver_in_turn cl d s Hd) as [(Ho & Ht & Hf)|(text & _ & Ho & Ht & Hf)];
      cbv zeta in Ho, Ht, Hf.
    + (* nothing done to the turn *)
      split; [exists text'; now rewrite Ho', Ho|].
      exists added. split; [now rewrite Ht', Ht|].
      rewrite Hf, Ho in Hadded.
      destruct (turnLanguageDetectedRef s); [exact Hadded|].
      destruct (langMatch (currentOutputTransRef (deliverAll cl ds (deliver cl d s))));
        [|exact Hadded].
      destruct Hadded as [(d' & Hin & Ha & Hf')|Hnone]; [left|right; exact Hnone].
      exists d'. split; [now right|]. split; assumption.
    + (* an output delta *)
      split; [exists (text ++ text'); now rewrite Ho', Ho, app_assoc|].
      rewrite Ht', Ht, <- app_assoc. eexists. split; [reflexivity|].
      rewrite Hf in Hadded.
      destruct (turnLanguageDetectedRef s) eqn:Ef.
      * destruct (langMatch (currentOutputTransRef s ++ text));
          destruct Hadded as [-> ->]; auto.
      * destruct (langMatch (currentOutputTransRef s ++ text)) as [lang|] eqn:El.
        -- destruct Hadded as [-> Hf'].
           rewrite Ho', Ho, (langMatch_app _ _ text' El), app_nil_r.
           left. exists d. split; [now left|]. split; [reflexivity|exact Hf'].
        -- destruct (langMatch (currentOutputTransRef
                                  (deliverAll cl ds (deliver cl d s)))) as [lang|] eqn:El'.
           ++ destruct Hadded as [(d' & Hin & -> & Hf')|(_ & Hsame & _)].
              ** left. exists d'. split; [now right|]. split; [reflexivity|exact Hf'].
              ** rewrite Hsame, Ho, El in El'. discriminate.
           ++ destruct Hadded as [-> Hf']. auto.
Qed.

Lemma flagImpliesTag_same s s' :
  currentOutputTransRef s' = currentOutputTransRef s ->
  turnLanguageDetectedRef s' = turnLanguageDetectedRef s ->
  flagImpliesTag s -> flagImpliesTag s'.
Proof. unfold flagImpliesTag. now intros -> ->. Qed.

Lemma flagImpliesTag_clear s : turnLanguageDetectedRef s = false -> flagImpliesTag s.
Proof. unfold flagImpliesTag. congruence. Qed.

Lemma flagImpliesTag_cleanupAudio s : flagImpliesTag (cleanupAudio s).
Proof. apply flagImpliesTag_clear, cleanupAudio_cells. Qed.

Lemma flagImpliesTag_afterAudio clock msg s :
  flagImpliesTag s -> flagImpliesTag (afterAudio clock msg s).
Proof.
  intros Hinv.
  assert (Hmid : flagImpliesTag (afterAudio clock
                   (mkLiveServerMessage (audioData msg) (outputTranscription msg)
                      (inputTranscription msg) false) s)).
  { pose proof (afterAudio_in_turn clock
                  (mkLiveServerMessage (audioData msg) (outputTranscription msg)
                     (inputTranscription msg) false) s eq_refl) as H.
    cbv zeta in H. cbn [outputTranscription] in H.
    destruct (outputTranscription msg) as [text|] eqn:Eo.
    - destruct H as (Ho & _ & Hf). unfold flagImpliesTag. rewrite Ho, Hf.
      destruct (langMatch (currentOutputTransRef s ++ text)) as [lang|] eqn:El;
        [eauto|].
      intros Hflag. destruct (Hinv Hflag) as [lang Hl].
      rewrite (langMatch_app _ _ text Hl) in El. discriminate.
    - destruct H as (Ho & _ & Hf). eapply flagImpliesTag_same; eassumption. }
  destruct (turnComplete msg) eqn:Htc.
  - replace (afterAudio clock msg s)
      with (onTurnComplete clock
              (afterAudio clock
                 (mkLiveServerMessage (audioData msg) (outputTranscription msg)
                    (inputTranscription msg) false) s))
      by (unfold afterAudio; cbn; now rewrite Htc).
    set (s1 := afterAudio clock _ s) in *.
    destruct (onTurnComplete_spec clock s1) as (_ & _ & _ & _ & Ho & Hf).
    cbv zeta in Ho, Hf.
    destruct (nonBlank (currentOutputTransRef s1)).
    + now apply flagImpliesTag_clear.
    + eapply flagImpliesTag_same; eassumption.
  - replace (afterAudio clock msg s)
      with (afterAudio clock
              (mkLiveServerMessage (audioData msg) (outputTranscription msg)
                 (inputTranscription msg) false) s); [exact Hmid|].
    unfold afterAudio. cbn. now rewrite Htc.
Qed.

Lemma flagImpliesTag_sessionStep cl e s :
  flagImpliesTag s -> flagImpliesTag (sessionStep cl s e).
Proof.
  intros Hinv. pose proof (sessionStep_cases cl s e) as Hcases.
  destruct e as [clock|d|inputData rms|source].
  - rewrite Hcases.
    destruct (onopen_journal cl clock s) as (_ & _ & _ & _ & Ho & Hf).
    eapply flagImpliesTag_same; eassumption.
  - destruct Hcases as [(s1 & Hplay & ->)|[-> | (ex & ->)]].
    + apply flagImpliesTag_afterAudio.
      apply playAudio_journal, journal_fields in Hplay as (_ & _ & _ & Ho & _ & Hf).
      eapply flagImpliesTag_same; eassumption.
    + now apply flagImpliesTag_afterAudio.
    + exact Hinv.
  - destruct Hcases as [(base64 & ->)|(ex & ->)]; exact Hinv.
  - exact Hinv.
Qed.

Lemma flagImpliesTag_phase s ph : flagImpliesTag s -> flagImpliesTag (phase s ph).
Proof.
  intros Hinv.
  destruct ph as [|p [|m]|p mixer [[|]|]|cl e|cl [| |m]]; cbn [phase].
  - destruct (isActive s); [apply flagImpliesTag_cleanupAudio|exact Hinv].
  - unfold onMicrophoneAnswer. destruct (useSystemAudioOf p); exact Hinv.
  - apply flagImpliesTag_cleanupAudio.
  - exact Hinv.
  - exact Hinv.
  - exact Hinv.
  - now apply flagImpliesTag_sessionStep.
  - apply flagImpliesTag_cleanupAudio.
  - apply flagImpliesTag_cleanupAudio.
  - apply flagImpliesTag_cleanupAudio.
Qed.

Lemma flagImpliesTag_phases phs s : flagImpliesTag s -> flagImpliesTag (phases phs s).
Proof.
  revert s. induction phs as [|ph phs IH]; intros s Hinv; [exact Hinv|].
  apply IH. now apply flagImpliesTag_phase.
Qed.

(** Nothing but a message and a teardown touches the output accumulator or
    the flag of the turn, and a teardown clears the flag only. *)
Lemma phase_turn_state s ph :
  (forall cl d, ph <> Happens cl (Received d)) ->
  currentOutputTransRef (phase s ph) = currentOutputTransRef s
  /\ (turnLanguageDetectedRef (phase s ph) = turnLanguageDetectedRef s
      \/ turnLanguageDetectedRef (phase s ph) = false).
Proof.
  intros Hother.
  assert (Hclean : forall s0,
             currentOutputTransRef s0 = currentOutputTransRef s ->
             currentOutputTransRef (cleanupAudio s0) = currentOutputTransRef s
             /\ (turnLanguageDetectedRef (cleanupAudio s0) = turnLanguageDetectedRef s
                 \/ turnLanguageDetectedRef (cleanupAudio s0) = false)).
  { intros s0 Hs0. destruct (cleanupAudio_accumulators s0) as (_ & Ho & _).
    split; [congruence|right; apply cleanupAudio_cells]. }
  destruct ph as [|p [|m]|p mixer [[|]|]|cl e|cl [| |m]]; cbn [phase].
  - destruct (isActive s); [now apply Hclean|split; [reflexivity|now left]].
  - unfold onMicrophoneAnswer. destruct (useSystemAudioOf p);
      (split; [reflexivity|now left]).
  - now apply Hclean.
  - split; [reflexivity|now left].
  - split; [reflexivity|now left].
  - split; [reflexivity|now left].
  - pose proof (sessionStep_cases cl s e) as Hcases.
    destruct e as [clock|d|inputData rms|source].
    + rewrite Hcases. split; [reflexivity|now left].
    + now destruct (Hother cl d).
    + destruct Hcases as [(base64 & ->)|(ex & ->)]; (split; [reflexivity|now left]).
    + split; [reflexivity|now left].
  - now apply Hclean.
  - now apply Hclean.
  - now apply Hclean.
Qed.

(** C4, as stated, fails.  The flag is cleared by every teardown as well,
    and the teardown keeps the output accumulator.  A session stopped in
    the middle of a turn whose language has been reported, and started
    again: the first output delta of the new session reports the language a
    second time, and the turn, when it ends, gives its one model message. *)
Lemma language_is_reported_twice_in_one_turn :
  let env := mkEnv MicGranted DisplayDeclined in
  let cl2 := mkClosure false true 3 1 1 in
  let s := performAll
             [Click env;
              Session someClosure (Opened 1);
              Session someClosure (Received (outputDelta 2 "[LANG:English] Hel"));
              Click env;
              Click env;
              Session cl2 (Opened 3);
              Session cl2 (Received (outputDelta 4 "lo"));
              Session cl2 (Received (turnCompleted 5))]
             (initialState 0) in
  snd (connect env (initialState 0)) = Some someClosure
  /\ snd (connect env (onClick env (performAll
                                      [Click env;
                                       Session someClosure (Opened 1);
                                       Session someClosure
                                         (Received (outputDelta 2 "[LANG:English] Hel"))]
                                      (initialState 0))))
     = Some cl2
  /\ transcripts s
     = transcripts (initialState 0)
       ++ [mkMessage (lit "sys-start") system (sysStartText false true) 1;
           languageMessage 2 (lit "English");
           mkMessage (lit "sys-start") system (sysStartText false true) 3;
           languageMessage 4 (lit "English");
           modelMessage 5 (lit "Hello")].
Proof. cbv zeta. repeat split; reflexivity. Qed.

(** C4, amended.  Over a run of messages of a session none of which ends
    the turn, whatever the state the run starts in, at most one language
    message is added to the log: none when the flag is set at the start;
    one, at an output delta after which the accumulator starts with a tag,
    when the flag is clear and the accumulator ends with a tag, unless no
    output delta was handled at all; none when it ends without a tag.  The
    end of the turn finalizes a non-blank output without its tag and clears
    the flag; the flag is clear after the end of every turn in every state
    the handlers can reach, where a set flag goes with a tagged
    accumulator.  The flag is not only cleared there: every teardown clears
    it and keeps the accumulator, so that "once per turn" holds of a turn
    that no teardown cuts; nothing else that runs touches the two.  The deltas ["[LANG:"], ["English] Hi"] and the
    end of the turn give one message "Language Detected: English" and one
    model message ["Hi"]. *)
Theorem language_reported_once_between_resets
    (cl : Closure) (ds : list Delivery) (clock : N) (s : State) :
  Forall (fun d => turnComplete (message d) = false) ds ->
  let s1 := deliverAll cl ds s in
  let o := currentOutputTransRef s1 in
  let s2 := deliver cl (turnCompleted clock) s1 in
  (* one message of the turn *)
  (forall d0 s0,
     turnComplete (message d0) = false ->
     (currentOutputTransRef (deliver cl d0 s0) = currentOutputTransRef s0
      /\ transcripts (deliver cl d0 s0) = transcripts s0
      /\ turnLanguageDetectedRef (deliver cl d0 s0) = turnLanguageDetectedRef s0)
     \/ exists text,
          outputTranscription (message d0) = Some text
          /\ currentOutputTransRef (deliver cl d0 s0)
             = currentOutputTransRef s0 ++ text
          /\ transcripts (deliver cl d0 s0)
             = transcripts s0
               ++ match langMatch (currentOutputTransRef s0 ++ text) with
                  | Some lang =>
                      if turnLanguageDetectedRef s0 then []
                      else [languageMessage (atClock d0) lang]
                  | None => []
                  end
          /\ turnLanguageDetectedRef (deliver cl d0 s0)
             = match langMatch (currentOutputTransRef s0 ++ text) with
               | Some _ => true
               | None => turnLanguageDetectedRef s0
               end)
  (* all the messages of the run *)
  /\ (exists text, o = currentOutputTransRef s ++ text)
  /\ (exists added,
        transcripts s1 = transcripts s ++ added
        /\ if turnLanguageDetectedRef s
           then added = [] /\ turnLanguageDetectedRef s1 = true
           else match langMatch o with
                | Some lang =>
                    (exists d, In d ds
                               /\ added = [languageMessage (atClock d) lang]
                               /\ turnLanguageDetectedRef s1 = true)
                    \/ (added = []
                        /\ o = currentOutputTransRef s
                        /\ turnLanguageDetectedRef s1 = false)
                | None => added = [] /\ turnLanguageDetectedRef s1 = false
                end)
  (* at the end of the turn *)
  /\ (nonBlank o = true ->
      turnLanguageDetectedRef s2 = false
      /\ currentOutputTransRef s2 = []
      /\ exists before,
           transcripts s2 = before ++ [modelMessage clock (stripLangTag o)])
  /\ (flagImpliesTag s -> turnLanguageDetectedRef s2 = false)
  /\ (forall lang, langMatch o = Some lang ->
        exists rest, o = lit "[LANG:" ++ lang ++ lit "]" ++ rest
                     /\ stripLangTag o = trimStart rest)
  (* in every state the handlers can reach *)
  /\ (forall c phs, flagImpliesTag (phases phs (initialState c)))
  (* a teardown, and whatever else runs that is not a message *)
  /\ (forall x,
        turnLanguageDetectedRef (exitBy cl x s) = false
        /\ currentOutputTransRef (exitBy cl x s) = currentOutputTransRef s)
  /\ (forall ph,
        (forall cl' d, ph <> Happens cl' (Received d)) ->
        currentOutputTransRef (phase s ph) = currentOutputTransRef s
        /\ (turnLanguageDetectedRef (phase s ph) = turnLanguageDetectedRef s
            \/ turnLanguageDetectedRef (phase s ph) = false))
  (* the example of the specification *)
  /\ (currentOutputTransRef s = [] -> currentInputTransRef s = [] ->
      turnLanguageDetectedRef s = false ->
      forall c1 c2,
        transcripts (deliverAll cl [outputDelta c1 "[LANG:";
                                    outputDelta c2 "English] Hi";
                                    turnCompleted clock] s)
        = transcripts s ++ [languageMessage c2 (lit "English");
                            modelMessage clock (lit "Hi")]).
Proof.
  intros Hds. cbv zeta.
  destruct (language_reported_at_most_once cl ds s Hds) as (Hgrow & Hadded).
  cbv zeta in Hgrow, Hadded.
  set (s1 := deliverAll cl ds s) in *.
  rewrite deliver_turnCompleted.
  destruct (onTurnComplete_spec clock s1) as (Ht & _ & _ & _ & Ho & Hf).
  cbv zeta in Ht, Ho, Hf.
  split; [intros d0 s0 H0; exact (deliver_in_turn cl d0 s0 H0)|].
  split; [exact Hgrow|]. split; [exact Hadded|].
  split; [|split; [|split; [|split; [|split; [|split]]]]].
  - intros Hnb. rewrite Hf, Ho, Ht, Hnb, app_assoc. eauto.
  - intros Hinv. rewrite Hf.
    destruct (nonBlank (currentOutputTransRef s1)) eqn:E; [reflexivity|].
    destruct (turnLanguageDetectedRef s1) eqn:Ef1; [exfalso|reflexivity].
    assert (Hinv1 : flagImpliesTag s1).
    { subst s1. clear -Hinv. revert s Hinv.
      induction ds as [|d ds IH]; intros s Hinv; [exact Hinv|].
      rewrite deliverAll_cons. apply IH.
      exact (flagImpliesTag_sessionStep cl (Received d) s Hinv). }
    destruct (Hinv1 Ef1) as [lang Hl].
    apply langMatch_nonBlank in Hl. congruence.
  - intros lang. apply stripLangTag_spec.
  - intros c phs. apply flagImpliesTag_phases, flagImpliesTag_clear. reflexivity.
  - intros x. destruct (exitBy_journal cl x s) as (s0 & -> & _ & Hj & _).
    apply journal_fields in Hj as (_ & _ & _ & Hacc & _ & _).
    destruct (cleanupAudio_accumulators s0) as (_ & Hacc' & _).
    split; [apply cleanupAudio_cells|congruence].
  - intros ph. apply phase_turn_state.
  - intros Eo Ei Ef c1 c2. unfold deliverAll. cbn [fold_left].
    rewrite !deliver_outputDelta, deliver_turnCompleted.
    destruct (onOutputTranscription_spec c1 (lit "[LANG:") s) as (Ho1 & Hi1 & Ht1 & Hf1).
    cbv zeta in Ho1, Hi1, Ht1, Hf1. rewrite Eo in Ho1, Ht1, Hf1.
    set (sa := onOutputTranscription c1 (lit "[LANG:") s) in *.
    destruct (onOutputTranscription_spec c2 (lit "English] Hi") sa)
      as (Ho2 & Hi2 & Ht2 & Hf2).
    cbv zeta in Ho2, Hi2, Ht2, Hf2. rewrite Ho1 in Ho2, Ht2, Hf2.
    set (sb := onOutputTranscription c2 (lit "English] Hi") sa) in *.
    destruct (onTurnComplete_spec clock sb) as (Ht3 & _).
    cbv zeta in Ht3. rewrite Ht3, Ht2, Ht1, Hi2, Hi1, Ei, Ho2, Hf1, Ef.
    rewrite <- !app_assoc. reflexivity.
Qed.

Lemma language_reported_once_between_resets_witness :
  let s := initialState 0 in
  let ds := [outputDelta 1 "[LANG:"; outputDelta 2 "English] Hi";
             outputDelta 3 " there"] in
  let s1 := deliverAll someClosure ds s in
  let s2 := deliver someClosure (turnCompleted 4) s1 in
  Forall (fun d => turnComplete (message d) = false) ds
  /\ (exists added,
        transcripts s1 = transcripts s ++ added
        /\ exists d, In d ds /\ added = [languageMessage (atClock d) (lit "English")])
  /\ turnLanguageDetectedRef s2 = false
  /\ (exists before,
        transcripts s2 = before ++ [modelMessage 4 (lit "Hi there")])
  /\ transcripts (deliverAll someClosure [outputDelta 1 "[LANG:";
                                          outputDelta 2 "English] Hi";
                                          turnCompleted 4] s)
     = transcripts s
       ++ [languageMessage 2 (lit "English"); modelMessage 4 (lit "Hi")].
Proof.
  cbv zeta.
  assert (Hds : Forall (fun d => turnComplete (message d) = false)
                  [outputDelta 1 "[LANG:"; outputDelta 2 "English] Hi";
                   outputDelta 3 " there"]).
  { repeat (constructor; [reflexivity|]). constructor. }
  split; [exact Hds|].
  destruct (language_reported_once_between_resets someClosure _ 4 (initialState 0) Hds)
    as (_ & _ & (added & Ht & Hadded) & Hend & _ & _ & _ & _ & _ & Hexample).
  split.
  { exists added. split; [exact Ht|].
    cbn in Hadded. destruct Hadded as [(d & Hin & Ha & _)|(_ & Habs & _)].
    - exists d. split; assumption.
    - discriminate Habs. }
  destruct (Hend eq_refl) as (Hflag & _ & before & Hmodel).
  split; [exact Hflag|]. split; [exists before; exact Hmodel|].
  exact (Hexample eq_refl eq_refl eq_refl 1 2).
Defined.

(** ** The teardown *)

(** [connect] with its two requests answered at once is its three parts run
    one after the other. *)
Lemma connect_phases env s : connect env s = connectAtOnce env s.
Proof.
  unfold connect, connectAtOnce, connectBegin, onMicrophoneAnswer,
    acquireSystemAudio, onDisplayAnswer, connectCatch.
  cbv beta iota zeta. cbn [fst snd inCtxOf outCtxOf translationEnabledOf diarizationEnabledOf useSystemAudioOf].
  destruct (getUserMedia env) as [|m]; [|reflexivity].
  change (useSystemAudio (set_mediaStreamsRef ?a (with_world ?f (set_outputGainRef ?b (set_audioContextRef ?c (set_inputContextRef ?d (with_world ?g (set_error ?e s))))))))
    with (useSystemAudio s).
  destruct (useSystemAudio s).
  - destruct (getDisplayMedia env) as [[|]|]; reflexivity.
  - reflexivity.
Qed.

Lemma connectCatch_cleanupAudio message s :
  exists s0, connectCatch message s = cleanupAudio s0 /\ handles s0 = handles s.
Proof. eexists. split; reflexivity. Qed.

(** What no ref holds is left by the teardown as it was. *)
Lemma cleanupAudio_leaves s i :
  (i ∉ mediaStreamsRef s ->
   streamStopped (world (cleanupAudio s)) i = streamStopped (world s) i)
  /\ (processorRef s <> Some i ->
      processorDisconnected (world (cleanupAudio s)) i
      = processorDisconnected (world s) i)
  /\ (inputContextRef s <> Some i -> audioContextRef s <> Some i ->
      contextClosed (world (cleanupAudio s)) i = contextClosed (world s) i)
  /\ (sessionRef s <> Some i ->
      sessionIsClosed (world (cleanupAudio s)) i = sessionIsClosed (world s) i)
  /\ (i ∉ sourcesRef s ->
      sourceIsStopped (world (cleanupAudio s)) i = sourceIsStopped (world s) i).
Proof.
  destruct (cleanupAudio_orphans s) as (Hse & Hpr & Hcx).
  split; [|split; [|split; [|split]]].
  - intros Hout. unfold streamStopped. rewrite cleanupAudio_streams.
    rewrite (lookup_fold_alter _ stopTracks_idem).
    destruct (decide (i ∈ mediaStreamsRef s)); [contradiction|reflexivity].
  - apply Hpr.
  - apply Hcx.
  - apply Hse.
  - intros Hout. unfold sourceIsStopped. rewrite cleanupAudio_sources.
    rewrite lookup_fold_alter by reflexivity.
    destruct (decide (i ∈ sourcesRef s)); [contradiction|reflexivity].
Qed.

(** Nothing is left running by a teardown exactly when every running
    object was held by a ref. *)
Lemma cleanupAudio_quiescent_iff s :
  quiescent (world (cleanupAudio s)) = true <-> tracked s.
Proof.
  split; [|apply cleanupAudio_quiescent].
  intros Hq i. apply quiescent_lookup with (i := i) in Hq.
  destruct Hq as (Qst & Qpr & Qcx & Qse & Qso).
  destruct (cleanupAudio_leaves s i) as (Lst & Lpr & Lcx & Lse & Lso).
  split; [|split; [|split; [|split]]]; intros Hlive.
  - destruct (decide (i ∈ mediaStreamsRef s)) as [|Hout]; [assumption|].
    rewrite (Lst Hout) in Qst. congruence.
  - destruct (decide (processorRef s = Some i)) as [|Hne]; [assumption|].
    rewrite (Lpr Hne) in Qpr. congruence.
  - destruct (decide (inputContextRef s = Some i)) as [|Hin]; [now left|].
    destruct (decide (audioContextRef s = Some i)) as [|Hau]; [now right|].
    rewrite (Lcx Hin Hau) in Qcx. congruence.
  - destruct (decide (sessionRef s = Some i)) as [|Hne]; [assumption|].
    rewrite (Lse Hne) in Qse. congruence.
  - destruct (decide (i ∈ sourcesRef s)) as [|Hout]; [assumption|].
    rewrite (Lso Hout) in Qso. congruence.
Qed.

Lemma exitBy_quiescent_iff cl x s :
  quiescent (world (exitBy cl x s)) = true <-> tracked s.
Proof.
  destruct (exitBy_cleanupAudio cl x s) as (s0 & -> & Hs0).
  rewrite cleanupAudio_quiescent_iff.
  split; intros H; eapply tracked_handles; try exact H; congruence.
Qed.

Lemma tracked_cleanupAudio s : tracked s -> tracked (cleanupAudio s).
Proof. intros H. now apply quiescent_tracked, cleanupAudio_quiescent. Qed.

Ltac unfold_live :=
  unfold streamStopped, processorDisconnected, contextClosed, sessionIsClosed,
    sourceIsStopped, noContextHeld, noLinkHeld, whenSome in *.

(** The start of [connect] keeps every running object held when the two
    refs it assigns hold no running context. *)
Lemma tracked_connectBegin s :
  tracked s -> noContextHeld s = true -> tracked (fst (connectBegin s)).
Proof.
  intros Ht Hno i. destruct (Ht i) as (H1 & H2 & H3 & H4 & H5).
  destruct s as [? ? ? ? ? ? ? ? au ic ? ? ? ? ? ? ? ? ? [cx st ps ss srcs] ? ?].
  unfold_live. cbn in *.
  repeat split; try assumption.
  intros Hlive. apply live_app in Hlive. cbn in Hlive.
  destruct Hlive as [Hlive|Hlive].
  - exfalso. apply andb_true_iff in Hno as [Hic Hau].
    destruct (H3 Hlive) as [-> | ->]; cbn in *; unfold_live; cbn [contexts] in *;
      congruence.
  - assert (i = length cx \/ i = S (length cx)) as [->| ->] by lia; auto.
Qed.

(** A stream pushed on the list of streams is held. *)
Lemma tracked_pushStream tracks s :
  tracked s ->
  tracked (set_mediaStreamsRef
             (mediaStreamsRef s ++ [length (streams (world s))])
             (with_world (fun w => set_streams (streams w ++ [tracks]) w) s)).
Proof.
  intros Ht i. destruct (Ht i) as (H1 & H2 & H3 & H4 & H5).
  destruct s as [? ? ? ? ? ? ? ? au ic ms ? ? ? ? ? ? ? ? [cx st ps ss srcs] ? ?].
  unfold_live. cbn in *.
  repeat split; try assumption.
  intros Hlive. apply live_app in Hlive. cbn in Hlive.
  apply list_elem_of_In, in_or_app.
  destruct Hlive as [Hlive|Hlive]; [left; apply list_elem_of_In; auto|right].
  assert (i = length st) as -> by lia. now left.
Qed.

(** The end of [connect] keeps every running object held when the two refs
    it assigns hold nothing that is running. *)
Lemma tracked_connectFinish p mixer s :
  tracked s -> noLinkHeld s = true -> tracked (fst (connectFinish p mixer s)).
Proof.
  intros Ht Hno i. destruct (Ht i) as (H1 & H2 & H3 & H4 & H5).
  destruct s as [? ? ? ? ? ? ? ? au ic ms pr sr ? ? ? ? ? ? [cx st ps ss srcs] ? ?].
  unfold_live. cbn in *. apply andb_true_iff in Hno as [Hpr Hsr].
  repeat split; try assumption.
  - intros Hlive. apply live_app in Hlive. cbn in Hlive.
    destruct Hlive as [Hlive|Hlive].
    + exfalso. rewrite (H2 Hlive) in Hpr. cbn in *. unfold_live.
      cbn [processors] in *. congruence.
    + f_equal. lia.
  - intros Hlive. apply live_app in Hlive. cbn in Hlive.
    destruct Hlive as [Hlive|Hlive].
    + exfalso. rewrite (H4 Hlive) in Hsr. cbn in *. unfold_live.
      cbn [sessions] in *. congruence.
    + f_equal. lia.
Qed.

Lemma noLinkHeld_ext s s' :
  processors (world s') = processors (world s) ->
  sessions (world s') = sessions (world s) ->
  processorRef s' = processorRef s -> sessionRef s' = sessionRef s ->
  noLinkHeld s' = noLinkHeld s.
Proof.
  unfold noLinkHeld, whenSome, processorDisconnected, sessionIsClosed.
  now intros -> -> -> ->.
Qed.

Lemma tracked_exitBy cl x s : tracked s -> tracked (exitBy cl x s).
Proof.
  intros Ht. apply quiescent_tracked. now apply exitBy_quiescent_iff.
Qed.

(** Every handler keeps every running object held, the parts of [connect]
    as long as they overwrite nothing that is running. *)
Lemma tracked_phase s ph :
  tracked s -> overwrites s ph = false -> tracked (phase s ph).
Proof.
  intros Ht Hov.
  destruct ph as [|p [|m]|p mixer answer|cl e|cl x]; cbn [phase overwrites] in *.
  - destruct (isActive s); [now apply tracked_cleanupAudio|].
    apply tracked_connectBegin; [exact Ht|].
    cbn in Hov. now destruct (noContextHeld s).
  - unfold onMicrophoneAnswer.
    pose proof (tracked_pushStream [mkTrack audioTrack false] s Ht) as Hpush.
    destruct (useSystemAudioOf p); [exact Hpush|].
    cbn in Hov.
    match goal with
    | |- tracked (fst (let '(_, _) := connectFinish ?p ?m ?s1 in _)) =>
        change (tracked (fst (connectFinish p m s1)))
    end.
    assert (Hno : noLinkHeld s = true) by (now destruct (noLinkHeld s)).
    apply tracked_connectFinish; [exact Hpush|].
    rewrite <- Hno. now apply noLinkHeld_ext.
  - destruct (connectCatch_cleanupAudio m s) as (s0 & Hs0 & Hh).
    unfold onMicrophoneAnswer. cbn [fst]. rewrite Hs0.
    apply tracked_cleanupAudio. eapply tracked_handles; eassumption.
  - assert (Hno : noLinkHeld s = true) by (now destruct (noLinkHeld s)).
    unfold onDisplayAnswer.
    destruct answer as [[|]|].
    + cbv beta iota zeta.
      apply tracked_connectFinish.
      * apply (tracked_pushStream _ s Ht).
      * rewrite <- Hno. now apply noLinkHeld_ext.
    + cbv beta iota zeta.
      apply tracked_connectFinish.
      * apply tracked_log. apply (tracked_pushStream _ s Ht).
      * rewrite <- Hno. now apply noLinkHeld_ext.
    + cbv beta iota zeta.
      apply tracked_connectFinish.
      * now apply tracked_log.
      * rewrite <- Hno. now apply noLinkHeld_ext.
  - now apply tracked_sessionStep.
  - now apply tracked_exitBy.
Qed.

Lemma tracked_phases phs s :
  tracked s -> neverOverwrites s phs = true -> tracked (phases phs s).
Proof.
  revert s. induction phs as [|ph phs IH]; intros s Ht Hnever; [exact Ht|].
  cbn [neverOverwrites] in Hnever. apply andb_true_iff in Hnever as [Hov Hrest].
  apply negb_true_iff in Hov. cbn [phases fold_left].
  apply IH; [now apply tracked_phase|exact Hrest].
Qed.

Lemma sessionsInTurn_quiescent lives s :
  tracked s -> outstanding s = 0%nat ->
  tracked (sessionsInTurn lives s) /\ outstanding (sessionsInTurn lives s) = 0%nat
  /\ (lives <> [] -> quiescent (world (sessionsInTurn lives s)) = true).
Proof.
  revert s. induction lives as [|[[env es] x] lives IH]; intros s Ht Hidle.
  - split; [exact Ht|]. split; [exact Hidle|]. congruence.
  - destruct (sessionLife_quiescent env es x s Ht Hidle) as [Hq Ho].
    destruct (IH (sessionLife env es x s) (quiescent_tracked _ Hq) Ho)
      as (Ht' & Ho' & Hq').
    change (sessionsInTurn ((env, es, x) :: lives) s)
      with (sessionsInTurn lives (sessionLife env es x s)).
    split; [exact Ht'|]. split; [exact Ho'|]. intros _.
    destruct lives as [|l lives']; [exact Hq|]. apply Hq'. discriminate.
Qed.

(** C2, as stated, fails.  The teardown releases what the refs hold at the
    moment it runs, and [connect] assigns the context, processor and session
    refs without releasing what they held.  Two clicks before the link
    opens: whichever way the second session ends, no ref holds anything and
    the two contexts, the processor and the session of the first are still
    running.  Two clicks while the microphone is being asked for, both
    requests then refused: after the two [catch] blocks the contexts of the
    first call are still running. *)
Lemma overlapping_starts_leave_objects_running :
  let env := mkEnv MicGranted DisplayDeclined in
  let cl2 := mkClosure false true 3 1 1 in
  let s := onopen cl2 1 (onClick env (onClick env (initialState 0))) in
  let b1 := connectBegin (initialState 0) in
  let b2 := connectBegin (fst b1) in
  let r1 := fst (onMicrophoneAnswer (snd b1) (MicDenied (lit "denied")) (fst b2)) in
  let r2 := fst (onMicrophoneAnswer (snd b2) (MicDenied (lit "denied")) r1) in
  snd (connect env (onClick env (initialState 0))) = Some cl2
  /\ (forall x,
        outstanding (exitBy cl2 x s) = 0%nat
        /\ quiescent (world (exitBy cl2 x s)) = false
        /\ contextClosed (world (exitBy cl2 x s)) 0 = false
        /\ contextClosed (world (exitBy cl2 x s)) 1 = false
        /\ processorDisconnected (world (exitBy cl2 x s)) 0 = false
        /\ sessionIsClosed (world (exitBy cl2 x s)) 0 = false)
  /\ isActive (fst b1) = false
  /\ overwrites (fst b1) Clicks = true
  /\ contexts (world r2) = [running; running; closed; closed]
  /\ outstanding r2 = 0%nat
  /\ quiescent (world r2) = false.
Proof.
  cbv zeta. split; [reflexivity|]. split; [|repeat split; reflexivity].
  intros [| |message]; repeat split; reflexivity.
Qed.

(** C2, amended.  Every exit path is [cleanupAudio] on the refs as they
    are at that moment: the stop button, [onclose], [onerror], and the
    [catch] of [connect] whenever the refusal arrives.  Whatever the refs
    hold then is released, none of them holds anything afterwards, what no
    ref holds is left exactly as it was, and a further teardown changes
    nothing.  So an exit leaves nothing running exactly when every running
    object was held by a ref.  Every handler keeps it so, the parts of
    [connect] as long as they overwrite no ref that holds a running object;
    sessions that follow one another from the mount of the component leave
    nothing running, whichever way each of them ends. *)
Theorem teardown_releases_what_the_refs_hold (s : State) :
  (* the exit paths *)
  (forall env cl, isActive s = true -> onClick env s = exitBy cl ExplicitStop s)
  /\ (forall cl x, exists s0, exitBy cl x s = cleanupAudio s0 /\ handles s0 = handles s)
  /\ (forall p message,
        exists s0,
          fst (onMicrophoneAnswer p (MicDenied message) s) = cleanupAudio s0
          /\ handles s0 = handles s)
  /\ (forall env, connect env s = connectAtOnce env s)
  (* any subset of handles *)
  /\ (forall s0,
        handles s0 = handles s ->
        released s (world (cleanupAudio s0)) = true
        /\ outstanding (cleanupAudio s0) = 0%nat
        /\ isActive (cleanupAudio s0) = false)
  (* what no ref holds *)
  /\ (forall i,
        (i ∉ mediaStreamsRef s ->
         streamStopped (world (cleanupAudio s)) i = streamStopped (world s) i)
        /\ (processorRef s <> Some i ->
            processorDisconnected (world (cleanupAudio s)) i
            = processorDisconnected (world s) i)
        /\ (inputContextRef s <> Some i -> audioContextRef s <> Some i ->
            contextClosed (world (cleanupAudio s)) i = contextClosed (world s) i)
        /\ (sessionRef s <> Some i ->
            sessionIsClosed (world (cleanupAudio s)) i
            = sessionIsClosed (world s) i)
        /\ (i ∉ sourcesRef s ->
            sourceIsStopped (world (cleanupAudio s)) i
            = sourceIsStopped (world s) i))
  (* a second teardown *)
  /\ (forall s0, cleanupAudio (cleanupAudio s0) = cleanupAudio s0)
  (* nothing is left running exactly when all that runs is held *)
  /\ (forall s0,
        handles s0 = handles s ->
        (quiescent (world (cleanupAudio s0)) = true <-> tracked s))
  (* which the handlers keep so, short of overwriting *)
  /\ (forall ph, tracked s -> overwrites s ph = false -> tracked (phase s ph))
  /\ (forall phs cl x,
        tracked s -> neverOverwrites s phs = true ->
        quiescent (world (exitBy cl x (phases phs s))) = true
        /\ outstanding (exitBy cl x (phases phs s)) = 0%nat)
  (* sessions that follow one another *)
  /\ (tracked s -> outstanding s = 0%nat ->
      forall env es x,
        quiescent (world (sessionLife env es x s)) = true
        /\ outstanding (sessionLife env es x s) = 0%nat)
  /\ (forall c life lives,
        quiescent (world (sessionsInTurn (life :: lives) (initialState c))) = true
        /\ outstanding (sessionsInTurn (life :: lives) (initialState c)) = 0%nat).
Proof.
  split; [|split; [|split; [|split; [|split; [|split; [|split; [|split;
    [|split; [|split; [|split]]]]]]]]]].
  - intros env cl Hact. unfold onClick. now rewrite Hact.
  - intros cl x. apply exitBy_cleanupAudio.
  - intros p message. apply connectCatch_cleanupAudio.
  - intros env. apply connect_phases.
  - intros s0 Hs0. split; [|split].
    + rewrite (released_handles _ _ _ Hs0). apply cleanupAudio_released.
    + apply cleanupAudio_outstanding.
    + apply cleanupAudio_cells.
  - apply cleanupAudio_leaves.
  - apply cleanupAudio_idempotent.
  - intros s0 Hs0. rewrite cleanupAudio_quiescent_iff.
    split; intros H; eapply tracked_handles; try exact H; congruence.
  - intros ph. apply tracked_phase.
  - intros phs cl x Ht Hnever. split.
    + apply exitBy_quiescent_iff. now apply tracked_phases.
    + destruct (exitBy_cleanupAudio cl x (phases phs s)) as (s0 & -> & _).
      apply cleanupAudio_outstanding.
  - intros Ht Hidle env es x. now apply sessionLife_quiescent.
  - intros c life lives.
    destruct (sessionsInTurn_quiescent (life :: lives) (initialState c))
      as (_ & Ho & Hq).
    + apply tracked_initialState.
    + reflexivity.
    + split; [apply Hq; discriminate|exact Ho].
Qed.

Lemma teardown_releases_what_the_refs_hold_witness :
  let env := mkEnv MicGranted (DisplayGranted false) in
  let s := set_useSystemAudio true (initialState 0) in
  let frame := mkLiveServerMessage (Some (lit "AAAA/38A")) None None false in
  let es := [Opened 1; Received (mkDelivery 0 2 frame)] in
  let p := snd (connectBegin s) in
  let phs := [Clicks;
              MicrophoneAnswers p MicGranted;
              DisplayAnswers p [0%nat] (DisplayGranted false);
              Happens someClosure (Opened 1);
              Happens someClosure (Received (mkDelivery 0 2 frame));
              Ends someClosure RemoteClose;
              Clicks;
              MicrophoneAnswers (mkPending 2 3 false true true) (MicDenied [])] in
  onClick env (startAndOpen env 1 s) = cleanupAudio (startAndOpen env 1 s)
  /\ tracked s
  /\ neverOverwrites s phs = true
  /\ quiescent (world (exitBy someClosure ExplicitStop (phases phs s))) = true
  /\ quiescent (world (sessionLife env es (RemoteError []) s)) = true
  /\ outstanding (sessionLife env es (RemoteError []) s) = 0%nat.
Proof.
  cbv zeta.
  destruct (teardown_releases_what_the_refs_hold
              (startAndOpen (mkEnv MicGranted (DisplayGranted false)) 1
                 (set_useSystemAudio true (initialState 0))))
    as (Hstop & _).
  destruct (teardown_releases_what_the_refs_hold
              (set_useSystemAudio true (initialState 0)))
    as (_ & _ & _ & _ & _ & _ & _ & _ & _ & Hphases & Hlife & _).
  assert (Ht : tracked (set_useSystemAudio true (initialState 0)))
    by (apply quiescent_tracked; reflexivity).
  split; [exact (Hstop _ someClosure eq_refl)|].
  split; [exact Ht|].
  split; [reflexivity|].
  split; [apply Hphases; [exact Ht|reflexivity]|].
  apply Hlife; [exact Ht|reflexivity].
Defined.
